(** * Region selection and edit history of the renderless front end

    A shallow embedding of the algorithmic core of the application:
    - the project store ([stores/projectStore]): [createProject],
      [setCurrentVersion], [addVersion], [getCurrentVersion],
      [getVersionHistory];
    - the click-to-mask region growing of [segmentAtPoint]
      ([SegmentationCanvas.tsx], [ImageCanvas.tsx]);
    - the mask scan of [updateMaskFromCanvas] ([ImageCanvas.tsx]) and
      [handleMouseUp] ([BrushMaskCanvas.tsx]), and [clearMask];
    - the red-channel test and the pixel loop of [compositeImages];
    - the flaws of the store ([addFlaw], [resolveFlaw]) and the generation
      from the toolbar ([handleFileUpload], [handleGenerate]);
    - the version list, the credits and the reference images of the
      project page ([handleChatGenerate], [handleReferenceUpload],
      [removeReferenceImage]).

    Numbers that the code only uses as integers are [Z]; a JavaScript array
    read out of range yields [undefined], modelled by [None]. *)

From Stdlib Require Import ZArith List Lia Bool Ascii.
From stdpp Require Import base numbers list strings gmap sets.

(** ** Data model ([lib/types], [stores/projectStore]) *)

Module Bounds.
Record t := mk { x : Z; y : Z; width : Z; height : Z }.
End Bounds.

Module Mask.
(** [imageData] is the base64 PNG of the mask canvas in the source; PNG is
    lossless, so the model keeps the RGBA buffer that the PNG encodes. *)
Record t := mk { id : string; imageData : list Z; bounds : Bounds.t }.
End Mask.

Module Flaw.
Record t := mk {
  id : string; point : Z * Z; description : string;
  resolved : bool; createdAt : Z }.
End Flaw.

Module Version.
Record t := mk {
  id : string;
  imageUrl : string;
  parentId : option string;
  prompt : string;
  mask : option Mask.t;
  flaws : list Flaw.t;
  createdAt : Z }.
End Version.

Module Project.
Record t := mk {
  id : string;
  name : string;
  versions : list Version.t;
  currentVersionId : string;
  createdAt : Z;
  updatedAt : Z }.
End Project.

Inductive Tool := ToolSelect | ToolPan | ToolMask | ToolFlaw.

(** The store. [canvasScale] and [canvasPosition] are not touched by any
    operation modelled here and are left out. *)
Record ProjectState := mkState {
  project : option Project.t;
  activeTool : Tool;
  isGenerating : bool;
  selectedFlawId : option string;
  currentMask : option Mask.t;
  promptText : string;
  showWizard : bool }.

Definition initialState : ProjectState :=
  {| project := None; activeTool := ToolSelect; isGenerating := false;
     selectedFlawId := None; currentMask := None;
     promptText := EmptyString; showWizard := false |}.

(** JavaScript truthiness of a string: only the empty string is falsy. *)
Definition truthy (s : string) : bool :=
  match s with EmptyString => false | String _ _ => true end.

(** ** Store operations

    [uuidv4()] and [new Date()] are inputs of the model: every operation
    takes the identifiers and the time stamp it draws as arguments. *)

Definition createProject (name initialImageUrl : string)
    (projectId versionId : string) (now : Z) (st : ProjectState) : ProjectState :=
  let initialVersion :=
    {| Version.id := versionId; Version.imageUrl := initialImageUrl;
       Version.parentId := None; Version.prompt := "Original upload";
       Version.mask := None; Version.flaws := []; Version.createdAt := now |} in
  let project :=
    {| Project.id := projectId; Project.name := name;
       Project.versions := [initialVersion];
       Project.currentVersionId := versionId;
       Project.createdAt := now; Project.updatedAt := now |} in
  {| project := Some project; activeTool := activeTool st;
     isGenerating := isGenerating st; selectedFlawId := selectedFlawId st;
     currentMask := currentMask st; promptText := promptText st;
     showWizard := showWizard st |}.

Definition setCurrentVersion (versionId : string) (now : Z)
    (st : ProjectState) : ProjectState :=
  match project st with
  | None => st
  | Some p =>
    {| project := Some
         {| Project.id := Project.id p; Project.name := Project.name p;
            Project.versions := Project.versions p;
            Project.currentVersionId := versionId;
            Project.createdAt := Project.createdAt p;
            Project.updatedAt := now |};
       activeTool := activeTool st; isGenerating := isGenerating st;
       selectedFlawId := None; currentMask := None;
       promptText := promptText st; showWizard := showWizard st |}
  end.

(** [addVersion] returns the new version and the new store. There is no
    lookup of [parentId] in the source. *)
Definition addVersion (imageUrl prompt : string) (mask : option Mask.t)
    (parentId : string) (versionId : string) (now : Z)
    (st : ProjectState) : Version.t * ProjectState :=
  let newVersion :=
    {| Version.id := versionId; Version.imageUrl := imageUrl;
       Version.parentId := Some parentId; Version.prompt := prompt;
       Version.mask := mask; Version.flaws := []; Version.createdAt := now |} in
  (newVersion,
   match project st with
   | None => st
   | Some p =>
     {| project := Some
          {| Project.id := Project.id p; Project.name := Project.name p;
             Project.versions := Project.versions p ++ [newVersion];
             Project.currentVersionId := versionId;
             Project.createdAt := Project.createdAt p;
             Project.updatedAt := now |};
        activeTool := activeTool st; isGenerating := isGenerating st;
        selectedFlawId := selectedFlawId st; currentMask := None;
        promptText := EmptyString; showWizard := showWizard st |}
   end).

(** [versions.find((v) => v.id === id) || null] *)
Definition findVersion (versions : list Version.t) (id : string) : option Version.t :=
  List.find (fun v => String.eqb (Version.id v) id) versions.

Definition getCurrentVersion (st : ProjectState) : option Version.t :=
  match project st with
  | None => None
  | Some p => findVersion (Project.versions p) (Project.currentVersionId p)
  end.

Definition getVersionById (id : string) (st : ProjectState) : option Version.t :=
  match project st with
  | None => None
  | Some p => findVersion (Project.versions p) id
  end.

(** The right-hand side of the assignment in the loop of
    [getVersionHistory]: [version.parentId ? find(...) || null : null]. *)
Definition parentOf (versions : list Version.t) (version : Version.t) : option Version.t :=
  match Version.parentId version with
  | Some pid => if truthy pid then findVersion versions pid else None
  | None => None
  end.

(** The [while (version)] loop. The source loop has no bound; [fuel] counts
    the iterations allowed, and [None] means the fuel ran out. *)
Fixpoint walkHistory (fuel : nat) (versions : list Version.t)
    (version : option Version.t) (history : list Version.t)
    : option (list Version.t) :=
  match version with
  | None => Some history
  | Some v =>
    match fuel with
    | O => None
    | S fuel' => walkHistory fuel' versions (parentOf versions v) (v :: history)
    end
  end.

Definition getVersionHistory (fuel : nat) (st : ProjectState)
    : option (list Version.t) :=
  match project st with
  | None => Some []
  | Some p =>
    match getCurrentVersion st with
    | None => Some []
    | Some current => walkHistory fuel (Project.versions p) (Some current) []
    end
  end.

(** ** Pixel buffers ([ImageData], [Uint8ClampedArray]) *)

Module ImageData.
(** [width] and [height] are those of the canvas the buffer was read from;
    [data] holds four channels per pixel, row by row. *)
Record t := mk { width : Z; height : Z; data : list Z }.
End ImageData.

(** [data[i]]: [undefined] ([None]) outside the array. *)
Definition readAt (data : list Z) (i : Z) : option Z :=
  if (i <? 0)%Z then None else data !! Z.to_nat i.

(** [data[i] = v] on a typed array: a write outside the array is ignored. *)
Definition writeAt (data : list Z) (i : Z) (v : Z) : list Z :=
  if (i <? 0)%Z then data else <[Z.to_nat i := v]> data.

(** [Math.abs(a - b)] and [a + b] on numbers that may be [undefined]: the
    result is then [NaN], modelled by [None]. *)
Definition absDiff (a b : option Z) : option Z :=
  match a, b with
  | Some u, Some v => Some (Z.abs (u - v))
  | _, _ => None
  end.

Definition addNum (a b : option Z) : option Z :=
  match a, b with
  | Some u, Some v => Some (u + v)%Z
  | _, _ => None
  end.

(** [diff > limit]; a comparison with [NaN] is false. *)
Definition exceeds (diff : option Z) (limit : Z) : bool :=
  match diff with
  | Some d => (limit <? d)%Z
  | None => false
  end.

(** [maskValue > 128] on the red channel of pixel number [key]
    ([compositeImages], [updateMaskFromCanvas], [handleMouseUp]). *)
Definition isWhite (data : list Z) (key : Z) : bool :=
  match readAt data (key * 4) with
  | Some maskValue => (128 <? maskValue)%Z
  | None => false
  end.

(** ** Region growing ([segmentAtPoint]) *)

Record FillState := mkFill {
  stack : list (Z * Z);
  visited : gset Z;
  maskData : list Z;
  minX : Z; minY : Z; maxX : Z; maxY : Z }.

(** How the loop takes the next pending pixel off the array [stack]. The
    array is kept in JavaScript order, so [push] appends at the end. *)
Definition Discipline := list (Z * Z) -> option ((Z * Z) * list (Z * Z)).

(** [stack.pop()]: the last element (LIFO), as in the source. *)
Definition pop : Discipline := fun stack =>
  match rev stack with
  | [] => None
  | top :: rest => Some (top, rev rest)
  end.

(** [stack.shift()]: the first element (FIFO), the queue variant. *)
Definition shift : Discipline := fun stack =>
  match stack with
  | [] => None
  | first :: rest => Some (first, rest)
  end.

Definition keyOf (img : ImageData.t) (p : Z * Z) : Z :=
  (p.2 * ImageData.width img + p.1)%Z.

(** The three channels read at index [i], [i + 1], [i + 2]. *)
Definition rgbAt (img : ImageData.t) (i : Z) : option Z * option Z * option Z :=
  (readAt (ImageData.data img) i,
   readAt (ImageData.data img) (i + 1),
   readAt (ImageData.data img) (i + 2)).

(** [Math.abs(r - targetR) + Math.abs(g - targetG) + Math.abs(b - targetB)] *)
Definition colourDiff (c target : option Z * option Z * option Z) : option Z :=
  let '(r, g, b) := c in
  let '(targetR, targetG, targetB) := target in
  addNum (addNum (absDiff r targetR) (absDiff g targetG)) (absDiff b targetB).

Definition outside (img : ImageData.t) (p : Z * Z) : bool :=
  (p.1 <? 0)%Z || (ImageData.width img <=? p.1)%Z ||
  (p.2 <? 0)%Z || (ImageData.height img <=? p.2)%Z.

(** The four writes [maskData[i] = 255] ... [maskData[i + 3] = 255]. *)
Definition paintWhite (maskData : list Z) (i : Z) : list Z :=
  writeAt (writeAt (writeAt (writeAt maskData i 255) (i + 1) 255) (i + 2) 255)
    (i + 3) 255.

(** One iteration of [while (stack.length > 0)]. [None]: the array is empty
    and the loop ends. Otherwise the next state, together with the pixel
    whose colour difference this iteration computed, if it computed one
    (an observation of the run, not a variable of the source). *)
Definition fillStep (take : Discipline) (img : ImageData.t)
    (target : option Z * option Z * option Z) (tolerance : Z)
    (s : FillState) : option (FillState * option (Z * Z)) :=
  match take (stack s) with
  | None => None
  | Some ((px, py), rest) =>
    let skip := {| stack := rest; visited := visited s; maskData := maskData s;
                   minX := minX s; minY := minY s;
                   maxX := maxX s; maxY := maxY s |} in
    let key := keyOf img (px, py) in
    if decide (key ∈ visited s) then Some (skip, None)
    else if outside img (px, py) then Some (skip, None)
    else
      let i := (key * 4)%Z in
      let diff := colourDiff (rgbAt img i) target in
      if exceeds diff (tolerance * 3) then Some (skip, Some (px, py))
      else
        Some ({| stack := rest ++ [(px + 1, py); (px - 1, py);
                                   (px, py + 1); (px, py - 1)]%Z;
                 visited := {[key]} ∪ visited s;
                 maskData := paintWhite (maskData s) i;
                 minX := Z.min (minX s) px; minY := Z.min (minY s) py;
                 maxX := Z.max (maxX s) px; maxY := Z.max (maxY s) py |},
              Some (px, py))
  end.

(** The loop, with the list of evaluated pixels in order of evaluation.
    [fuel] bounds the number of iterations; [None] means it ran out. *)
Fixpoint fillLoop (fuel : nat) (take : Discipline) (img : ImageData.t)
    (target : option Z * option Z * option Z) (tolerance : Z)
    (s : FillState) (evaluated : list (Z * Z))
    : option (FillState * list (Z * Z)) :=
  match fillStep take img target tolerance s with
  | None => Some (s, evaluated)
  | Some (s', e) =>
    match fuel with
    | O => None
    | S fuel' =>
      fillLoop fuel' take img target tolerance s'
        (match e with Some p => evaluated ++ [p] | None => evaluated end)
    end
  end.

(** The state before the loop. [x] and [y] are the click coordinates after
    [Math.floor]. *)
Definition fillStart (img : ImageData.t) (x y : Z) : FillState :=
  {| stack := [(x, y)];
     visited := ∅;
     maskData := replicate (Z.to_nat (ImageData.width img * ImageData.height img * 4)) 0%Z;
     minX := ImageData.width img; minY := ImageData.height img;
     maxX := 0; maxY := 0 |}.

(** The flood fill of [segmentAtPoint], from reading the clicked pixel to
    the end of the loop, for a given worklist discipline and tolerance. *)
Definition segment (take : Discipline) (fuel : nat) (tolerance : Z)
    (img : ImageData.t) (x y : Z) : option (FillState * list (Z * Z)) :=
  let pixelIndex := (keyOf img (x, y) * 4)%Z in
  fillLoop fuel take img (rgbAt img pixelIndex) tolerance (fillStart img x y) [].

(** "Calculate bounds with padding". *)
Definition paddedBounds (img : ImageData.t) (padding : Z) (s : FillState) : Bounds.t :=
  {| Bounds.x := Z.max 0 (minX s - padding);
     Bounds.y := Z.max 0 (minY s - padding);
     Bounds.width :=
       Z.min (ImageData.width img - minX s + padding) (maxX s - minX s + padding * 2);
     Bounds.height :=
       Z.min (ImageData.height img - minY s + padding) (maxY s - minY s + padding * 2) |}.

(** [segmentAtPoint] of [SegmentationCanvas.tsx]: tolerance 32, padding 10;
    the result is what it passes to [onMaskGenerated]. *)
Definition segmentAtPoint (fuel : nat) (img : ImageData.t) (x y : Z)
    : option (list Z * Bounds.t) :=
  match segment pop fuel 32 img x y with
  | None => None
  | Some (s, _) => Some (maskData s, paddedBounds img 10 s)
  end.

(** [segmentAtPoint] of [ImageCanvas.tsx]: tolerance 40, padding 10; the
    result is stored with [setCurrentMask]. *)
Definition segmentAtPointImageCanvas (fuel : nat) (img : ImageData.t) (x y : Z)
    (maskId : string) (st : ProjectState) : option ProjectState :=
  match segment pop fuel 40 img x y with
  | None => None
  | Some (s, _) =>
    Some {| project := project st; activeTool := activeTool st;
            isGenerating := isGenerating st; selectedFlawId := selectedFlawId st;
            currentMask := Some {| Mask.id := maskId; Mask.imageData := maskData s;
                                   Mask.bounds := paddedBounds img 10 s |};
            promptText := promptText st; showWizard := showWizard st |}
  end.

(** ** The mask buffer and its red-channel reading *)

Fixpoint encodeFrom (mask : list bool) (key : Z) (maskData : list Z) : list Z :=
  match mask with
  | [] => maskData
  | selected :: mask' =>
    encodeFrom mask' (key + 1)
      (if selected then paintWhite maskData (key * 4) else maskData)
  end.

(** The buffer [segmentAtPoint] builds for a selection, given as the flags
    of the pixels row by row: a zeroed [Uint8ClampedArray] of four channels
    per pixel in which the channels of every selected pixel are set to 255
    (see [segment_mask_encode] below). *)
Definition encode (mask : list bool) : list Z :=
  encodeFrom mask 0 (replicate (length mask * 4) 0%Z).

(** The selection read back as [compositeImages] does:
    [for (i = 0; i < data.length; i += 4)] with the test [data[i] > 128]. *)
Definition decode (data : list Z) : list bool :=
  (fun key => isWhite data key) <$> seqZ 0 ((Z.of_nat (length data) + 3) / 4).

(** ** The scan of the brush mask canvas *)

Module Scan.
Record t := mk { hasWhite : bool; minX : Z; minY : Z; maxX : Z; maxY : Z }.
End Scan.

(** The body of the two nested loops, at pixel [(x, y)]. *)
Definition scanStep (maskCanvas : ImageData.t) (s : Scan.t) (p : Z * Z) : Scan.t :=
  if isWhite (ImageData.data maskCanvas) (keyOf maskCanvas p) then
    {| Scan.hasWhite := true;
       Scan.minX := Z.min (Scan.minX s) p.1; Scan.minY := Z.min (Scan.minY s) p.2;
       Scan.maxX := Z.max (Scan.maxX s) p.1; Scan.maxY := Z.max (Scan.maxY s) p.2 |}
  else s.

(** [for (y = 0; y < height; y++) for (x = 0; x < width; x++)] *)
Definition scanPixels (maskCanvas : ImageData.t) : list (Z * Z) :=
  y ← seqZ 0 (ImageData.height maskCanvas);
  x ← seqZ 0 (ImageData.width maskCanvas);
  [(x, y)].

Definition scanMask (maskCanvas : ImageData.t) : Scan.t :=
  foldl (scanStep maskCanvas)
    {| Scan.hasWhite := false;
       Scan.minX := ImageData.width maskCanvas;
       Scan.minY := ImageData.height maskCanvas;
       Scan.maxX := 0; Scan.maxY := 0 |}
    (scanPixels maskCanvas).

Definition scanBounds (s : Scan.t) : Bounds.t :=
  {| Bounds.x := Scan.minX s; Bounds.y := Scan.minY s;
     Bounds.width := Scan.maxX s - Scan.minX s;
     Bounds.height := Scan.maxY s - Scan.minY s |}.

Definition setCurrentMask (mask : option Mask.t) (st : ProjectState) : ProjectState :=
  {| project := project st; activeTool := activeTool st;
     isGenerating := isGenerating st; selectedFlawId := selectedFlawId st;
     currentMask := mask;
     promptText := promptText st; showWizard := showWizard st |}.

(** [updateMaskFromCanvas] of [ImageCanvas.tsx], called when a brush stroke
    ends; [maskId] is the identifier [uuidv4()] yields. *)
Definition updateMaskFromCanvas (maskCanvas : ImageData.t) (maskId : string)
    (st : ProjectState) : ProjectState :=
  let s := scanMask maskCanvas in
  if Scan.hasWhite s then
    setCurrentMask
      (Some {| Mask.id := maskId; Mask.imageData := ImageData.data maskCanvas;
               Mask.bounds := scanBounds s |}) st
  else setCurrentMask None st.

(** [handleMouseUp] of [BrushMaskCanvas.tsx]: the new value of [isDrawing]
    and the new store. There is no [else] branch after [if (hasWhite)]. *)
Definition handleMouseUp (isDrawing : bool) (maskCanvas : ImageData.t)
    (maskId : string) (st : ProjectState) : bool * ProjectState :=
  if negb isDrawing then (isDrawing, st)
  else
    let s := scanMask maskCanvas in
    (false,
     if Scan.hasWhite s then
       setCurrentMask
         (Some {| Mask.id := maskId; Mask.imageData := ImageData.data maskCanvas;
                  Mask.bounds := scanBounds s |}) st
     else st).

(** The pixels of the image. *)
Definition inBounds (img : ImageData.t) (p : Z * Z) : Prop :=
  (0 <= p.1 < ImageData.width img)%Z /\ (0 <= p.2 < ImageData.height img)%Z.

(** A mask canvas on which no pixel passes the red-channel test. *)
Definition allUnselected (maskCanvas : ImageData.t) : Prop :=
  forall p, inBounds maskCanvas p ->
    isWhite (ImageData.data maskCanvas) (keyOf maskCanvas p) = false.

(** ** Specification vocabulary for the region growing *)

(** A buffer as [getImageData] returns it: four channels for each of the
    [width * height] pixels. *)
Definition wellFormed (img : ImageData.t) : Prop :=
  length (ImageData.data img) =
    Z.to_nat (ImageData.width img * ImageData.height img * 4).

(** The four neighbours of a pixel. *)
Definition adjacent (p q : Z * Z) : Prop :=
  q = (p.1 + 1, p.2)%Z \/ q = (p.1 - 1, p.2)%Z \/
  q = (p.1, p.2 + 1)%Z \/ q = (p.1, p.2 - 1)%Z.

(** In the words of the specification: the sum of the absolute differences
    between the R, G, B channels of pixel [p] and those of the seed pixel is
    at most [tolerance * 3]. *)
Definition withinTolerance (img : ImageData.t) (seed : Z * Z) (tolerance : Z)
    (p : Z * Z) : Prop :=
  exists r g b sr sg sb : Z,
    rgbAt img (keyOf img p * 4) = (Some r, Some g, Some b) /\
    rgbAt img (keyOf img seed * 4) = (Some sr, Some sg, Some sb) /\
    (Z.abs (r - sr) + Z.abs (g - sg) + Z.abs (b - sb) <= tolerance * 3)%Z.

(** In the words of the specification: the 4-connected component, containing
    the seed, of the pixels within tolerance. *)
Inductive component (img : ImageData.t) (seed : Z * Z) (tolerance : Z)
    : Z * Z -> Prop :=
| component_seed :
    inBounds img seed -> withinTolerance img seed tolerance seed ->
    component img seed tolerance seed
| component_step p q :
    component img seed tolerance p -> adjacent p q ->
    inBounds img q -> withinTolerance img seed tolerance q ->
    component img seed tolerance q.

(** A discipline is any way of taking one pending pixel off the worklist. *)
Definition fairDiscipline (take : Discipline) : Prop :=
  (forall l, take l = None -> l = []) /\
  (forall l p rest, take l = Some (p, rest) -> l ≡ₚ p :: rest).

(** The pixels of the image, all of one colour. *)
Definition uniform (img : ImageData.t) : Prop :=
  forall p q, inBounds img p -> inBounds img q ->
    rgbAt img (keyOf img p * 4) = rgbAt img (keyOf img q * 4).

(** Iterations that always suffice: every pixel is accepted at most once and
    each acceptance pushes four pixels, after the one pushed at the start. *)
Definition fillFuel (img : ImageData.t) : nat :=
  S (4 * Z.to_nat (ImageData.width img * ImageData.height img)).

Definition pixel_eq_dec : forall p q : Z * Z, {p = q} + {p <> q} :=
  fun p q => decide (p = q).
Arguments pixel_eq_dec : simpl never.

(** How many times the colour test ran on pixel [p]. *)
Definition evaluations (evaluated : list (Z * Z)) (p : Z * Z) : nat :=
  count_occ pixel_eq_dec evaluated p.

(** ** Specification vocabulary for the version graph *)

(** The ancestry of a version: the versions met when following [parentOf]
    up to a version without a resolvable parent, listed oldest first. *)
Inductive ancestry (versions : list Version.t) : Version.t -> list Version.t -> Prop :=
| ancestry_top v :
    parentOf versions v = None -> ancestry versions v [v]
| ancestry_child v u h :
    parentOf versions v = Some u -> ancestry versions u h ->
    ancestry versions v (h ++ [v]).

(** What [uuidv4()] guarantees for the identifier [versionId] drawn by
    [addVersion]: it differs from the [parentId] argument and from every
    identifier and parent identifier already in the store. *)
Definition freshId (versionId parentId : string) (st : ProjectState) : Prop :=
  versionId <> parentId /\
  forall p v, project st = Some p -> In v (Project.versions p) ->
    Version.id v <> versionId /\ Version.parentId v <> Some versionId.

(** Stores that the three operations can produce from the initial store. *)
Inductive reachable : ProjectState -> Prop :=
| reachable_initial : reachable initialState
| reachable_createProject st name url projectId versionId now :
    reachable st ->
    reachable (createProject name url projectId versionId now st)
| reachable_setCurrentVersion st versionId now :
    reachable st ->
    reachable (setCurrentVersion versionId now st)
| reachable_addVersion st url prompt mask parentId versionId now :
    reachable st ->
    freshId versionId parentId st ->
    reachable (snd (addVersion url prompt mask parentId versionId now st)).

(** Every version that carries the identifier named by a parent link sits
    strictly before the version holding the link. *)
Definition parentsFirst (versions : list Version.t) : Prop :=
  forall (i j : nat) v w,
    versions !! i = Some v -> versions !! j = Some w ->
    Version.parentId v = Some (Version.id w) -> (j < i)%nat.


(** Stores produced when [addVersion] is only called with the identifier of
    a version of the project, as the callers in the application do
    ([addVersion(..., currentVersion.id)]). *)
Inductive reachableFromExisting : ProjectState -> Prop :=
| existing_initial : reachableFromExisting initialState
| existing_createProject st name url projectId versionId now :
    reachableFromExisting st ->
    reachableFromExisting (createProject name url projectId versionId now st)
| existing_setCurrentVersion st versionId now :
    reachableFromExisting st ->
    reachableFromExisting (setCurrentVersion versionId now st)
| existing_addVersion st url prompt mask parentId versionId now :
    reachableFromExisting st ->
    freshId versionId parentId st ->
    truthy parentId = true ->
    getVersionById parentId st <> None ->
    reachableFromExisting (snd (addVersion url prompt mask parentId versionId now st)).

(** ** Invariants and measures used in the proofs *)

(** Number of loop iterations that [getVersionHistory] is given below: one
    per version of the project. *)
Definition historyFuel (st : ProjectState) : nat :=
  match project st with
  | None => O
  | Some p => length (Project.versions p)
  end.

(** [m] is the running minimum (maximum) of the values satisfying [P],
    started at [init]. *)
Definition lowestOf (init : Z) (P : Z -> Prop) (m : Z) : Prop :=
  (forall v, P v -> (m <= v)%Z) /\ (m <= init)%Z /\ (m = init \/ P m).

Definition highestOf (init : Z) (P : Z -> Prop) (m : Z) : Prop :=
  (forall v, P v -> (v <= m)%Z) /\ (init <= m)%Z /\ (m = init \/ P m).

(** The value [proj] of some accepted pixel. *)
Definition coordOf (img : ImageData.t) (proj : Z * Z -> Z) (V : gset Z) (v : Z) : Prop :=
  exists p, inBounds img p /\ keyOf img p ∈ V /\ proj p = v.

(** 1 when [p] is a pixel of the image whose key is in [V], else 0. *)
Definition visitedAt (img : ImageData.t) (V : gset Z) (p : Z * Z) : nat :=
  if negb (outside img p) && bool_decide (keyOf img p ∈ V) then 1%nat else 0%nat.

(** How often pixel [q] has been pushed when the accepted keys are [V]:
    once if it is the seed, and once by each accepted neighbour. *)
Definition pushes (img : ImageData.t) (seed : Z * Z) (V : gset Z) (q : Z * Z) : nat :=
  (if pixel_eq_dec seed q then 1 else 0) +
  visitedAt img V (q.1 + 1, q.2)%Z + visitedAt img V (q.1 - 1, q.2)%Z +
  visitedAt img V (q.1, q.2 + 1)%Z + visitedAt img V (q.1, q.2 - 1)%Z.

(** The loop invariant: the visited keys are pixels of the component; the
    pending pixels are the seed or neighbours of component pixels; every
    acceptable neighbour of a visited pixel is visited or pending; the mask
    buffer is white exactly at the visited keys; the running bounds are
    those of the visited pixels; and a pixel within tolerance has been
    evaluated once if it is visited and never otherwise; and a pixel has
    been evaluated or is pending at most as often as it has been pushed. *)
Record FillInv (img : ImageData.t) (seed : Z * Z) (tolerance : Z)
    (s : FillState) (evaluated : list (Z * Z)) : Prop := {
  inv_visited : forall k, k ∈ visited s ->
    exists p, inBounds img p /\ keyOf img p = k /\ component img seed tolerance p;
  inv_stack : forall q, q ∈ stack s ->
    q = seed \/ exists p, component img seed tolerance p /\ adjacent p q;
  inv_closed : forall p q, inBounds img p -> keyOf img p ∈ visited s ->
    adjacent p q -> inBounds img q -> withinTolerance img seed tolerance q ->
    keyOf img q ∈ visited s \/ q ∈ stack s;
  inv_seed : withinTolerance img seed tolerance seed ->
    keyOf img seed ∈ visited s \/ seed ∈ stack s;
  inv_length : length (maskData s) =
    Z.to_nat (ImageData.width img * ImageData.height img * 4);
  inv_mask : forall k c,
    (0 <= k < ImageData.width img * ImageData.height img)%Z -> (0 <= c < 4)%Z ->
    readAt (maskData s) (k * 4 + c) =
      Some (if decide (k ∈ visited s) then 255 else 0)%Z;
  inv_evaluated : forall p, inBounds img p -> withinTolerance img seed tolerance p ->
    evaluations evaluated p = if decide (keyOf img p ∈ visited s) then 1%nat else 0%nat;
  inv_pushes : forall q,
    (evaluations evaluated q + count_occ pixel_eq_dec (stack s) q
     <= pushes img seed (visited s) q)%nat;
  inv_minX : lowestOf (ImageData.width img) (coordOf img fst (visited s)) (minX s);
  inv_minY : lowestOf (ImageData.height img) (coordOf img snd (visited s)) (minY s);
  inv_maxX : highestOf 0 (coordOf img fst (visited s)) (maxX s);
  inv_maxY : highestOf 0 (coordOf img snd (visited s)) (maxY s) }.

Definition fillMeasure (img : ImageData.t) (s : FillState) : nat :=
  4 * (Z.to_nat (ImageData.width img * ImageData.height img) - size (visited s))
  + length (stack s).

(** ** Flaws of the store ([addFlaw], [resolveFlaw]) *)

(** [{ ...v, flaws }] *)
Definition withFlaws (v : Version.t) (flaws : list Flaw.t) : Version.t :=
  {| Version.id := Version.id v; Version.imageUrl := Version.imageUrl v;
     Version.parentId := Version.parentId v; Version.prompt := Version.prompt v;
     Version.mask := Version.mask v; Version.flaws := flaws;
     Version.createdAt := Version.createdAt v |}.

(** [{ ...state.project, versions: updatedVersions, updatedAt: new Date() }] *)
Definition withVersions (p : Project.t) (updatedVersions : list Version.t)
    (now : Z) : Project.t :=
  {| Project.id := Project.id p; Project.name := Project.name p;
     Project.versions := updatedVersions;
     Project.currentVersionId := Project.currentVersionId p;
     Project.createdAt := Project.createdAt p; Project.updatedAt := now |}.

(** [{ ...f, resolved: true }] *)
Definition resolved (f : Flaw.t) : Flaw.t :=
  {| Flaw.id := Flaw.id f; Flaw.point := Flaw.point f;
     Flaw.description := Flaw.description f; Flaw.resolved := true;
     Flaw.createdAt := Flaw.createdAt f |}.

(** [addFlaw]; [flawId] is what [uuidv4()] yields, [createdAt] and [now]
    are the two readings of the clock. *)
Definition addFlaw (point : Z * Z) (description flawId : string)
    (createdAt now : Z) (st : ProjectState) : ProjectState :=
  match project st with
  | None => st
  | Some p =>
    let newFlaw :=
      {| Flaw.id := flawId; Flaw.point := point; Flaw.description := description;
         Flaw.resolved := false; Flaw.createdAt := createdAt |} in
    let updatedVersions :=
      List.map (fun v =>
        if String.eqb (Version.id v) (Project.currentVersionId p)
        then withFlaws v (Version.flaws v ++ [newFlaw])
        else v) (Project.versions p) in
    {| project := Some (withVersions p updatedVersions now);
       activeTool := activeTool st; isGenerating := isGenerating st;
       selectedFlawId := Some flawId; currentMask := currentMask st;
       promptText := promptText st; showWizard := showWizard st |}
  end.

Definition resolveFlaw (flawId : string) (now : Z) (st : ProjectState) : ProjectState :=
  match project st with
  | None => st
  | Some p =>
    let updatedVersions :=
      List.map (fun v =>
        if String.eqb (Version.id v) (Project.currentVersionId p)
        then withFlaws v
               (List.map (fun f => if String.eqb (Flaw.id f) flawId then resolved f else f)
                         (Version.flaws v))
        else v) (Project.versions p) in
    {| project := Some (withVersions p updatedVersions now);
       activeTool := activeTool st; isGenerating := isGenerating st;
       selectedFlawId := selectedFlawId st; currentMask := currentMask st;
       promptText := promptText st; showWizard := showWizard st |}
  end.

(** The flaw badge of [VersionHistory.tsx]:
    [version.flaws.filter(f => !f.resolved).length]. *)
Definition unresolvedFlaws (version : Version.t) : nat :=
  length (List.filter (fun f => negb (Flaw.resolved f)) (Version.flaws version)).

(** ** Generation from the toolbar ([handleGenerate] of [Toolbar.tsx]) *)

(** [s.includes(c)] and [s.split(c)] for a one-character separator. *)
Fixpoint includes (sep : ascii) (s : string) : bool :=
  match s with
  | EmptyString => false
  | String c s' => if Ascii.eqb c sep then true else includes sep s'
  end.

Fixpoint split (sep : ascii) (s : string) : list string :=
  match s with
  | EmptyString => [EmptyString]
  | String c s' =>
    if Ascii.eqb c sep then EmptyString :: split sep s'
    else match split sep s' with
         | [] => [String c EmptyString]
         | piece :: pieces => String c piece :: pieces
         end
  end.

(** [imageUrl.includes(',') ? imageUrl.split(',')[1] : imageUrl]; [None]
    stands for [undefined]. *)
Definition extractBase64 (imageUrl : string) : option string :=
  if includes "," imageUrl then split "," imageUrl !! 1%nat else Some imageUrl.

(** The data URL built at upload: [`data:${file.type};base64,${base64}`]. *)
Definition dataUrl (fileType base64 : string) : string :=
  ("data:" ++ fileType ++ ";base64," ++ base64)%string.

Module GenerationRequest.
Record t := mk {
  prompt : string;
  imageBase64 : option string;
  maskBase64 : option (list Z) }.
End GenerationRequest.

Definition setIsGenerating (isGenerating : bool) (st : ProjectState) : ProjectState :=
  {| project := project st; activeTool := activeTool st;
     isGenerating := isGenerating; selectedFlawId := selectedFlawId st;
     currentMask := currentMask st;
     promptText := promptText st; showWizard := showWizard st |}.

(** [handleGenerate] up to its [await]: [None] when it returns at once
    (no current version, or a prompt that is blank after [trim]); otherwise
    the request it sends and the version it read, with the store after
    [setIsGenerating(true)]. [trim] is the platform's
    [String.prototype.trim]. *)
Definition handleGenerateRequest (trim : string -> string) (st : ProjectState)
    : option (GenerationRequest.t * Version.t * ProjectState) :=
  match getCurrentVersion st with
  | None => None
  | Some currentVersion =>
    if truthy (trim (promptText st)) then
      Some ({| GenerationRequest.prompt := promptText st;
               GenerationRequest.imageBase64 :=
                 extractBase64 (Version.imageUrl currentVersion);
               GenerationRequest.maskBase64 := Mask.imageData <$> currentMask st |},
            currentVersion, setIsGenerating true st)
    else None
  end.

(** [handleGenerate] after its [await], run on the store [st] of that
    moment with the values captured before: [inl imageUrl] is the response,
    [inr message] the error thrown. The result is the component's [error]
    and the store. *)
Definition handleGenerateSettle (promptText : string) (currentMask : option Mask.t)
    (currentVersion : Version.t) (outcome : string + string)
    (versionId : string) (now : Z) (st : ProjectState)
    : option string * ProjectState :=
  match outcome with
  | inl imageUrl =>
    (None,
     setIsGenerating false
       (snd (addVersion imageUrl promptText currentMask
               (Version.id currentVersion) versionId now st)))
  | inr message => (Some message, setIsGenerating false st)
  end.

(** ** Compositing ([compositeImages]) *)

(** What a [Uint8ClampedArray] stores when it is assigned [v]: 0 for
    [undefined], and a number clamped to 0..255. *)
Definition toUint8Clamped (v : option Z) : Z :=
  match v with
  | Some n => Z.max 0 (Z.min 255 n)
  | None => 0%Z
  end.

(** The body of the loop of [compositeImages] at [i = key * 4]. *)
Definition compositeStep (maskData genData : list Z) (originalData : list Z)
    (key : Z) : list Z :=
  let i := (key * 4)%Z in
  if isWhite maskData key then
    writeAt
      (writeAt
         (writeAt originalData i (toUint8Clamped (readAt genData i)))
         (i + 1) (toUint8Clamped (readAt genData (i + 1))))
      (i + 2) (toUint8Clamped (readAt genData (i + 2)))
  else originalData.

(** [for (let i = 0; i < maskData.data.length; i += 4)]: the buffer that
    [putImageData] then draws. *)
Definition compositePixels (maskData genData originalData : list Z) : list Z :=
  foldl (compositeStep maskData genData) originalData
    (seqZ 0 ((Z.of_nat (length maskData) + 3) / 4)).

(** The values a [Uint8ClampedArray] can hold. *)
Definition isBytes (data : list Z) : Prop :=
  Forall (fun v => (0 <= v <= 255)%Z) data.

(** ** Invariant of the mask scan *)

(** The values [proj p] of the white pixels [p] among [seen]. *)
Definition whiteCoord (maskCanvas : ImageData.t) (seen : list (Z * Z))
    (proj : Z * Z -> Z) (v : Z) : Prop :=
  exists p, p ∈ seen /\
    isWhite (ImageData.data maskCanvas) (keyOf maskCanvas p) = true /\ proj p = v.

(** What the scan has recorded after the pixels [seen]: whether one of them
    is white, and the running extremes of the white ones. *)
Definition scanned (maskCanvas : ImageData.t) (seen : list (Z * Z)) (s : Scan.t) : Prop :=
  (Scan.hasWhite s = true <->
   exists p, p ∈ seen /\ isWhite (ImageData.data maskCanvas) (keyOf maskCanvas p) = true) /\
  lowestOf (ImageData.width maskCanvas) (whiteCoord maskCanvas seen fst) (Scan.minX s) /\
  lowestOf (ImageData.height maskCanvas) (whiteCoord maskCanvas seen snd) (Scan.minY s) /\
  highestOf 0 (whiteCoord maskCanvas seen fst) (Scan.maxX s) /\
  highestOf 0 (whiteCoord maskCanvas seen snd) (Scan.maxY s).

(** The white pixels of a mask canvas. *)
Definition whitePixel (maskCanvas : ImageData.t) (p : Z * Z) : Prop :=
  inBounds maskCanvas p /\
  isWhite (ImageData.data maskCanvas) (keyOf maskCanvas p) = true.

(** ** The project page ([ProjectEditorPage]) *)

Module PageVersion.
Record t := mk {
  id : Z; imageUrl : string; prompt : string; timestamp : Z;
  dbId : option string }.
End PageVersion.

Module ReferenceImage.
Record t := mk { id : string; url : string; base64 : option string; name : string }.
End ReferenceImage.

Module User.
Record t := mk {
  id : string; clerk_id : string; email : string;
  credits : Z; total_renders : Z; created_at : string }.
End User.

Inductive RenderMode := plan_to_render | pretty_render.

Module Page.
(** The state of the component that the handlers below read or write;
    [projectLoaded] tells whether [project] is set (its fields only go to
    the database calls). *)
Record t := mk {
  dbUser : option User.t;
  projectLoaded : bool;
  originalImage : option string;
  versions : list PageVersion.t;
  currentVersionIndex : Z;
  isLoading : bool;
  error : option string;
  isSaving : bool;
  referenceImages : list ReferenceImage.t;
  renderMode : RenderMode }.
End Page.

Module EditRequest.
Record t := mk {
  imageBase64 : option string;
  prompt : string;
  referenceImages : list (option string);
  renderMode : RenderMode }.
End EditRequest.

(** [Array.prototype.slice(start, stop)]: a negative index counts from the
    end, and both are clamped to the array. *)
Definition relativeIndex (len i : Z) : Z :=
  if (i <? 0)%Z then Z.max (len + i) 0 else Z.min i len.

Definition slice {A} (l : list A) (start stop : Z) : list A :=
  let len := Z.of_nat (length l) in
  let k := relativeIndex len start in
  take (Z.to_nat (relativeIndex len stop - k)) (drop (Z.to_nat k) l).

(** [currentVersionIndex >= 0 ? versions[currentVersionIndex]?.imageUrl
    : originalImage] *)
Definition currentImage (st : Page.t) : option string :=
  if (0 <=? Page.currentVersionIndex st)%Z
  then PageVersion.imageUrl <$>
         (Page.versions st !! Z.to_nat (Page.currentVersionIndex st))
  else Page.originalImage st.

(** [a || b] on strings that may be [null] or [undefined]. *)
Definition orElse (a b : option string) : option string :=
  match a with
  | Some s => if truthy s then a else b
  | None => b
  end.

Definition setError (error : option string) (st : Page.t) : Page.t :=
  {| Page.dbUser := Page.dbUser st; Page.projectLoaded := Page.projectLoaded st;
     Page.originalImage := Page.originalImage st; Page.versions := Page.versions st;
     Page.currentVersionIndex := Page.currentVersionIndex st;
     Page.isLoading := Page.isLoading st; Page.error := error;
     Page.isSaving := Page.isSaving st;
     Page.referenceImages := Page.referenceImages st;
     Page.renderMode := Page.renderMode st |}.

Definition setIsLoading (isLoading : bool) (st : Page.t) : Page.t :=
  {| Page.dbUser := Page.dbUser st; Page.projectLoaded := Page.projectLoaded st;
     Page.originalImage := Page.originalImage st; Page.versions := Page.versions st;
     Page.currentVersionIndex := Page.currentVersionIndex st;
     Page.isLoading := isLoading; Page.error := Page.error st;
     Page.isSaving := Page.isSaving st;
     Page.referenceImages := Page.referenceImages st;
     Page.renderMode := Page.renderMode st |}.

(** [handleChatGenerate] up to its first [await]: [None] when it returns
    [null] at once (no source image, no user, or no credits); otherwise the
    body of the request it sends and the user it read. With the state
    after the synchronous updates. *)
Definition handleChatGenerateStart (prompt : string) (st : Page.t)
    : option (EditRequest.t * User.t) * Page.t :=
  match orElse (currentImage st) (Page.originalImage st), Page.dbUser st with
  | Some sourceImage, Some dbUser =>
    if negb (truthy sourceImage) then (None, st)
    else if (User.credits dbUser <=? 0)%Z then
      (None, setError (Some "Out of credits! Contact Noah for more.") st)
    else
      (Some ({| EditRequest.imageBase64 := split "," sourceImage !! 1%nat;
                EditRequest.prompt := prompt;
                EditRequest.referenceImages :=
                  List.map ReferenceImage.base64 (Page.referenceImages st);
                EditRequest.renderMode := Page.renderMode st |}, dbUser),
       setError None (setIsLoading true st))
  | _, _ => (None, st)
  end.

(** [{ ...dbUser, credits: dbUser.credits - 1 }] *)
Definition deductCredit (dbUser : User.t) : User.t :=
  {| User.id := User.id dbUser; User.clerk_id := User.clerk_id dbUser;
     User.email := User.email dbUser; User.credits := User.credits dbUser - 1;
     User.total_renders := User.total_renders dbUser;
     User.created_at := User.created_at dbUser |}.

(** The version list and index that [handleChatGenerate] sets after a
    render, from the list and index it captured. *)
Definition appendRender (versions : list PageVersion.t) (currentVersionIndex : Z)
    (newVersion : PageVersion.t) : list PageVersion.t * Z :=
  let newVersions :=
    if (Z.of_nat (length versions) =? 0)%Z then [newVersion]
    else slice versions 0 (currentVersionIndex + 1) ++ [newVersion] in
  (newVersions, Z.of_nat (length newVersions) - 1)%Z.

(** [handleChatGenerate] after its [await]s. [captured] is the state the
    callback was created with, [dbUser] the user it read, [st] the state at
    that moment. [inl imageUrl] is the answer when every call succeeded,
    [inr message] the error thrown by the request. The result is the value
    returned and the new state. *)
Definition handleChatGenerateSettle (captured : Page.t) (dbUser : User.t)
    (prompt : string) (outcome : string + string) (now : Z) (st : Page.t)
    : option string * Page.t :=
  match outcome with
  | inl imageUrl =>
    let newVersion :=
      {| PageVersion.id := Z.of_nat (length (Page.versions captured)) + 1;
         PageVersion.imageUrl := imageUrl; PageVersion.prompt := prompt;
         PageVersion.timestamp := now; PageVersion.dbId := None |} in
    let new :=
      appendRender (Page.versions captured) (Page.currentVersionIndex captured)
        newVersion in
    (Some imageUrl,
     {| Page.dbUser :=
          if Page.projectLoaded captured then Some (deductCredit dbUser)
          else Page.dbUser st;
        Page.projectLoaded := Page.projectLoaded st;
        Page.originalImage := Page.originalImage st;
        Page.versions := fst new;
        Page.currentVersionIndex := snd new;
        Page.isLoading := false; Page.error := Page.error st;
        Page.isSaving :=
          if Page.projectLoaded captured then false else Page.isSaving st;
        Page.referenceImages := Page.referenceImages st;
        Page.renderMode := Page.renderMode st |})
  | inr message => (None, setIsLoading false (setError (Some message) st))
  end.

(** [setReferenceImages(prev => [...prev, newRef].slice(0, 5))], the update
    that each [reader.onload] of [handleReferenceUpload] makes. *)
Definition addReference (prev : list ReferenceImage.t) (newRef : ReferenceImage.t)
    : list ReferenceImage.t :=
  slice (prev ++ [newRef]) 0 5.

(** [Array.from(files).slice(0, remaining)] with
    [remaining = 5 - referenceImages.length]. *)
Definition filesToProcess {F} (files : list F) (referenceImages : list ReferenceImage.t)
    : list F :=
  slice files 0 (5 - Z.of_nat (length referenceImages)).

(** [prev.filter(img => img.id !== id)] *)
Definition removeReferenceImage (id : string) (prev : list ReferenceImage.t)
    : list ReferenceImage.t :=
  List.filter (fun img => negb (String.eqb (ReferenceImage.id img) id)) prev.

(** The page invariant on the version index: it is -1 (the original is
    shown) or the position of a version. *)
Definition indexInRange (st : Page.t) : Prop :=
  (-1 <= Page.currentVersionIndex st < Z.of_nat (length (Page.versions st)))%Z.

(** Versions numbered by position: the label [v{version.id}] of the
    version at position [j] is [j + 1]. *)
Definition numbered (versions : list PageVersion.t) : Prop :=
  forall (j : nat) v, versions !! j = Some v -> PageVersion.id v = (Z.of_nat j + 1)%Z.

(** ** Clearing the brush mask ([clearMask]) *)

(** The canvas after [fillStyle = 'black'; fillRect(0, 0, width, height)]:
    every pixel opaque black. *)
Definition fillBlack (maskCanvas : ImageData.t) : ImageData.t :=
  {| ImageData.width := ImageData.width maskCanvas;
     ImageData.height := ImageData.height maskCanvas;
     ImageData.data :=
       mjoin (replicate
                (Z.to_nat (ImageData.width maskCanvas * ImageData.height maskCanvas))
                [0; 0; 0; 255]%Z) |}.

(** [clearMask] of [BrushMaskCanvas.tsx] and of [ImageCanvas.tsx]: the new
    mask canvas and the new store. *)
Definition clearMask (maskCanvas : ImageData.t) (st : ProjectState)
    : ImageData.t * ProjectState :=
  (fillBlack maskCanvas, setCurrentMask None st).

(** ** Stores produced through the user interface *)

(** The stores that the components can produce: an upload creates the
    project ([handleFileUpload]); the history panel selects a version of the
    project ([VersionHistory.tsx]); a generation settles while the version
    it was requested from is still in the project ([handleGenerate], and
    the wizards alike); flaws are marked and resolved; the mask and the
    generating flag are set. [uuidv4()] yields non-empty, fresh
    identifiers. *)
Inductive reachableFromUI : ProjectState -> Prop :=
| ui_initial : reachableFromUI initialState
| ui_createProject st name url projectId versionId now :
    reachableFromUI st -> truthy versionId = true ->
    reachableFromUI (createProject name url projectId versionId now st)
| ui_setCurrentVersion st p v now :
    reachableFromUI st -> project st = Some p -> In v (Project.versions p) ->
    reachableFromUI (setCurrentVersion (Version.id v) now st)
| ui_handleGenerate st prompt mask c outcome versionId now :
    reachableFromUI st ->
    getVersionById (Version.id c) st = Some c ->
    freshId versionId (Version.id c) st -> truthy versionId = true ->
    reachableFromUI (snd (handleGenerateSettle prompt mask c outcome versionId now st))
| ui_addFlaw st point description flawId createdAt now :
    reachableFromUI st ->
    reachableFromUI (addFlaw point description flawId createdAt now st)
| ui_resolveFlaw st flawId now :
    reachableFromUI st -> reachableFromUI (resolveFlaw flawId now st)
| ui_setCurrentMask st mask :
    reachableFromUI st -> reachableFromUI (setCurrentMask mask st)
| ui_setIsGenerating st isGenerating :
    reachableFromUI st -> reachableFromUI (setIsGenerating isGenerating st).

(** The shape of the version list of such a store: it starts with a root;
    identifiers are non-empty and distinct; every later version names an
    earlier one as its parent; and the current pointer names a version. *)
Definition rooted (versions : list Version.t) (currentVersionId : string) : Prop :=
  (exists root, versions !! 0%nat = Some root /\ Version.parentId root = None) /\
  (forall (i : nat) v, versions !! i = Some v -> truthy (Version.id v) = true) /\
  (forall (i j : nat) v w, versions !! i = Some v -> versions !! j = Some w ->
     Version.id v = Version.id w -> i = j) /\
  (forall (i : nat) v, versions !! S i = Some v ->
     exists (j : nat) w, (j <= i)%nat /\ versions !! j = Some w /\
       Version.parentId v = Some (Version.id w)) /\
  (exists (i : nat) c, versions !! i = Some c /\ Version.id c = currentVersionId).

(** ** Sample data *)

(** A store with a root and one edit, as produced by an upload followed by
    one generation. *)
Definition sampleStore : ProjectState :=
  snd (addVersion "img-a" "make it blue" None "r" "a" 2
         (createProject "demo" "img-r" "p" "r" 1 initialState)).

(** The store right after the upload of [sampleStore]: one root version. *)
Definition rootStore : ProjectState :=
  createProject "demo" "img-r" "p" "r" 1 initialState.


Definition rootVersion : Version.t :=
  {| Version.id := "r"; Version.imageUrl := "img-r"; Version.parentId := None;
     Version.prompt := "Original upload"; Version.mask := None;
     Version.flaws := []; Version.createdAt := 1 |}.

(** A 2 x 2 image: three pixels of one colour and the pixel (1, 1) of
    another. *)
Definition tiny : ImageData.t :=
  {| ImageData.width := 2; ImageData.height := 2;
     ImageData.data := [10; 10; 10; 255;  10; 10; 10; 255;
                        10; 10; 10; 255;  200; 200; 200; 255]%Z |}.

(** A 10 x 10 image of one colour with a single pixel of another colour at
    (5, 5). *)
Definition dot10 : ImageData.t :=
  {| ImageData.width := 10; ImageData.height := 10;
     ImageData.data :=
       mjoin (replicate 55 [10; 10; 10; 255]%Z) ++ [200; 200; 200; 255]%Z ++
       mjoin (replicate 44 [10; 10; 10; 255]%Z) |}.

(** A 2 x 2 mask canvas filled with opaque black, and a mask left in the
    store by an earlier selection. *)
Definition blackCanvas : ImageData.t :=
  {| ImageData.width := 2; ImageData.height := 2;
     ImageData.data := mjoin (replicate 4 [0; 0; 0; 255]%Z) |}.

Definition staleMask : Mask.t :=
  {| Mask.id := "m1"; Mask.imageData := [255; 255; 255; 255]%Z;
     Mask.bounds := {| Bounds.x := 0; Bounds.y := 0;
                       Bounds.width := 0; Bounds.height := 0 |} |}.

(** A user with three credits, and a page with two renders on which the
    first one is shown. *)
Definition sampleUser : User.t :=
  {| User.id := "u"; User.clerk_id := "c"; User.email := "e";
     User.credits := 3; User.total_renders := 2; User.created_at := "t" |}.

Definition samplePage : Page.t :=
  {| Page.dbUser := Some sampleUser; Page.projectLoaded := true;
     Page.originalImage := Some "data:image/png;base64,AAAA";
     Page.versions :=
       [ {| PageVersion.id := 1; PageVersion.imageUrl := "data:image/png;base64,BBBB";
            PageVersion.prompt := "p1"; PageVersion.timestamp := 1;
            PageVersion.dbId := None |};
         {| PageVersion.id := 2; PageVersion.imageUrl := "data:image/png;base64,CCCC";
            PageVersion.prompt := "p2"; PageVersion.timestamp := 2;
            PageVersion.dbId := None |} ];
     Page.currentVersionIndex := 0;
     Page.isLoading := false; Page.error := None; Page.isSaving := false;
     Page.referenceImages := []; Page.renderMode := plan_to_render |}.

(** The page before any render. *)
Definition freshPage : Page.t :=
  {| Page.dbUser := Some sampleUser; Page.projectLoaded := true;
     Page.originalImage := Some "data:image/png;base64,AAAA";
     Page.versions := []; Page.currentVersionIndex := -1;
     Page.isLoading := false; Page.error := None; Page.isSaving := false;
     Page.referenceImages := []; Page.renderMode := plan_to_render |}.

(** * Properties of the version graph *)

Lemma findVersion_Some versions id v :
  findVersion versions id = Some v ->
  Version.id v = id /\ exists j : nat, versions !! j = Some v.
Proof.
  unfold findVersion. intros H. apply find_some in H as [Hin Heq].
  apply String.eqb_eq in Heq. split; [done|].
  apply list_elem_of_In, list_elem_of_lookup in Hin. done.
Qed.

Lemma findVersion_app_l versions extra id v :
  findVersion versions id = Some v ->
  findVersion (versions ++ extra) id = Some v.
Proof.
  unfold findVersion. induction versions as [|a l IH]; simpl; [done|].
  destruct (String.eqb (Version.id a) id); auto.
Qed.

Lemma parentOf_Some versions v u :
  parentOf versions v = Some u ->
  Version.parentId v = Some (Version.id u) /\ exists j : nat, versions !! j = Some u.
Proof.
  unfold parentOf. destruct (Version.parentId v) as [pid|]; [|done].
  destruct (truthy pid); [|done].
  intros H. apply findVersion_Some in H as [<- Hj]. done.
Qed.

(** With parents first, the walk from the version at index [i] ends within
    [i + 1] iterations and yields the ancestry of that version. *)
Lemma walkHistory_parentsFirst versions :
  parentsFirst versions ->
  forall (i : nat) v history (fuel : nat),
    versions !! i = Some v -> (i < fuel)%nat ->
    exists h, ancestry versions v h /\
      walkHistory fuel versions (Some v) history = Some (h ++ history).
Proof.
  intros Hpf i. induction i as [i IH] using lt_wf_ind.
  intros v history fuel Hi Hfuel.
  destruct fuel as [|fuel]; [lia|]. simpl.
  destruct (parentOf versions v) as [u|] eqn:Hp.
  - destruct (parentOf_Some _ _ _ Hp) as [Hlink [j Hj]].
    assert (j < i)%nat as Hlt by (eapply Hpf; eauto).
    destruct (IH j Hlt u (v :: history) fuel Hj ltac:(lia)) as [h [Ha Hw]].
    exists (h ++ [v]). split; [by eapply ancestry_child|].
    rewrite Hw. by rewrite <- app_assoc.
  - exists [v]. split; [by apply ancestry_top|]. by destruct fuel.
Qed.



Lemma reachableFromExisting_reachable st :
  reachableFromExisting st -> reachable st.
Proof. induction 1; by constructor. Qed.



(** An ancestry starts at a version without resolvable parent and ends at
    the version it was asked for. *)
Lemma ancestry_ends versions v h :
  ancestry versions v h -> In v versions ->
  exists top rest,
    h = top :: rest /\ In top versions /\ parentOf versions top = None /\
    last h = Some v.
Proof.
  induction 1 as [v Hv|v u h Hu Hh IH]; intros Hin.
  - exists v, []. done.
  - destruct (parentOf_Some _ _ _ Hu) as [_ [j Hj]].
    destruct IH as (top & rest & -> & Htop & Hnone & _).
    { apply list_elem_of_In. by eapply list_elem_of_lookup_2. }
    exists top, (rest ++ [v]). split; [done|]. split; [done|]. split; [done|].
    exact (last_snoc v (top :: rest)).
Qed.








(** C5. From a project holding only a root [R], two calls of [addVersion]
    with [R]'s identifier as parent keep [R], [A] and [B] in the version
    list; the history is [[R; A]] when [A] is current and [[R; B]] when [B]
    is current; and [R] is still the record it was. *)
Theorem fork_keeps_both_branches
    (R : Version.t) (p : Project.t) (st : ProjectState)
    (urlA promptA urlB promptB a b : string) (maskA maskB : option Mask.t)
    (nowA nowB : Z) :
  project st = Some p ->
  Project.versions p = [R] ->
  Version.parentId R = None ->
  truthy (Version.id R) = true ->
  a <> Version.id R -> b <> Version.id R -> a <> b ->
  let rA := addVersion urlA promptA maskA (Version.id R) a nowA st in
  let rB := addVersion urlB promptB maskB (Version.id R) b nowB (snd rA) in
  let A := fst rA in
  let B := fst rB in
  (exists p2, project (snd rB) = Some p2 /\ Project.versions p2 = [R; A; B]) /\
  getVersionById (Version.id R) (snd rB) = Some R /\
  getVersionById (Version.id A) (snd rB) = Some A /\
  getVersionById (Version.id B) (snd rB) = Some B /\
  (forall fuel, (2 <= fuel)%nat ->
     getVersionHistory fuel (snd rA) = Some [R; A]) /\
  (forall fuel, (2 <= fuel)%nat ->
     getVersionHistory fuel (snd rB) = Some [R; B]) /\
  (forall fuel now, (2 <= fuel)%nat ->
     getVersionHistory fuel (setCurrentVersion (Version.id A) now (snd rB))
       = Some [R; A]).
Proof.
  intros Hp Hv Hroot Htruthy HaR HbR Hab. simpl.
  unfold getVersionById, getVersionHistory, getCurrentVersion, setCurrentVersion.
  simpl. rewrite Hp. simpl. rewrite Hv. simpl.
  unfold findVersion. simpl.
  pose proof (String.eqb_refl (Version.id R)) as ERR.
  pose proof (String.eqb_refl a) as Eaa.
  pose proof (String.eqb_refl b) as Ebb.
  pose proof HaR as ERa. apply not_eq_sym, String.eqb_neq in ERa.
  pose proof HbR as ERb. apply not_eq_sym, String.eqb_neq in ERb.
  pose proof Hab as Eab. apply String.eqb_neq in Eab.
  rewrite ERR, Eaa, Ebb, ERa, ERb, Eab.
  assert (forall versions, parentOf versions R = None) as HpR.
  { intros versions. unfold parentOf. by rewrite Hroot. }
  repeat split; eauto.
  - intros [|[|fuel]] Hf; try lia. simpl.
    unfold parentOf at 1, findVersion. simpl. rewrite Htruthy, ERR, HpR.
    by destruct fuel.
  - intros [|[|fuel]] Hf; try lia. simpl.
    unfold parentOf at 1, findVersion. simpl. rewrite Htruthy, ERR, HpR.
    by destruct fuel.
  - intros [|[|fuel]] now Hf; try lia. simpl.
    unfold parentOf at 1, findVersion. simpl. rewrite Htruthy, ERR, HpR.
    by destruct fuel.
Qed.

Lemma fork_keeps_both_branches_witness :
  getVersionHistory 2
    (setCurrentVersion "a" 4
       (snd (addVersion "img-b" "make it red" None "r" "b" 3
          (snd (addVersion "img-a" "make it blue" None "r" "a" 2 rootStore)))))
  = Some [rootVersion;
          fst (addVersion "img-a" "make it blue" None "r" "a" 2 rootStore)].
Proof.
  refine (proj2 (proj2 (proj2 (proj2 (proj2 (proj2
    (fork_keeps_both_branches rootVersion
       {| Project.id := "p"; Project.name := "demo";
          Project.versions := [rootVersion];
          Project.currentVersionId := "r";
          Project.createdAt := 1; Project.updatedAt := 1 |}
       rootStore "img-a" "make it blue" "img-b" "make it red" "a" "b"
       None None 2%Z 3%Z eq_refl eq_refl eq_refl eq_refl _ _ _)))))) 2%nat 4%Z _);
    [discriminate | discriminate | discriminate | lia].
Defined.

(** C1, as stated, fails: with a [parentId] that names no version of the
    project, [addVersion] still inserts a version and moves the current
    pointer. *)
Lemma addVersion_unknown_parent_inserts :
  getVersionById "ghost" rootStore = None /\
  (exists p, project (snd (addVersion "img" "edit" None "ghost" "n" 2 rootStore)) = Some p /\
     length (Project.versions p) = 2%nat /\
     Project.currentVersionId p = "n") /\
  getVersionById "n" (snd (addVersion "img" "edit" None "ghost" "n" 2 rootStore))
    = Some (fst (addVersion "img" "edit" None "ghost" "n" 2 rootStore)).
Proof.
  split; [reflexivity|]. split; [|reflexivity].
  eexists. split; [reflexivity|]. split; reflexivity.
Qed.

(** C1, amended. [addVersion] does not look [parentId] up: for a [parentId]
    that names no version of the project it returns the new version, whose
    parent link is that dangling identifier, appends it to the version list
    (the versions already there are kept as they are, in order) and makes it
    current. *)
Theorem addVersion_unknown_parent_appends
    (st : ProjectState) (p : Project.t)
    (imageUrl prompt parentId versionId : string) (mask : option Mask.t) (now : Z) :
  project st = Some p ->
  getVersionById parentId st = None ->
  let r := addVersion imageUrl prompt mask parentId versionId now st in
  Version.id (fst r) = versionId /\
  Version.parentId (fst r) = Some parentId /\
  exists p', project (snd r) = Some p' /\
    Project.versions p' = Project.versions p ++ [fst r] /\
    Project.currentVersionId p' = versionId.
Proof.
  intros Hp _. simpl. rewrite Hp. repeat split. eexists. repeat split.
Qed.

Lemma addVersion_unknown_parent_appends_witness :
  exists p', project (snd (addVersion "img" "edit" None "ghost" "n" 2 rootStore)) = Some p' /\
    Project.versions p' =
      [rootVersion; fst (addVersion "img" "edit" None "ghost" "n" 2 rootStore)] /\
    Project.currentVersionId p' = "n".
Proof.
  exact (proj2 (proj2 (addVersion_unknown_parent_appends rootStore
    {| Project.id := "p"; Project.name := "demo";
       Project.versions := [rootVersion];
       Project.currentVersionId := "r";
       Project.createdAt := 1; Project.updatedAt := 1 |}
    "img" "edit" "ghost" "n" None 2%Z eq_refl eq_refl))).
Defined.

(** * Properties of the region growing *)

Lemma keyOf_range img p :
  inBounds img p ->
  (0 <= keyOf img p < ImageData.width img * ImageData.height img)%Z.
Proof. unfold inBounds, keyOf. destruct p as [px py]; simpl. nia. Qed.

Lemma keyOf_inj img p q :
  inBounds img p -> inBounds img q -> keyOf img p = keyOf img q -> p = q.
Proof.
  unfold inBounds, keyOf. destruct p as [px py], q as [qx qy]; simpl.
  intros Hp Hq Hk. assert (py = qy) by nia. subst. f_equal. lia.
Qed.

Lemma outside_false img p : outside img p = false <-> inBounds img p.
Proof.
  unfold outside, inBounds. rewrite !orb_false_iff.
  rewrite !Z.ltb_ge, !Z.leb_gt. tauto.
Qed.

Lemma readAt_Some data i :
  (0 <= i < Z.of_nat (length data))%Z -> exists v, readAt data i = Some v.
Proof.
  intros Hi. unfold readAt. destruct (Z.ltb_spec i 0); [lia|].
  destruct (lookup_lt_is_Some_2 data (Z.to_nat i)) as [v Hv]; [lia|eauto].
Qed.

Lemma length_writeAt data i v : length (writeAt data i v) = length data.
Proof. unfold writeAt. destruct (i <? 0)%Z; [done|apply length_insert]. Qed.

Lemma readAt_writeAt_eq data i v :
  (0 <= i < Z.of_nat (length data))%Z -> readAt (writeAt data i v) i = Some v.
Proof.
  intros Hi. unfold readAt, writeAt. destruct (Z.ltb_spec i 0); [lia|].
  apply list_lookup_insert_eq. lia.
Qed.

Lemma readAt_writeAt_ne data i j v :
  i <> j -> readAt (writeAt data i v) j = readAt data j.
Proof.
  intros Hij. unfold readAt, writeAt.
  destruct (Z.ltb_spec j 0); [done|]. destruct (Z.ltb_spec i 0); [done|].
  apply list_lookup_insert_ne. lia.
Qed.

Lemma length_paintWhite data i : length (paintWhite data i) = length data.
Proof. unfold paintWhite. by rewrite !length_writeAt. Qed.

Lemma readAt_paintWhite data i j :
  (0 <= i)%Z -> (i + 3 < Z.of_nat (length data))%Z ->
  readAt (paintWhite data i) j =
    if decide (i <= j < i + 4)%Z then Some 255%Z else readAt data j.
Proof.
  intros Hi Hlen. unfold paintWhite. case_decide as Hj.
  - assert (j = i \/ j = i + 1 \/ j = i + 2 \/ j = i + 3)%Z as Hcs by lia.
    destruct Hcs as [-> | [-> | [-> | ->]]].
    + rewrite !readAt_writeAt_ne by lia. apply readAt_writeAt_eq. lia.
    + rewrite !readAt_writeAt_ne by lia.
      apply readAt_writeAt_eq. rewrite !length_writeAt. lia.
    + rewrite !readAt_writeAt_ne by lia.
      apply readAt_writeAt_eq. rewrite !length_writeAt. lia.
    + apply readAt_writeAt_eq. rewrite !length_writeAt. lia.
  - rewrite !readAt_writeAt_ne by lia. done.
Qed.

Lemma rgbAt_inBounds img p :
  wellFormed img -> inBounds img p ->
  exists r g b, rgbAt img (keyOf img p * 4) = (Some r, Some g, Some b).
Proof.
  intros Hwf Hp. pose proof (keyOf_range img p Hp) as Hk.
  unfold wellFormed in Hwf. unfold rgbAt.
  destruct (readAt_Some (ImageData.data img) (keyOf img p * 4)) as [r ->]; [lia|].
  destruct (readAt_Some (ImageData.data img) (keyOf img p * 4 + 1)) as [g ->]; [lia|].
  destruct (readAt_Some (ImageData.data img) (keyOf img p * 4 + 2)) as [b ->]; [lia|].
  eauto.
Qed.

(** On a well-formed buffer the test of the loop is the test of the
    specification. *)
Lemma accepts_iff img seed tolerance p :
  wellFormed img -> inBounds img seed -> inBounds img p ->
  exceeds (colourDiff (rgbAt img (keyOf img p * 4)) (rgbAt img (keyOf img seed * 4)))
          (tolerance * 3) = false
  <-> withinTolerance img seed tolerance p.
Proof.
  intros Hwf Hs Hp. unfold withinTolerance.
  destruct (rgbAt_inBounds img p Hwf Hp) as (r & g & b & ->).
  destruct (rgbAt_inBounds img seed Hwf Hs) as (sr & sg & sb & ->).
  simpl. rewrite Z.ltb_ge. split.
  - intros Hle. exists r, g, b, sr, sg, sb. done.
  - intros (r' & g' & b' & sr' & sg' & sb' & E1 & E2 & Hle).
    injection E1 as -> -> ->. injection E2 as -> -> ->. done.
Qed.

Lemma pop_fair : fairDiscipline pop.
Proof.
  split; unfold pop; intros l.
  - destruct (rev l) eqn:E; [|done]. intros _.
    apply (f_equal (@rev _)) in E. by rewrite rev_involutive in E.
  - intros p rest. destruct (rev l) as [|top r] eqn:E; [done|].
    intros [= <- <-]. apply (f_equal (@rev _)) in E.
    rewrite rev_involutive in E. subst l. simpl.
    by rewrite Permutation_app_comm.
Qed.

Lemma shift_fair : fairDiscipline shift.
Proof.
  split; unfold shift; intros l.
  - by destruct l.
  - intros p rest. destruct l; [done|]. by intros [= <- <-].
Qed.

Lemma elem_of_insert_key (k : Z) (V : gset Z) : k ∈ ({[k]} ∪ V : gset Z).
Proof. set_solver. Qed.

Lemma elem_of_insert_old (k j : Z) (V : gset Z) : j ∈ V -> j ∈ ({[k]} ∪ V : gset Z).
Proof. set_solver. Qed.

Lemma not_elem_of_insert (k j : Z) (V : gset Z) :
  j <> k -> j ∉ V -> j ∉ ({[k]} ∪ V : gset Z).
Proof.
  intros Hne Hj Hin. apply elem_of_union in Hin as [Hin|Hin]; [|done].
  by apply elem_of_singleton in Hin.
Qed.

Lemma gset_size_bounded (X : gset Z) (n : Z) :
  (forall k, k ∈ X -> (0 <= k < n)%Z) -> (size X <= Z.to_nat n)%nat.
Proof.
  intros HX.
  assert (X ⊆ list_to_set (seqZ 0 n)) as Hsub.
  { intros k Hk. apply elem_of_list_to_set, elem_of_seqZ. specialize (HX k Hk). lia. }
  apply subseteq_size in Hsub.
  rewrite size_list_to_set in Hsub by apply NoDup_seqZ.
  by rewrite length_seqZ in Hsub.
Qed.

Lemma lowestOf_unique init P m1 m2 :
  lowestOf init P m1 -> lowestOf init P m2 -> m1 = m2.
Proof.
  intros (L1 & I1 & [E1|P1]) (L2 & I2 & [E2|P2]); subst; try done.
  - specialize (L1 _ P2). lia.
  - specialize (L2 _ P1). lia.
  - specialize (L1 _ P2). specialize (L2 _ P1). lia.
Qed.

Lemma highestOf_unique init P m1 m2 :
  highestOf init P m1 -> highestOf init P m2 -> m1 = m2.
Proof.
  intros (L1 & I1 & [E1|P1]) (L2 & I2 & [E2|P2]); subst; try done.
  - specialize (L1 _ P2). lia.
  - specialize (L2 _ P1). lia.
  - specialize (L1 _ P2). specialize (L2 _ P1). lia.
Qed.

Section FloodFill.

Context (take : Discipline) (Htake : fairDiscipline take).
Context (img : ImageData.t) (Hwf : wellFormed img).
Context (seed : Z * Z) (Hseed : inBounds img seed) (tolerance : Z).

Lemma fillStart_inv : FillInv img seed tolerance (fillStart img seed.1 seed.2) [].
Proof.
  assert ((seed.1, seed.2) = seed) as Hpair by (symmetry; apply surjective_pairing).
  constructor; simpl; rewrite ?Hpair.
  - set_solver.
  - intros q Hq. apply list_elem_of_singleton in Hq. by left.
  - set_solver.
  - intros _. right. by apply list_elem_of_singleton.
  - by rewrite length_replicate.
  - intros k c Hk Hc. unfold readAt.
    destruct (Z.ltb_spec (k * 4 + c) 0); [lia|].
    rewrite lookup_replicate_2 by lia. done.
  - done.
  - intros q. unfold evaluations, pushes. simpl.
    destruct (pixel_eq_dec seed q); lia.
  - split; [intros v (p & _ & Hp & _); set_solver|]. split; [lia|by left].
  - split; [intros v (p & _ & Hp & _); set_solver|]. split; [lia|by left].
  - split; [intros v (p & _ & Hp & _); set_solver|]. split; [lia|by left].
  - split; [intros v (p & _ & Hp & _); set_solver|]. split; [lia|by left].
Qed.

(** An iteration that only drops the pixel it took. *)
Lemma skip_preserves s evaluated evaluated' p rest :
  FillInv img seed tolerance s evaluated ->
  stack s ≡ₚ p :: rest ->
  (inBounds img p -> withinTolerance img seed tolerance p ->
   keyOf img p ∈ visited s) ->
  (forall q, inBounds img q -> withinTolerance img seed tolerance q ->
     evaluations evaluated' q = evaluations evaluated q) ->
  (forall q, (evaluations evaluated' q
              <= evaluations evaluated q + if pixel_eq_dec p q then 1 else 0)%nat) ->
  FillInv img seed tolerance {| stack := rest; visited := visited s; maskData := maskData s;
             minX := minX s; minY := minY s; maxX := maxX s; maxY := maxY s |}
          evaluated'.
Proof.
  intros [] Hperm Hp Hev Hev'.
  assert (forall q, q ∈ stack s <-> q = p \/ q ∈ rest) as Hin.
  { intros q. rewrite Hperm. apply elem_of_cons. }
  constructor; simpl; try done.
  - intros q Hq. apply inv_stack0, Hin. by right.
  - intros a q Ha Hk Hadj Hq Hw.
    destruct (inv_closed0 a q Ha Hk Hadj Hq Hw) as [?|Hs]; [by left|].
    apply Hin in Hs as [->|?]; [left; auto|by right].
  - intros Hw. destruct (inv_seed0 Hw) as [?|Hs]; [by left|].
    apply Hin in Hs as [<-|?]; [left; auto|by right].
  - intros q Hq Hw. rewrite Hev by done. auto.
  - intros q. specialize (inv_pushes0 q). specialize (Hev' q).
    rewrite (proj1 (Permutation_count_occ pixel_eq_dec _ _) Hperm q) in inv_pushes0.
    simpl in inv_pushes0. destruct (pixel_eq_dec p q); lia.
Qed.

Lemma coordOf_insert proj (V : gset Z) p v :
  inBounds img p ->
  coordOf img proj ({[keyOf img p]} ∪ V) v <-> proj p = v \/ coordOf img proj V v.
Proof.
  intros Hp. unfold coordOf. split.
  - intros (a & Ha & Hk & Hv). apply elem_of_union in Hk as [Hk|Hk].
    + apply elem_of_singleton in Hk. apply keyOf_inj in Hk; [|done..].
      subst. by left.
    + right. eauto.
  - intros [Hv|(a & Ha & Hk & Hv)].
    + exists p. split; [done|]. split; [set_solver|done].
    + exists a. split; [done|]. split; [set_solver|done].
Qed.

Lemma lowestOf_insert proj init (V : gset Z) m p :
  inBounds img p ->
  lowestOf init (coordOf img proj V) m ->
  lowestOf init (coordOf img proj ({[keyOf img p]} ∪ V)) (Z.min m (proj p)).
Proof.
  intros Hp (Hle & Hinit & Hat). split; [|split].
  - intros v Hv. apply coordOf_insert in Hv; [|done].
    destruct Hv as [<-|Hv]; [lia|]. specialize (Hle v Hv). lia.
  - lia.
  - destruct (Z.min_spec m (proj p)) as [[Hlt ->]|[Hge ->]].
    + destruct Hat as [?|Hat]; [by left|]. right. apply coordOf_insert; auto.
    + right. apply coordOf_insert; auto.
Qed.

Lemma highestOf_insert proj init (V : gset Z) m p :
  inBounds img p ->
  highestOf init (coordOf img proj V) m ->
  highestOf init (coordOf img proj ({[keyOf img p]} ∪ V)) (Z.max m (proj p)).
Proof.
  intros Hp (Hle & Hinit & Hat). split; [|split].
  - intros v Hv. apply coordOf_insert in Hv; [|done].
    destruct Hv as [<-|Hv]; [lia|]. specialize (Hle v Hv). lia.
  - lia.
  - destruct (Z.max_spec m (proj p)) as [[Hlt ->]|[Hge ->]].
    + right. apply coordOf_insert; auto.
    + destruct Hat as [?|Hat]; [by left|]. right. apply coordOf_insert; auto.
Qed.

Lemma adjacent_neighbours (px py : Z) q :
  q ∈ [(px + 1, py); (px - 1, py); (px, py + 1); (px, py - 1)]%Z
  <-> adjacent (px, py) q.
Proof.
  unfold adjacent. simpl. rewrite !elem_of_cons, elem_of_nil. tauto.
Qed.

Lemma indicator_le (a b c d : Z * Z) :
  (a = b -> c = d) ->
  ((if pixel_eq_dec a b then 1 else 0) <= (if pixel_eq_dec c d then 1 else 0))%nat.
Proof.
  intros Himp. destruct (pixel_eq_dec a b) as [E|E]; [|lia].
  destruct (pixel_eq_dec c d) as [E'|E']; [lia|]. by destruct E', Himp.
Qed.

(** Accepting pixel [p] adds one to the count at [p] and lowers no count. *)
Lemma visitedAt_insert (V : gset Z) p a :
  inBounds img p -> keyOf img p ∉ V ->
  (visitedAt img V a + (if pixel_eq_dec a p then 1 else 0)
   <= visitedAt img ({[keyOf img p]} ∪ V) a)%nat.
Proof.
  intros Hp Hnew. unfold visitedAt.
  destruct (pixel_eq_dec a p) as [->|Hne].
  - apply outside_false in Hp. rewrite Hp. simpl.
    rewrite (bool_decide_eq_false_2 _ Hnew).
    rewrite bool_decide_eq_true_2 by set_solver. lia.
  - destruct (outside img a) eqn:Eo; simpl; [lia|].
    destruct (bool_decide (keyOf img a ∈ V)) eqn:Eb; [|lia].
    apply bool_decide_eq_true_1 in Eb.
    rewrite bool_decide_eq_true_2 by set_solver. lia.
Qed.

(** An iteration that accepts the pixel it took. *)
Lemma accept_preserves s evaluated (px py : Z) rest :
  FillInv img seed tolerance s evaluated ->
  stack s ≡ₚ (px, py) :: rest ->
  keyOf img (px, py) ∉ visited s ->
  inBounds img (px, py) ->
  withinTolerance img seed tolerance (px, py) ->
  FillInv img seed tolerance
    {| stack := rest ++ [(px + 1, py); (px - 1, py); (px, py + 1); (px, py - 1)]%Z;
       visited := {[keyOf img (px, py)]} ∪ visited s;
       maskData := paintWhite (maskData s) (keyOf img (px, py) * 4);
       minX := Z.min (minX s) px; minY := Z.min (minY s) py;
       maxX := Z.max (maxX s) px; maxY := Z.max (maxY s) py |}
    (evaluated ++ [(px, py)]).
Proof.
  intros [] Hperm Hnew Hp Hw.
  assert (forall q, q ∈ stack s <-> q = (px, py) \/ q ∈ rest) as Hin.
  { intros q. rewrite Hperm. apply elem_of_cons. }
  assert (component img seed tolerance (px, py)) as Hcomp.
  { destruct (inv_stack0 (px, py)) as [Heq|(a & Ha & Hadj)]; [apply Hin; by left| |].
    - rewrite Heq in Hw |- *. by apply component_seed.
    - by eapply component_step. }
  pose proof (keyOf_range img _ Hp) as Hkey.
  constructor; simpl.
  - intros k Hk. apply elem_of_union in Hk as [Hk|Hk]; [|auto].
    apply elem_of_singleton in Hk. subst k. eauto.
  - intros q Hq. apply elem_of_app in Hq as [Hq|Hq].
    + apply inv_stack0, Hin. by right.
    + right. exists (px, py). split; [done|]. by apply adjacent_neighbours.
  - intros a q Ha Hk Hadj Hq Hwq. apply elem_of_union in Hk as [Hk|Hk].
    + apply elem_of_singleton, keyOf_inj in Hk; [|done..]. subst a.
      right. apply elem_of_app. right. by apply adjacent_neighbours.
    + destruct (inv_closed0 a q Ha Hk Hadj Hq Hwq) as [?|Hs]; [left; by apply elem_of_insert_old|].
      apply Hin in Hs as [->|?]; [left; apply elem_of_insert_key|].
      right. apply elem_of_app. by left.
  - intros Hws. destruct (inv_seed0 Hws) as [?|Hs]; [left; by apply elem_of_insert_old|].
    apply Hin in Hs as [->|?]; [left; apply elem_of_insert_key|].
    right. apply elem_of_app. by left.
  - by rewrite length_paintWhite.
  - intros k c Hk Hc. rewrite readAt_paintWhite by lia.
    rewrite inv_mask0 by done. case_decide as Hj.
    + assert (k = keyOf img (px, py)) as -> by lia.
      by rewrite decide_True by apply elem_of_insert_key.
    + assert (k <> keyOf img (px, py)) as Hne by lia.
      f_equal. destruct (decide (k ∈ visited s));
        [rewrite decide_True by (by apply elem_of_insert_old)
        |rewrite decide_False by (by apply not_elem_of_insert)]; done.
  - intros q Hq Hwq. unfold evaluations in *. rewrite count_occ_app. simpl.
    destruct (pixel_eq_dec (px, py) q) as [<-|Hne].
    + rewrite decide_True by apply elem_of_insert_key.
      rewrite inv_evaluated0 by done. by rewrite decide_False.
    + rewrite inv_evaluated0 by done.
      assert (keyOf img q <> keyOf img (px, py)) as Hk.
      { intros Hk. apply Hne. symmetry. by apply (keyOf_inj img). }
      destruct (decide (keyOf img q ∈ visited s));
        [rewrite decide_True by (by apply elem_of_insert_old)
        |rewrite decide_False by (by apply not_elem_of_insert)]; lia.
  - intros q. specialize (inv_pushes0 q).
    rewrite (proj1 (Permutation_count_occ pixel_eq_dec _ _) Hperm q) in inv_pushes0.
    unfold evaluations in *. rewrite !count_occ_app. unfold pushes in *.
    pose proof (visitedAt_insert (visited s) (px, py) (q.1 + 1, q.2)%Z Hp Hnew) as V1.
    pose proof (visitedAt_insert (visited s) (px, py) (q.1 - 1, q.2)%Z Hp Hnew) as V2.
    pose proof (visitedAt_insert (visited s) (px, py) (q.1, q.2 + 1)%Z Hp Hnew) as V3.
    pose proof (visitedAt_insert (visited s) (px, py) (q.1, q.2 - 1)%Z Hp Hnew) as V4.
    pose proof (indicator_le (px - 1, py)%Z q (q.1 + 1, q.2)%Z (px, py)) as I1.
    pose proof (indicator_le (px + 1, py)%Z q (q.1 - 1, q.2)%Z (px, py)) as I2.
    pose proof (indicator_le (px, py - 1)%Z q (q.1, q.2 + 1)%Z (px, py)) as I3.
    pose proof (indicator_le (px, py + 1)%Z q (q.1, q.2 - 1)%Z (px, py)) as I4.
    simpl in *.
    specialize (I1 ltac:(intros <-; simpl; f_equal; lia)).
    specialize (I2 ltac:(intros <-; simpl; f_equal; lia)).
    specialize (I3 ltac:(intros <-; simpl; f_equal; lia)).
    specialize (I4 ltac:(intros <-; simpl; f_equal; lia)).
    destruct (pixel_eq_dec (px + 1, py)%Z q), (pixel_eq_dec (px - 1, py)%Z q),
      (pixel_eq_dec (px, py + 1)%Z q), (pixel_eq_dec (px, py - 1)%Z q),
      (pixel_eq_dec (px, py) q); lia.
  - apply (lowestOf_insert fst _ _ _ (px, py)); done.
  - apply (lowestOf_insert snd _ _ _ (px, py)); done.
  - apply (highestOf_insert fst _ _ _ (px, py)); done.
  - apply (highestOf_insert snd _ _ _ (px, py)); done.
Qed.

Lemma fillStep_None target s :
  fillStep take img target tolerance s = None -> stack s = [].
Proof.
  unfold fillStep. destruct (take (stack s)) as [[[px py] rest]|] eqn:Et.
  - repeat case_match; done.
  - intros _. by apply (proj1 Htake).
Qed.

(** Every iteration keeps the invariant and lowers the measure. *)
Lemma fillStep_preserves s evaluated s' e :
  FillInv img seed tolerance s evaluated ->
  fillStep take img (rgbAt img (keyOf img seed * 4)) tolerance s = Some (s', e) ->
  FillInv img seed tolerance s' (match e with Some p => evaluated ++ [p] | None => evaluated end) /\
  (fillMeasure img s' < fillMeasure img s)%nat.
Proof.
  intros HI. unfold fillStep.
  destruct (take (stack s)) as [[[px py] rest]|] eqn:Et; [|done].
  pose proof (proj2 Htake _ _ _ Et) as Hperm.
  assert (length (stack s) = S (length rest)) as Hlen by (by rewrite Hperm).
  destruct (decide (keyOf img (px, py) ∈ visited s)) as [Hv|Hv].
  { intros [= <- <-]. split.
    - eapply skip_preserves; eauto. intros q. lia.
    - unfold fillMeasure. simpl. lia. }
  destruct (outside img (px, py)) eqn:Eo.
  { intros [= <- <-]. split.
    - eapply skip_preserves; eauto.
      + intros Hin. apply outside_false in Hin. congruence.
      + intros q. lia.
    - unfold fillMeasure. simpl. lia. }
  apply outside_false in Eo.
  destruct (exceeds _ _) eqn:Ex.
  { intros [= <- <-]. split.
    - eapply skip_preserves; eauto.
      + intros _ Hw. apply accepts_iff in Hw; [congruence|done..].
      + intros q Hq Hw. unfold evaluations. rewrite count_occ_app. simpl.
        destruct (pixel_eq_dec (px, py) q) as [<-|Hne]; [|lia].
        apply accepts_iff in Hw; [congruence|done..].
      + intros q. unfold evaluations. rewrite count_occ_app. simpl.
        destruct (pixel_eq_dec (px, py) q); lia.
    - unfold fillMeasure. simpl. lia. }
  intros [= <- <-]. apply accepts_iff in Ex; [|done..].
  pose proof (accept_preserves s evaluated px py rest HI Hperm Hv Eo Ex) as HI'.
  split; [done|].
  unfold fillMeasure. simpl.
  assert (size ({[keyOf img (px, py)]} ∪ visited s) = S (size (visited s))) as Hsz.
  { rewrite size_union by set_solver. by rewrite size_singleton. }
  assert (size ({[keyOf img (px, py)]} ∪ visited s)
          <= Z.to_nat (ImageData.width img * ImageData.height img))%nat as Hbound.
  { apply gset_size_bounded. intros k Hk.
    destruct (inv_visited _ _ _ _ _ HI' k Hk) as (p & Hp & <- & _).
    by apply keyOf_range. }
  rewrite length_app. simpl. lia.
Qed.

(** The loop ends within [fillMeasure] iterations, in a state that satisfies
    the invariant and has nothing pending. *)
Lemma fillLoop_terminates fuel s evaluated :
  FillInv img seed tolerance s evaluated -> (fillMeasure img s <= fuel)%nat ->
  exists s' evaluated',
    fillLoop fuel take img (rgbAt img (keyOf img seed * 4)) tolerance s evaluated
      = Some (s', evaluated') /\
    FillInv img seed tolerance s' evaluated' /\ stack s' = [].
Proof.
  revert s evaluated. induction fuel as [|fuel IH]; intros s evaluated HI Hm; simpl.
  - destruct (fillStep _ _ _ _ s) as [[s' e]|] eqn:Es.
    + apply (fillStep_preserves _ evaluated) in Es as [_ Hlt]; [lia|done].
    + apply fillStep_None in Es. eauto.
  - destruct (fillStep _ _ _ _ s) as [[s' e]|] eqn:Es.
    + apply (fillStep_preserves _ evaluated) in Es as [HI' Hlt]; [|done].
      apply IH; [done|lia].
    + apply fillStep_None in Es. eauto.
Qed.

Lemma segment_terminates fuel :
  (fillFuel img <= fuel)%nat ->
  exists s evaluated,
    segment take fuel tolerance img seed.1 seed.2 = Some (s, evaluated) /\
    FillInv img seed tolerance s evaluated /\ stack s = [].
Proof.
  intros Hfuel. unfold segment.
  assert ((seed.1, seed.2) = seed) as -> by (symmetry; apply surjective_pairing).
  apply fillLoop_terminates; [apply fillStart_inv|].
  unfold fillMeasure, fillFuel, fillStart in *. cbn [visited stack length].
  rewrite size_empty. lia.
Qed.

(** When nothing is pending, the visited keys are the component. *)
Lemma finished_visited s evaluated p :
  FillInv img seed tolerance s evaluated -> stack s = [] -> inBounds img p ->
  keyOf img p ∈ visited s <-> component img seed tolerance p.
Proof.
  intros HI Hs Hp. split.
  - intros Hk. destruct (inv_visited _ _ _ _ _ HI _ Hk) as (q & Hq & Heq & Hc).
    apply keyOf_inj in Heq; [|done..]. by subst.
  - intros Hc. clear Hp. induction Hc as [Hin Hw|a q Ha IH Hadj Hq Hw].
    + destruct (inv_seed _ _ _ _ _ HI Hw) as [?|Hin']; [done|].
      rewrite Hs in Hin'. by apply elem_of_nil in Hin'.
    + assert (inBounds img a) as Hina.
      { clear -Ha. by destruct Ha. }
      destruct (inv_closed _ _ _ _ _ HI a q Hina IH Hadj Hq Hw) as [?|Hin']; [done|].
      rewrite Hs in Hin'. by apply elem_of_nil in Hin'.
Qed.

Lemma mask_white s evaluated p :
  FillInv img seed tolerance s evaluated -> inBounds img p ->
  isWhite (maskData s) (keyOf img p) = true <-> keyOf img p ∈ visited s.
Proof.
  intros HI Hp. unfold isWhite.
  pose proof (inv_mask _ _ _ _ _ HI (keyOf img p) 0 (keyOf_range img p Hp) ltac:(lia)) as Hm.
  rewrite Z.add_0_r in Hm. rewrite Hm.
  destruct (decide (keyOf img p ∈ visited s)); split; done.
Qed.

End FloodFill.

(** Two finished runs from the same seed end in the same state, whatever
    order they took the pending pixels in. *)
Lemma finished_unique img seed tolerance s1 e1 s2 e2 :
  FillInv img seed tolerance s1 e1 -> FillInv img seed tolerance s2 e2 ->
  stack s1 = [] -> stack s2 = [] -> s1 = s2.
Proof.
  intros H1 H2 E1 E2.
  assert (visited s1 = visited s2) as EV.
  { apply set_eq. intros k. split; intros Hk.
    - destruct (inv_visited _ _ _ _ _ H1 k Hk) as (p & Hp & <- & Hc).
      by apply (finished_visited img seed tolerance s2 e2).
    - destruct (inv_visited _ _ _ _ _ H2 k Hk) as (p & Hp & <- & Hc).
      by apply (finished_visited img seed tolerance s1 e1). }
  assert (maskData s1 = maskData s2) as EM.
  { apply list_eq. intros i.
    pose proof (inv_length _ _ _ _ _ H1) as L1.
    pose proof (inv_length _ _ _ _ _ H2) as L2.
    destruct (decide (i < length (maskData s1))%nat) as [Hi|Hi].
    - pose proof (inv_mask _ _ _ _ _ H1 (Z.of_nat i / 4) (Z.of_nat i mod 4)) as M1.
      pose proof (inv_mask _ _ _ _ _ H2 (Z.of_nat i / 4) (Z.of_nat i mod 4)) as M2.
      pose proof (Z.div_mod (Z.of_nat i) 4 ltac:(lia)) as Hdm.
      pose proof (Z.mod_pos_bound (Z.of_nat i) 4 ltac:(lia)) as Hmod.
      assert (Z.of_nat i / 4 * 4 + Z.of_nat i mod 4 = Z.of_nat i)%Z as Hidx by lia.
      rewrite Hidx in M1, M2. unfold readAt in M1, M2.
      destruct (Z.ltb_spec (Z.of_nat i) 0); [lia|].
      rewrite Nat2Z.id in M1, M2.
      rewrite M1, M2 by (try split; try apply Z.div_lt_upper_bound; lia).
      by rewrite EV.
    - rewrite !lookup_ge_None_2 by lia. done. }
  assert (minX s1 = minX s2) as EminX.
  { eapply lowestOf_unique; [apply (inv_minX _ _ _ _ _ H1)|].
    rewrite EV. apply (inv_minX _ _ _ _ _ H2). }
  assert (minY s1 = minY s2) as EminY.
  { eapply lowestOf_unique; [apply (inv_minY _ _ _ _ _ H1)|].
    rewrite EV. apply (inv_minY _ _ _ _ _ H2). }
  assert (maxX s1 = maxX s2) as EmaxX.
  { eapply highestOf_unique; [apply (inv_maxX _ _ _ _ _ H1)|].
    rewrite EV. apply (inv_maxX _ _ _ _ _ H2). }
  assert (maxY s1 = maxY s2) as EmaxY.
  { eapply highestOf_unique; [apply (inv_maxY _ _ _ _ _ H1)|].
    rewrite EV. apply (inv_maxY _ _ _ _ _ H2). }
  destruct s1, s2. simpl in *. congruence.
Qed.

(** C3. For a well-formed image, an in-bounds seed and any tolerance, the
    fill ends in one and the same state whether pending pixels are taken
    LIFO ([pop], as the source does), FIFO ([shift]) or in any other order;
    and the pixels that state selects are exactly the 4-connected component,
    containing the seed, of the pixels whose summed absolute R, G, B
    differences from the seed pixel are at most [tolerance * 3]. *)
Theorem segment_order_independent img (x y : Z) tolerance fuel :
  wellFormed img -> inBounds img (x, y) -> (fillFuel img <= fuel)%nat ->
  exists s,
    (exists evaluated, segment pop fuel tolerance img x y = Some (s, evaluated)) /\
    (exists evaluated, segment shift fuel tolerance img x y = Some (s, evaluated)) /\
    (forall take, fairDiscipline take ->
       exists evaluated, segment take fuel tolerance img x y = Some (s, evaluated)) /\
    (forall p, inBounds img p ->
       isWhite (maskData s) (keyOf img p) = true <->
       component img (x, y) tolerance p).
Proof.
  intros Hwf Hseed Hfuel.
  destruct (segment_terminates pop pop_fair img Hwf (x, y) Hseed tolerance fuel Hfuel)
    as (s & ev & Hrun & HI & Hs).
  assert (forall take, fairDiscipline take ->
     exists evaluated, segment take fuel tolerance img x y = Some (s, evaluated)) as Hany.
  { intros take Htake.
    destruct (segment_terminates take Htake img Hwf (x, y) Hseed tolerance fuel Hfuel)
      as (s' & ev' & Hrun' & HI' & Hs').
    exists ev'. simpl in Hrun'. rewrite Hrun'. do 2 f_equal.
    by eapply finished_unique. }
  exists s. split; [by exists ev|]. split; [apply Hany, shift_fair|].
  split; [exact Hany|].
  intros p Hp. rewrite (mask_white img (x, y) tolerance s ev p HI Hp).
  by apply (finished_visited img (x, y) tolerance s ev).
Qed.

Lemma segment_order_independent_witness :
  exists s,
    (exists evaluated, segment pop 17 32 tiny 0 0 = Some (s, evaluated)) /\
    (exists evaluated, segment shift 17 32 tiny 0 0 = Some (s, evaluated)).
Proof.
  destruct (segment_order_independent tiny 0 0 32 17) as (s & Hpop & Hshift & _).
  - reflexivity.
  - unfold inBounds. simpl. lia.
  - unfold fillFuel. simpl. lia.
  - exists s. split; assumption.
Defined.

(** In an image of one colour every pixel is within any tolerance [>= 0]. *)
Lemma uniform_withinTolerance img seed tolerance p :
  wellFormed img -> uniform img -> (0 <= tolerance)%Z ->
  inBounds img seed -> inBounds img p ->
  withinTolerance img seed tolerance p.
Proof.
  intros Hwf Hu Htol Hs Hp. unfold withinTolerance.
  destruct (rgbAt_inBounds img seed Hwf Hs) as (r & g & b & E).
  exists r, g, b, r, g, b. rewrite (Hu p seed Hp Hs).
  split; [done|]. split; [done|]. lia.
Qed.

(** The pixel grid is 4-connected: when every pixel is within tolerance, the
    component of the seed is the whole image. *)
Lemma grid_connected img seed tolerance :
  inBounds img seed ->
  (forall p, inBounds img p -> withinTolerance img seed tolerance p) ->
  forall p, inBounds img p -> component img seed tolerance p.
Proof.
  intros Hs Hall.
  assert (forall (n : nat) p, inBounds img p ->
    Z.to_nat (Z.abs (p.1 - seed.1) + Z.abs (p.2 - seed.2)) = n ->
    component img seed tolerance p) as Hn.
  { induction n as [|n IH]; intros [px py] Hp Hd; simpl in *.
    - assert ((px, py) = seed) as ->.
      { destruct seed as [sx sy]. simpl in *. f_equal; lia. }
      apply component_seed; auto.
    - destruct (decide (px = seed.1)) as [Hx|Hx].
      + set (a := (px, if (py <? seed.2)%Z then py + 1 else py - 1)%Z).
        apply (component_step img seed tolerance a); [apply IH| | |]; auto.
        * unfold inBounds in *. subst a. simpl in *.
          destruct (Z.ltb_spec py seed.2); lia.
        * subst a. simpl. destruct (Z.ltb_spec py seed.2); lia.
        * unfold adjacent. subst a. simpl.
          destruct (Z.ltb_spec py seed.2);
            [do 3 right|do 2 right; left]; f_equal; lia.
      + set (a := (if (px <? seed.1)%Z then px + 1 else px - 1, py)%Z).
        apply (component_step img seed tolerance a); [apply IH| | |]; auto.
        * unfold inBounds in *. subst a. simpl in *.
          destruct (Z.ltb_spec px seed.1); lia.
        * subst a. simpl. destruct (Z.ltb_spec px seed.1); lia.
        * unfold adjacent. subst a. simpl.
          destruct (Z.ltb_spec px seed.1);
            [right; left|left]; f_equal; lia. }
  intros p Hp. by eapply Hn.
Qed.

Lemma mask_lookup img seed tolerance s evaluated (i : nat) :
  FillInv img seed tolerance s evaluated ->
  (i < length (maskData s))%nat ->
  maskData s !! i = Some (if decide (Z.of_nat i / 4 ∈ visited s) then 255 else 0)%Z.
Proof.
  intros HI Hi. pose proof (inv_length _ _ _ _ _ HI) as L.
  pose proof (inv_mask _ _ _ _ _ HI (Z.of_nat i / 4) (Z.of_nat i mod 4)) as M.
  pose proof (Z.div_mod (Z.of_nat i) 4 ltac:(lia)) as Hdm.
  pose proof (Z.mod_pos_bound (Z.of_nat i) 4 ltac:(lia)) as Hmod.
  assert (Z.of_nat i / 4 * 4 + Z.of_nat i mod 4 = Z.of_nat i)%Z as Hidx by lia.
  rewrite Hidx in M. unfold readAt in M.
  destruct (Z.ltb_spec (Z.of_nat i) 0); [lia|].
  rewrite Nat2Z.id in M. apply M; [|lia].
  split; [lia|]. apply Z.div_lt_upper_bound; lia.
Qed.

(** C7. In a well-formed image whose pixels all have the same colour, for
    an in-bounds seed and a tolerance [>= 0], the fill of the source (LIFO)
    ends and selects every pixel: the mask buffer is white throughout. *)
Theorem segment_uniform_selects_all img (x y : Z) tolerance fuel :
  wellFormed img -> inBounds img (x, y) -> uniform img ->
  (0 <= tolerance)%Z -> (fillFuel img <= fuel)%nat ->
  exists s evaluated,
    segment pop fuel tolerance img x y = Some (s, evaluated) /\
    (forall p, inBounds img p -> isWhite (maskData s) (keyOf img p) = true) /\
    maskData s =
      replicate (Z.to_nat (ImageData.width img * ImageData.height img * 4)) 255%Z.
Proof.
  intros Hwf Hseed Hu Htol Hfuel.
  destruct (segment_terminates pop pop_fair img Hwf (x, y) Hseed tolerance fuel Hfuel)
    as (s & ev & Hrun & HI & Hs).
  exists s, ev. split; [exact Hrun|].
  assert (forall p, inBounds img p -> keyOf img p ∈ visited s) as Hall.
  { intros p Hp. apply (finished_visited img (x, y) tolerance s ev); try done.
    apply grid_connected; try done.
    intros q Hq. by apply uniform_withinTolerance. }
  split.
  - intros p Hp. apply (mask_white img (x, y) tolerance s ev); auto.
  - pose proof (inv_length _ _ _ _ _ HI) as L.
    apply list_eq. intros i.
    destruct (decide (i < length (maskData s))%nat) as [Hi|Hi].
    + rewrite (mask_lookup _ _ _ _ _ i HI Hi).
      rewrite lookup_replicate_2 by lia.
      rewrite decide_True; [done|].
      pose proof (Z.div_mod (Z.of_nat i) 4 ltac:(lia)) as Hdm.
      pose proof (Z.mod_pos_bound (Z.of_nat i) 4 ltac:(lia)) as Hmod.
      set (k := (Z.of_nat i / 4)%Z) in *.
      assert (0 <= k < ImageData.width img * ImageData.height img)%Z as Hk by lia.
      assert (0 < ImageData.width img)%Z as Hw by (unfold inBounds in Hseed; simpl in Hseed; lia).
      pose proof (Z.div_mod k (ImageData.width img) ltac:(lia)) as Hdm'.
      pose proof (Z.mod_pos_bound k (ImageData.width img) Hw) as Hmod'.
      replace k with (keyOf img (k mod ImageData.width img, k / ImageData.width img)%Z)
        by (unfold keyOf; simpl; lia).
      apply Hall. unfold inBounds. simpl. split; [lia|].
      split; [apply Z.div_pos; lia|apply Z.div_lt_upper_bound; lia].
    + rewrite lookup_ge_None_2 by lia.
      rewrite lookup_ge_None_2; [done|]. rewrite length_replicate. lia.
Qed.

Lemma segment_uniform_selects_all_witness :
  exists s evaluated,
    segment pop 17 0 blackCanvas 1 1 = Some (s, evaluated) /\
    maskData s = replicate 16 255%Z.
Proof.
  destruct (segment_uniform_selects_all blackCanvas 1 1 0 17) as (s & ev & Hrun & _ & Hm).
  - reflexivity.
  - unfold inBounds. simpl. lia.
  - intros [px py] [qx qy] [Hpx Hpy] [Hqx Hqy]. simpl in *.
    assert (px = 0 \/ px = 1)%Z as [-> | ->] by lia;
    assert (py = 0 \/ py = 1)%Z as [-> | ->] by lia;
    assert (qx = 0 \/ qx = 1)%Z as [-> | ->] by lia;
    assert (qy = 0 \/ qy = 1)%Z as [-> | ->] by lia; reflexivity.
  - lia.
  - unfold fillFuel. simpl. lia.
  - exists s, ev. split; assumption.
Defined.

Lemma component_seed_within img seed tolerance p :
  component img seed tolerance p -> withinTolerance img seed tolerance seed.
Proof. induction 1; auto. Qed.

Lemma visitedAt_le_1 img (V : gset Z) p : (visitedAt img V p <= 1)%nat.
Proof. unfold visitedAt. case_match; lia. Qed.

(** At the end of a run no pixel has been evaluated more than four times. *)
Lemma evaluations_bound img seed tolerance s evaluated q :
  wellFormed img -> inBounds img seed ->
  FillInv img seed tolerance s evaluated -> stack s = [] ->
  (evaluations evaluated q <= 4)%nat.
Proof.
  intros Hwf Hseed HI Hs.
  pose proof (inv_pushes _ _ _ _ _ HI q) as Hq. rewrite Hs in Hq. simpl in Hq.
  unfold pushes in Hq.
  pose proof (visitedAt_le_1 img (visited s) (q.1 + 1, q.2)%Z).
  pose proof (visitedAt_le_1 img (visited s) (q.1 - 1, q.2)%Z).
  pose proof (visitedAt_le_1 img (visited s) (q.1, q.2 + 1)%Z).
  pose proof (visitedAt_le_1 img (visited s) (q.1, q.2 - 1)%Z).
  destruct (pixel_eq_dec seed q) as [<-|Hne]; [|lia].
  destruct (exceeds (colourDiff (rgbAt img (keyOf img seed * 4))
                                (rgbAt img (keyOf img seed * 4))) (tolerance * 3)) eqn:Ex.
  - assert (forall a, visitedAt img (visited s) a = 0%nat) as Hzero.
    { intros a. unfold visitedAt.
      destruct (bool_decide (keyOf img a ∈ visited s)) eqn:Eb;
        [|by rewrite andb_false_r].
      apply bool_decide_eq_true_1 in Eb.
      destruct (inv_visited _ _ _ _ _ HI _ Eb) as (p & _ & _ & Hc).
      apply component_seed_within, accepts_iff in Hc; [congruence|done..]. }
    rewrite !Hzero in Hq. lia.
  - apply accepts_iff in Ex; [|done..].
    rewrite (inv_evaluated _ _ _ _ _ HI seed Hseed Ex). case_decide; lia.
Qed.

(** C8, as stated, fails: on [tiny], clicked at (0, 0), the pixel (1, 1) is
    rejected and its colour test runs twice, once for each accepted
    neighbour that pushed it. *)
Lemma rejected_pixel_evaluated_twice :
  (fun r => (isWhite (maskData r.1) (keyOf tiny (1, 1)%Z),
             evaluations r.2 (1, 1)%Z)) <$> segment pop 17 32 tiny 0 0
  = Some (false, 2%nat).
Proof. vm_compute. reflexivity. Qed.

(** C8, amended. [visited] records accepted pixels only. In a single run of
    the fill (in any order), a pixel that passes the colour test has the
    test evaluated at most once, and exactly once if the run selects it; a
    rejected pixel is not recorded and is tested again each time it is taken
    off the worklist, which happens at most four times (once per accepted
    neighbour that pushed it). *)
Theorem accepted_pixel_evaluated_once take img (x y : Z) tolerance fuel :
  fairDiscipline take -> wellFormed img -> inBounds img (x, y) ->
  (fillFuel img <= fuel)%nat ->
  exists s evaluated,
    segment take fuel tolerance img x y = Some (s, evaluated) /\
    (forall p, inBounds img p ->
       (withinTolerance img (x, y) tolerance p -> (evaluations evaluated p <= 1)%nat) /\
       (isWhite (maskData s) (keyOf img p) = true -> evaluations evaluated p = 1%nat)) /\
    (forall p, (evaluations evaluated p <= 4)%nat).
Proof.
  intros Htake Hwf Hseed Hfuel.
  destruct (segment_terminates take Htake img Hwf (x, y) Hseed tolerance fuel Hfuel)
    as (s & ev & Hrun & HI & Hs).
  exists s, ev. split; [exact Hrun|].
  split; [|intros p; by eapply evaluations_bound].
  intros p Hp. split.
  - intros Hw. rewrite (inv_evaluated _ _ _ _ _ HI p Hp Hw). case_decide; lia.
  - intros Hwhite.
    apply (mask_white img (x, y) tolerance s ev p HI Hp) in Hwhite.
    destruct (inv_visited _ _ _ _ _ HI _ Hwhite) as (q & Hq & Hk & Hc).
    apply keyOf_inj in Hk; [|done..]. subst q.
    assert (withinTolerance img (x, y) tolerance p) as Hw by (by destruct Hc).
    rewrite (inv_evaluated _ _ _ _ _ HI p Hp Hw). by rewrite decide_True.
Qed.

Lemma accepted_pixel_evaluated_once_witness :
  exists s evaluated,
    segment pop 17 32 tiny 0 0 = Some (s, evaluated) /\
    evaluations evaluated (1, 0)%Z = 1%nat.
Proof.
  destruct (accepted_pixel_evaluated_once pop tiny 0 0 32 17)
    as (s & ev & Hrun & Hev & _).
  - exact pop_fair.
  - reflexivity.
  - unfold inBounds. simpl. lia.
  - unfold fillFuel. simpl. lia.
  - exists s, ev. split; [exact Hrun|].
    apply (Hev (1, 0)%Z).
    + unfold inBounds. simpl. lia.
    + revert Hrun. vm_compute. intros [= <- _]. reflexivity.
Defined.

(** C2 fails on the code: for the single pixel selected at (5, 5) of a
    10 x 10 image, with the padding 10 of the source, the bounds start at
    x = 0 and are 15 wide, so they reach beyond the image width 10 (and
    likewise downwards), in [SegmentationCanvas.tsx] and in
    [ImageCanvas.tsx] alike. *)
Theorem paddedBounds_beyond_image :
  snd <$> segmentAtPoint 401 dot10 5 5
    = Some {| Bounds.x := 0; Bounds.y := 0; Bounds.width := 15; Bounds.height := 15 |} /\
  (fun st => Mask.bounds <$> currentMask st) <$>
      segmentAtPointImageCanvas 401 dot10 5 5 "m" initialState
    = Some (Some {| Bounds.x := 0; Bounds.y := 0;
                    Bounds.width := 15; Bounds.height := 15 |}) /\
  (ImageData.width dot10 < 0 + 15)%Z /\ (ImageData.height dot10 < 0 + 15)%Z.
Proof. repeat split; try (vm_compute; reflexivity); simpl; lia. Qed.

(** Where the padded box does not cross the left and top edges, the bounds
    of the source do stay inside the image. *)
Lemma paddedBounds_inside img padding s :
  (padding <= minX s)%Z -> (padding <= minY s)%Z -> (0 <= padding)%Z ->
  let b := paddedBounds img padding s in
  (0 <= Bounds.x b)%Z /\ (0 <= Bounds.y b)%Z /\
  (Bounds.x b + Bounds.width b <= ImageData.width img)%Z /\
  (Bounds.y b + Bounds.height b <= ImageData.height img)%Z.
Proof. intros Hx Hy Hp. unfold paddedBounds. simpl. lia. Qed.

(** * Properties of the mask buffer *)

Lemma length_encodeFrom mask key data :
  length (encodeFrom mask key data) = length data.
Proof.
  revert key data. induction mask as [|b mask IH]; intros key data; simpl; [done|].
  rewrite IH. destruct b; [apply length_paintWhite|done].
Qed.

(** Channel [j] after encoding from pixel [key] on: white if it belongs to
    a selected pixel, untouched otherwise. *)
Lemma readAt_encodeFrom mask : forall key data j,
  (0 <= key)%Z ->
  ((key + Z.of_nat (length mask)) * 4 <= Z.of_nat (length data))%Z ->
  readAt (encodeFrom mask key data) j =
    match (if (key * 4 <=? j)%Z then mask !! Z.to_nat (j / 4 - key) else None) with
    | Some true => Some 255%Z
    | _ => readAt data j
    end.
Proof.
  induction mask as [|b mask IH]; intros key data j Hkey Hlen; simpl.
  - by destruct (key * 4 <=? j)%Z.
  - simpl in Hlen.
    rewrite IH; [|lia|by (destruct b; rewrite ?length_paintWhite; lia)].
    pose proof (Z.div_mod j 4 ltac:(lia)) as Hdm.
    pose proof (Z.mod_pos_bound j 4 ltac:(lia)) as Hmod.
    destruct (Z.leb_spec ((key + 1) * 4) j) as [Hge|Hlt].
    + destruct (Z.leb_spec (key * 4) j); [|lia].
      replace (Z.to_nat (j / 4 - key)) with (S (Z.to_nat (j / 4 - (key + 1)))) by lia.
      simpl. destruct (mask !! Z.to_nat (j / 4 - (key + 1))) as [[|]|]; try done;
        destruct b; try done; rewrite readAt_paintWhite by lia;
        by rewrite decide_False by lia.
    + destruct (Z.leb_spec (key * 4) j) as [Hge|Hlt'].
      * replace (Z.to_nat (j / 4 - key)) with O by lia. simpl.
        destruct b; [|done]. rewrite readAt_paintWhite by lia.
        by rewrite decide_True by lia.
      * destruct b; [|done]. rewrite readAt_paintWhite by lia.
        by rewrite decide_False by lia.
Qed.

Lemma readAt_replicate_zero (n : nat) (j : Z) :
  (0 <= j < Z.of_nat n)%Z -> readAt (replicate n 0%Z) j = Some 0%Z.
Proof.
  intros Hj. unfold readAt. destruct (Z.ltb_spec j 0); [lia|].
  apply lookup_replicate_2. lia.
Qed.

(** The channels of pixel [key] in [encode mask]: 255 four times if the
    pixel is selected, 0 four times if it is not. *)
Lemma readAt_encode (mask : list bool) (key : nat) (c : Z) (selected : bool) :
  mask !! key = Some selected -> (0 <= c < 4)%Z ->
  readAt (encode mask) (Z.of_nat key * 4 + c) = Some (if selected then 255 else 0)%Z.
Proof.
  intros Hk Hc. pose proof (lookup_lt_Some _ _ _ Hk) as Hlt.
  unfold encode. rewrite readAt_encodeFrom; [|lia|rewrite length_replicate; lia].
  destruct (Z.leb_spec (0 * 4) (Z.of_nat key * 4 + c)); [|lia].
  replace (Z.to_nat ((Z.of_nat key * 4 + c) / 4 - 0)) with key.
  2:{ rewrite Z.sub_0_r. rewrite Z.add_comm, Z.div_add by lia.
      rewrite Z.div_small by lia. lia. }
  rewrite Hk. destruct selected; [done|].
  apply readAt_replicate_zero. lia.
Qed.

(** C4, as stated, fails on the encoding: the buffer [segmentAtPoint]
    builds leaves an unselected pixel at its initial zeros, alpha included
    (transparent black, A = 0), not at opaque black (A = 255). Here the
    unselected pixel (1, 1) of [tiny], and the same through [encode]. *)
Lemma unselected_pixel_is_transparent :
  (fun r => readAt r.1 (keyOf tiny (1, 1)%Z * 4 + 3)) <$> segmentAtPoint 17 tiny 0 0
    = Some (Some 0%Z) /\
  encode [true; false] = [255; 255; 255; 255; 0; 0; 0; 0]%Z.
Proof. split; vm_compute; reflexivity. Qed.

(** C4, amended. For every binary mask [m] (the empty and the full mask
    included), [decode (encode m) = m], where [encode] sets the four
    channels of a selected pixel to 255 (opaque white) and leaves those of
    an unselected pixel at 0 (R = G = B = 0 and A = 0), and [decode] selects
    exactly the pixels whose red channel exceeds 128. *)
Theorem decode_encode (m : list bool) :
  decode (encode m) = m /\
  (forall (key : nat) (c : Z) (selected : bool), m !! key = Some selected -> (0 <= c < 4)%Z ->
     readAt (encode m) (Z.of_nat key * 4 + c) = Some (if selected then 255 else 0)%Z) /\
  (forall (key : nat) (selected : bool), m !! key = Some selected ->
     isWhite (encode m) (Z.of_nat key) = selected).
Proof.
  assert (forall (key : nat) (selected : bool), m !! key = Some selected ->
     isWhite (encode m) (Z.of_nat key) = selected) as Hwhite.
  { intros key selected Hk. unfold isWhite.
    pose proof (readAt_encode m key 0 selected Hk ltac:(lia)) as Hr.
    rewrite Z.add_0_r in Hr. rewrite Hr. by destruct selected. }
  split; [|split; [apply readAt_encode|exact Hwhite]].
  unfold decode.
  assert (length (encode m) = (length m * 4)%nat) as Hlen.
  { unfold encode. by rewrite length_encodeFrom, length_replicate. }
  rewrite Hlen.
  replace ((Z.of_nat (length m * 4) + 3) / 4)%Z with (Z.of_nat (length m)).
  2:{ apply Z.div_unique with (r := 3%Z); lia. }
  apply list_eq. intros key. rewrite list_lookup_fmap.
  destruct (m !! key) as [selected|] eqn:Hk.
  - pose proof (lookup_lt_Some _ _ _ Hk) as Hlt.
    rewrite lookup_seqZ_lt by lia. simpl. f_equal. by apply Hwhite.
  - apply lookup_ge_None_1 in Hk. rewrite lookup_seqZ_ge by lia. done.
Qed.

Lemma readAt_of_nat (data : list Z) (i : nat) : readAt data (Z.of_nat i) = data !! i.
Proof.
  unfold readAt. destruct (Z.ltb_spec (Z.of_nat i) 0); [lia|]. by rewrite Nat2Z.id.
Qed.

(** [encode] is the buffer of the source: the mask buffer at the end of
    [segmentAtPoint]'s loop is [encode] of the flags "key is visited". *)
Lemma segment_mask_encode take img (x y : Z) tolerance fuel :
  fairDiscipline take -> wellFormed img -> inBounds img (x, y) ->
  (fillFuel img <= fuel)%nat ->
  exists s evaluated,
    segment take fuel tolerance img x y = Some (s, evaluated) /\
    maskData s =
      encode ((fun key => bool_decide (key ∈ visited s)) <$>
              seqZ 0 (ImageData.width img * ImageData.height img)).
Proof.
  intros Htake Hwf Hseed Hfuel.
  destruct (segment_terminates take Htake img Hwf (x, y) Hseed tolerance fuel Hfuel)
    as (s & ev & Hrun & HI & Hs).
  exists s, ev. split; [exact Hrun|].
  pose proof (inv_length _ _ _ _ _ HI) as L.
  set (flags := (fun key => bool_decide (key ∈ visited s)) <$>
                seqZ 0 (ImageData.width img * ImageData.height img)).
  assert (length flags = Z.to_nat (ImageData.width img * ImageData.height img)) as Lf.
  { unfold flags. by rewrite length_fmap, length_seqZ. }
  assert (length (encode flags) = length (maskData s)) as Le.
  { unfold encode. rewrite length_encodeFrom, length_replicate. lia. }
  apply list_eq. intros i.
  destruct (decide (i < length (maskData s))%nat) as [Hi|Hi].
  - rewrite (mask_lookup _ _ _ _ _ i HI Hi).
    pose proof (Z.div_mod (Z.of_nat i) 4 ltac:(lia)) as Hdm.
    pose proof (Z.mod_pos_bound (Z.of_nat i) 4 ltac:(lia)) as Hmod.
    assert (0 <= Z.of_nat i / 4)%Z as Hk0 by (apply Z.div_pos; lia).
    assert (Z.of_nat i / 4 < ImageData.width img * ImageData.height img)%Z as Hk1
      by (apply Z.div_lt_upper_bound; lia).
    assert (flags !! Z.to_nat (Z.of_nat i / 4)
            = Some (bool_decide ((Z.of_nat i / 4)%Z ∈ visited s))) as Hflag.
    { unfold flags. rewrite list_lookup_fmap. rewrite lookup_seqZ_lt by lia.
      simpl. do 2 f_equal.
      replace (0 + Z.of_nat (Z.to_nat (Z.of_nat i / 4)))%Z with (Z.of_nat i / 4)%Z by lia.
      done. }
    pose proof (readAt_encode flags _ (Z.of_nat i mod 4) _ Hflag ltac:(lia)) as Hr.
    replace (Z.of_nat (Z.to_nat (Z.of_nat i / 4)) * 4 + Z.of_nat i mod 4)%Z
      with (Z.of_nat i) in Hr by lia.
    rewrite readAt_of_nat in Hr. rewrite Hr.
    by destruct (decide ((Z.of_nat i / 4)%Z ∈ visited s));
      [rewrite bool_decide_eq_true_2|rewrite bool_decide_eq_false_2].
  - rewrite !lookup_ge_None_2 by lia. done.
Qed.

(** * Properties of the mask scan *)

Lemma scanPixels_inBounds maskCanvas p :
  p ∈ scanPixels maskCanvas -> inBounds maskCanvas p.
Proof.
  unfold scanPixels. intros Hp.
  apply list_elem_of_bind in Hp as (y & Hp & Hy).
  apply list_elem_of_bind in Hp as (x & Hp & Hx).
  apply list_elem_of_singleton in Hp. subst p.
  apply elem_of_seqZ in Hx, Hy. unfold inBounds. simpl. lia.
Qed.

Lemma scanMask_allUnselected maskCanvas :
  allUnselected maskCanvas -> Scan.hasWhite (scanMask maskCanvas) = false.
Proof.
  intros Hall. unfold scanMask.
  assert (forall l s, (forall p, p ∈ l -> inBounds maskCanvas p) ->
            foldl (scanStep maskCanvas) s l = s) as Hfold.
  { induction l as [|p l IH]; intros s Hl; simpl; [done|].
    unfold scanStep at 2. rewrite Hall by (apply Hl; by left).
    apply IH. intros q Hq. apply Hl. by right. }
  rewrite Hfold; [done|]. intros p. apply scanPixels_inBounds.
Qed.

(** On a mask canvas without selected pixel, the scan of [ImageCanvas.tsx]
    installs no mask: the store has no current mask afterwards. *)
Lemma updateMaskFromCanvas_allUnselected maskCanvas maskId st :
  allUnselected maskCanvas ->
  currentMask (updateMaskFromCanvas maskCanvas maskId st) = None.
Proof.
  intros Hall. unfold updateMaskFromCanvas.
  by rewrite (scanMask_allUnselected _ Hall).
Qed.

(** On such a canvas [handleMouseUp] of [BrushMaskCanvas.tsx] builds no
    bounds either, but it leaves the store as it was. *)
Lemma handleMouseUp_allUnselected isDrawing maskCanvas maskId st :
  allUnselected maskCanvas ->
  snd (handleMouseUp isDrawing maskCanvas maskId st) = st.
Proof.
  intros Hall. unfold handleMouseUp. destruct isDrawing; simpl; [|done].
  by rewrite (scanMask_allUnselected _ Hall).
Qed.

(** C6 fails on [handleMouseUp] of [BrushMaskCanvas.tsx]: a stroke that ends
    over an all-unselected mask canvas while the store still holds a mask
    leaves that mask current, where [updateMaskFromCanvas] of
    [ImageCanvas.tsx] resets it. *)
Theorem handleMouseUp_keeps_stale_mask :
  Scan.hasWhite (scanMask blackCanvas) = false /\
  currentMask (snd (handleMouseUp true blackCanvas "m2"
                      (setCurrentMask (Some staleMask) rootStore)))
    = Some staleMask /\
  currentMask (updateMaskFromCanvas blackCanvas "m2"
                 (setCurrentMask (Some staleMask) rootStore))
    = None.
Proof. repeat split; vm_compute; reflexivity. Qed.

(** * Further properties of the store *)

Lemma walkHistory_acc fuel versions version history :
  walkHistory fuel versions version history
  = (fun h => h ++ history) <$> walkHistory fuel versions version [].
Proof.
  revert version history. induction fuel as [|fuel IH]; intros [v|] history; simpl;
    try done.
  rewrite (IH _ (v :: history)), (IH _ [v]).
  destruct (walkHistory fuel versions (parentOf versions v) []) as [h|]; simpl; [|done].
  by rewrite <- app_assoc.
Qed.

(** X1. Whatever the store held before, [createProject] leaves a project
    whose only version is the upload, a root with the new identifier, which
    is current and whose history is that one version; tool, prompt and
    current mask of the store are kept. *)
Theorem createProject_single_root
    (name url projectId versionId : string) (now : Z) (st : ProjectState) (fuel : nat) :
  let st' := createProject name url projectId versionId now st in
  let root :=
    {| Version.id := versionId; Version.imageUrl := url; Version.parentId := None;
       Version.prompt := "Original upload"; Version.mask := None;
       Version.flaws := []; Version.createdAt := now |} in
  (exists p, project st' = Some p /\ Project.versions p = [root] /\
     Project.currentVersionId p = versionId) /\
  getCurrentVersion st' = Some root /\
  getVersionHistory (S fuel) st' = Some [root] /\
  currentMask st' = currentMask st /\ promptText st' = promptText st /\
  activeTool st' = activeTool st.
Proof.
  simpl. split; [eexists; split; [reflexivity|done]|].
  unfold getVersionHistory, getCurrentVersion, findVersion. simpl.
  rewrite String.eqb_refl. repeat split. by destruct fuel.
Qed.

(** X2. [setCurrentVersion] keeps the version list and moves only the
    pointer, to any identifier: the current version afterwards is whatever
    the lookup of that identifier finds, so for an identifier that names no
    version there is no current version and the history is empty. The
    current mask and the flaw selection are dropped. *)
Theorem setCurrentVersion_lookup
    (st : ProjectState) (p : Project.t) (versionId : string) (now : Z) :
  project st = Some p ->
  let st' := setCurrentVersion versionId now st in
  (exists p', project st' = Some p' /\ Project.versions p' = Project.versions p /\
     Project.currentVersionId p' = versionId) /\
  currentMask st' = None /\ selectedFlawId st' = None /\
  getCurrentVersion st' = getVersionById versionId st /\
  (getVersionById versionId st = None ->
   forall fuel, getVersionHistory fuel st' = Some []).
Proof.
  intros Hp. unfold setCurrentVersion, getVersionById, getVersionHistory, getCurrentVersion.
  rewrite Hp. simpl. split; [eexists; split; [reflexivity|done]|].
  repeat split. intros Hnone fuel. by rewrite Hnone.
Qed.

Lemma setCurrentVersion_lookup_witness :
  getCurrentVersion (setCurrentVersion "zzz" 5 sampleStore) = None /\
  getVersionHistory 3 (setCurrentVersion "zzz" 5 sampleStore) = Some [].
Proof.
  pose proof (setCurrentVersion_lookup sampleStore
    {| Project.id := "p"; Project.name := "demo";
       Project.versions :=
         [rootVersion; fst (addVersion "img-a" "make it blue" None "r" "a" 2 rootStore)];
       Project.currentVersionId := "a";
       Project.createdAt := 1; Project.updatedAt := 2 |}
    "zzz" 5%Z eq_refl) as (_ & _ & _ & Hcur & Hhist).
  split; [exact Hcur|]. apply Hhist. reflexivity.
Defined.

(** X3. Lookup after [addVersion]: an identifier that was found before is
    found as before (the first version carrying it), and the new identifier
    finds the new version exactly when no earlier version carries it; in
    that case the new version is the current one. *)
Theorem addVersion_lookup
    (st : ProjectState) (p : Project.t)
    (imageUrl prompt parentId versionId : string) (mask : option Mask.t) (now : Z) :
  project st = Some p ->
  let r := addVersion imageUrl prompt mask parentId versionId now st in
  (forall id,
     getVersionById id (snd r) =
       match getVersionById id st with
       | Some v => Some v
       | None => if String.eqb versionId id then Some (fst r) else None
       end) /\
  (getVersionById versionId st = None -> getCurrentVersion (snd r) = Some (fst r)).
Proof.
  intros Hp. simpl.
  assert (forall id,
    findVersion (Project.versions p ++
      [ {| Version.id := versionId; Version.imageUrl := imageUrl;
           Version.parentId := Some parentId; Version.prompt := prompt;
           Version.mask := mask; Version.flaws := []; Version.createdAt := now |} ]) id
    = match findVersion (Project.versions p) id with
      | Some v => Some v
      | None => if String.eqb versionId id
                then Some {| Version.id := versionId; Version.imageUrl := imageUrl;
                             Version.parentId := Some parentId; Version.prompt := prompt;
                             Version.mask := mask; Version.flaws := [];
                             Version.createdAt := now |}
                else None
      end) as Hfind.
  { intros id. unfold findVersion. induction (Project.versions p) as [|a l IH]; simpl.
    - by destruct (String.eqb versionId id).
    - destruct (String.eqb (Version.id a) id); [done|exact IH]. }
  unfold getVersionById, getCurrentVersion. rewrite Hp. simpl. split.
  - exact Hfind.
  - intros Hnone. rewrite Hfind, Hnone. by rewrite String.eqb_refl.
Qed.

Lemma addVersion_lookup_witness :
  getVersionById "n" (snd (addVersion "img" "edit" None "r" "n" 2 rootStore))
    = Some (fst (addVersion "img" "edit" None "r" "n" 2 rootStore)) /\
  getVersionById "r" (snd (addVersion "img" "edit" None "r" "n" 2 rootStore))
    = Some rootVersion.
Proof.
  pose proof (addVersion_lookup rootStore
    {| Project.id := "p"; Project.name := "demo";
       Project.versions := [rootVersion];
       Project.currentVersionId := "r";
       Project.createdAt := 1; Project.updatedAt := 1 |}
    "img" "edit" "r" "n" None 2%Z eq_refl) as [Hall _].
  split; [exact (Hall "n")|exact (Hall "r")].
Defined.

Lemma findVersion_snoc versions (x : Version.t) id :
  findVersion (versions ++ [x]) id
  = match findVersion versions id with
    | Some v => Some v
    | None => if String.eqb (Version.id x) id then Some x else None
    end.
Proof.
  unfold findVersion. induction versions as [|a l IH]; simpl.
  - by destruct (String.eqb (Version.id x) id).
  - destruct (String.eqb (Version.id a) id); [done|exact IH].
Qed.

Lemma parentOf_snoc_fresh versions (x v : Version.t) :
  Version.parentId v <> Some (Version.id x) ->
  parentOf (versions ++ [x]) v = parentOf versions v.
Proof.
  intros Hne. unfold parentOf. destruct (Version.parentId v) as [pid|]; [|done].
  destruct (truthy pid); [|done]. rewrite findVersion_snoc.
  destruct (findVersion versions pid); [done|].
  destruct (String.eqb (Version.id x) pid) eqn:E; [|done].
  apply String.eqb_eq in E. congruence.
Qed.

Lemma walkHistory_snoc_fresh fuel versions (x : Version.t) :
  (forall w, In w versions -> Version.parentId w <> Some (Version.id x)) ->
  forall v history, In v versions ->
    walkHistory fuel (versions ++ [x]) (Some v) history
    = walkHistory fuel versions (Some v) history.
Proof.
  intros Hfresh. induction fuel as [|fuel IH]; intros v history Hv; simpl; [done|].
  rewrite parentOf_snoc_fresh by auto.
  destruct (parentOf versions v) as [u|] eqn:Hu; [|by destruct fuel].
  apply IH. apply parentOf_Some in Hu as [_ [j Hj]].
  apply list_elem_of_In. by eapply list_elem_of_lookup_2.
Qed.

(** X4. A generation that succeeds extends the history of the version it
    was requested from by exactly the new version: if that version [c] is
    still in the project when the response arrives, its identifier is not
    empty and the new identifier is fresh, then the history afterwards is
    the history of [c] followed by the new version, which is current; the
    store is no longer generating, and mask and prompt are reset. *)
Theorem handleGenerate_extends_history
    (st : ProjectState) (p : Project.t) (c : Version.t)
    (prompt imageUrl versionId : string) (mask : option Mask.t)
    (now : Z) (fuel : nat) (h : list Version.t) :
  project st = Some p ->
  getVersionById (Version.id c) st = Some c ->
  truthy (Version.id c) = true ->
  freshId versionId (Version.id c) st ->
  walkHistory fuel (Project.versions p) (Some c) [] = Some h ->
  let r := handleGenerateSettle prompt mask c (inl imageUrl) versionId now st in
  let new :=
    {| Version.id := versionId; Version.imageUrl := imageUrl;
       Version.parentId := Some (Version.id c); Version.prompt := prompt;
       Version.mask := mask; Version.flaws := [];
       Version.createdAt := now |} in
  fst r = None /\
  getCurrentVersion (snd r) = Some new /\
  getVersionHistory (S fuel) (snd r) = Some (h ++ [new]) /\
  isGenerating (snd r) = false /\ currentMask (snd r) = None /\
  promptText (snd r) = EmptyString.
Proof.
  intros Hp Hc Htruthy [Hne Hfresh] Hwalk. cbv zeta.
  unfold handleGenerateSettle. cbn [fst snd].
  unfold getVersionById in Hc. rewrite Hp in Hc.
  set (new := {| Version.id := versionId; Version.imageUrl := imageUrl;
                 Version.parentId := Some (Version.id c); Version.prompt := prompt;
                 Version.mask := mask; Version.flaws := [];
                 Version.createdAt := now |}).
  assert (findVersion (Project.versions p) versionId = None) as Hnew.
  { destruct (findVersion (Project.versions p) versionId) as [w|] eqn:Hw; [|done].
    apply findVersion_Some in Hw as [Hid [j Hj]].
    apply list_elem_of_lookup_2, list_elem_of_In in Hj.
    by destruct (Hfresh p w Hp Hj). }
  assert (In c (Project.versions p)) as Hin.
  { apply findVersion_Some in Hc as [_ [j Hj]].
    apply list_elem_of_In. by eapply list_elem_of_lookup_2. }
  assert (getCurrentVersion
            (snd (addVersion imageUrl prompt mask (Version.id c) versionId now st))
          = Some new) as Hcur.
  { unfold getCurrentVersion. simpl. rewrite Hp. simpl.
    change (findVersion (Project.versions p ++ [new]) versionId = Some new).
    rewrite (findVersion_snoc (Project.versions p) new versionId), Hnew.
    simpl. by rewrite String.eqb_refl. }
  assert (project (snd (addVersion imageUrl prompt mask (Version.id c) versionId now st))
          = Some {| Project.id := Project.id p; Project.name := Project.name p;
                    Project.versions := Project.versions p ++ [new];
                    Project.currentVersionId := versionId;
                    Project.createdAt := Project.createdAt p;
                    Project.updatedAt := now |}) as Hproj.
  { simpl. by rewrite Hp. }
  split; [done|]. split; [exact Hcur|]. split.
  - unfold getVersionHistory.
    change (getCurrentVersion (setIsGenerating false ?s)) with (getCurrentVersion s).
    change (project (setIsGenerating false ?s)) with (project s).
    rewrite Hproj, Hcur. cbn [Project.versions walkHistory].
    assert (parentOf (Project.versions p ++ [new]) new = Some c) as ->.
    { unfold parentOf. simpl. rewrite Htruthy. by apply findVersion_app_l. }
    rewrite walkHistory_snoc_fresh; [|intros w Hw; by destruct (Hfresh p w Hp Hw)|done].
    rewrite walkHistory_acc, Hwalk. done.
  - simpl. rewrite Hp. done.
Qed.

Lemma handleGenerate_extends_history_witness :
  getVersionHistory 3
    (snd (handleGenerateSettle "make it red" None
            (fst (addVersion "img-a" "make it blue" None "r" "a" 2 rootStore))
            (inl "img-b") "b" 3 (setCurrentVersion "r" 9 sampleStore)))
  = Some [rootVersion;
          fst (addVersion "img-a" "make it blue" None "r" "a" 2 rootStore);
          fst (addVersion "img-b" "make it red" None "a" "b" 3 rootStore)].
Proof.
  refine (proj1 (proj2 (proj2 (handleGenerate_extends_history
    (setCurrentVersion "r" 9 sampleStore)
    {| Project.id := "p"; Project.name := "demo";
       Project.versions :=
         [rootVersion; fst (addVersion "img-a" "make it blue" None "r" "a" 2 rootStore)];
       Project.currentVersionId := "r";
       Project.createdAt := 1; Project.updatedAt := 9 |}
    (fst (addVersion "img-a" "make it blue" None "r" "a" 2 rootStore))
    "make it red" "img-b" "b" None 3%Z 2%nat
    [rootVersion; fst (addVersion "img-a" "make it blue" None "r" "a" 2 rootStore)]
    eq_refl eq_refl eq_refl _ eq_refl)))).
  split; [discriminate|].
  intros q v Hq Hv. injection Hq as <-. simpl in Hv.
  destruct Hv as [<-|[<-|[]]]; simpl; split; discriminate.
Defined.
(** A change of the flaws of versions leaves lookups and walks as they are,
    up to that change. *)
Lemma findVersion_map (g : Version.t -> Version.t) versions id :
  (forall v, Version.id (g v) = Version.id v) ->
  findVersion (List.map g versions) id = g <$> findVersion versions id.
Proof.
  intros Hid. unfold findVersion. induction versions as [|a l IH]; simpl; [done|].
  rewrite Hid. by destruct (String.eqb (Version.id a) id).
Qed.

Lemma walkHistory_map (g : Version.t -> Version.t) fuel versions :
  (forall v, Version.id (g v) = Version.id v) ->
  (forall v, Version.parentId (g v) = Version.parentId v) ->
  forall version history,
    walkHistory fuel (List.map g versions) (g <$> version) (List.map g history)
    = List.map g <$> walkHistory fuel versions version history.
Proof.
  intros Hid Hpar. induction fuel as [|fuel IH]; intros [v|] history; simpl; try done.
  rewrite <- (IH (parentOf versions v) (v :: history)). simpl. f_equal.
  unfold parentOf. rewrite Hpar. destruct (Version.parentId v) as [pid|]; [|done].
  destruct (truthy pid); [|done]. by apply findVersion_map.
Qed.

Lemma getVersionHistory_map (g : Version.t -> Version.t) fuel st st' p now :
  (forall v, Version.id (g v) = Version.id v) ->
  (forall v, Version.parentId (g v) = Version.parentId v) ->
  project st = Some p ->
  project st' = Some (withVersions p (List.map g (Project.versions p)) now) ->
  getVersionHistory fuel st' = List.map g <$> getVersionHistory fuel st.
Proof.
  intros Hid Hpar Hp Hp'. unfold getVersionHistory, getCurrentVersion.
  rewrite Hp, Hp'. simpl. rewrite findVersion_map by done.
  destruct (findVersion (Project.versions p) (Project.currentVersionId p)) as [c|];
    simpl; [|done].
  exact (walkHistory_map g fuel (Project.versions p) Hid Hpar (Some c) []).
Qed.

(** X5. [addFlaw] and [resolveFlaw] never touch the version graph: the
    history afterwards lists the same versions, by identifier, parent link
    and image, as before. *)
Theorem flaws_keep_history
    (st : ProjectState) (fuel : nat) (point : Z * Z)
    (description flawId : string) (createdAt now : Z) :
  let same (st' : ProjectState) :=
    List.map (fun v => (Version.id v, Version.parentId v, Version.imageUrl v))
      <$> getVersionHistory fuel st'
    = List.map (fun v => (Version.id v, Version.parentId v, Version.imageUrl v))
      <$> getVersionHistory fuel st in
  same (addFlaw point description flawId createdAt now st) /\
  same (resolveFlaw flawId now st).
Proof.
  cbv zeta. destruct (project st) as [p|] eqn:Hp.
  2:{ unfold addFlaw, resolveFlaw. by rewrite Hp. }
  assert (forall (g : Version.t -> Version.t) st',
    (forall v, Version.id (g v) = Version.id v /\
               Version.parentId (g v) = Version.parentId v /\
               Version.imageUrl (g v) = Version.imageUrl v) ->
    project st' = Some (withVersions p (List.map g (Project.versions p)) now) ->
    List.map (fun v => (Version.id v, Version.parentId v, Version.imageUrl v))
      <$> getVersionHistory fuel st'
    = List.map (fun v => (Version.id v, Version.parentId v, Version.imageUrl v))
      <$> getVersionHistory fuel st) as Hsame.
  { intros g st' Hg Hp'.
    rewrite (getVersionHistory_map g fuel st st' p now
               (fun v => proj1 (Hg v)) (fun v => proj1 (proj2 (Hg v))) Hp Hp').
    destruct (getVersionHistory fuel st) as [h|]; simpl; [|done].
    f_equal. rewrite List.map_map. apply List.map_ext. intros v.
    destruct (Hg v) as (-> & -> & ->). done. }
  split.
  - eapply Hsame; [|unfold addFlaw; rewrite Hp; reflexivity].
    intros v. simpl.
    by destruct (String.eqb (Version.id v) (Project.currentVersionId p)).
  - eapply Hsame; [|unfold resolveFlaw; rewrite Hp; reflexivity].
    intros v. simpl.
    by destruct (String.eqb (Version.id v) (Project.currentVersionId p)).
Qed.

Lemma getCurrentVersion_map (g : Version.t -> Version.t) st st' p now :
  (forall v, Version.id (g v) = Version.id v) ->
  project st = Some p ->
  project st' = Some (withVersions p (List.map g (Project.versions p)) now) ->
  getCurrentVersion st' = g <$> getCurrentVersion st /\
  forall id, getVersionById id st' = g <$> getVersionById id st.
Proof.
  intros Hid Hp Hp'. unfold getCurrentVersion, getVersionById. rewrite Hp, Hp'. simpl.
  split; [|intros id]; by apply findVersion_map.
Qed.

Lemma getCurrentVersion_id st c :
  getCurrentVersion st = Some c ->
  exists p, project st = Some p /\ Version.id c = Project.currentVersionId p.
Proof.
  unfold getCurrentVersion. destruct (project st) as [p|]; [|done].
  intros Hc. apply findVersion_Some in Hc as [Hid _]. eauto.
Qed.

(** X6. [addFlaw] appends one unresolved flaw to the current version and
    selects it: the flaw badge of the current version goes up by one, and
    every version with another identifier is found unchanged. *)
Theorem addFlaw_current
    (st : ProjectState) (c : Version.t) (point : Z * Z)
    (description flawId : string) (createdAt now : Z) :
  getCurrentVersion st = Some c ->
  let st' := addFlaw point description flawId createdAt now st in
  let newFlaw :=
    {| Flaw.id := flawId; Flaw.point := point; Flaw.description := description;
       Flaw.resolved := false; Flaw.createdAt := createdAt |} in
  getCurrentVersion st' = Some (withFlaws c (Version.flaws c ++ [newFlaw])) /\
  (forall c', getCurrentVersion st' = Some c' ->
     unresolvedFlaws c' = S (unresolvedFlaws c)) /\
  selectedFlawId st' = Some flawId /\
  (forall id, id <> Version.id c -> getVersionById id st' = getVersionById id st).
Proof.
  intros Hc. cbv zeta.
  destruct (getCurrentVersion_id _ _ Hc) as (p & Hp & Hid).
  set (newFlaw := {| Flaw.id := flawId; Flaw.point := point;
                     Flaw.description := description;
                     Flaw.resolved := false; Flaw.createdAt := createdAt |}).
  set (g := fun v : Version.t =>
              if String.eqb (Version.id v) (Project.currentVersionId p)
              then withFlaws v (Version.flaws v ++ [newFlaw]) else v).
  assert (forall v, Version.id (g v) = Version.id v) as Hg.
  { intros v. unfold g. by destruct (String.eqb _ _). }
  destruct (getCurrentVersion_map g st
              (addFlaw point description flawId createdAt now st) p now Hg Hp)
    as [Hcur Hby].
  { unfold addFlaw. rewrite Hp. reflexivity. }
  assert (getCurrentVersion (addFlaw point description flawId createdAt now st)
          = Some (withFlaws c (Version.flaws c ++ [newFlaw]))) as Hcur'.
  { rewrite Hcur, Hc. simpl. unfold g. by rewrite Hid, String.eqb_refl. }
  split; [exact Hcur'|]. split; [|split].
  - intros c' Hc'. rewrite Hcur' in Hc'. injection Hc' as <-.
    unfold unresolvedFlaws. simpl. rewrite List.filter_app, length_app. simpl. lia.
  - unfold addFlaw. by rewrite Hp.
  - intros id Hne. rewrite Hby.
    destruct (getVersionById id st) as [v|] eqn:Hv; [|done]. simpl. f_equal.
    unfold getVersionById in Hv. rewrite Hp in Hv.
    apply findVersion_Some in Hv as [Hv _]. unfold g.
    destruct (String.eqb (Version.id v) (Project.currentVersionId p)) eqn:E; [|done].
    apply String.eqb_eq in E. congruence.
Qed.

Lemma addFlaw_current_witness :
  (Version.flaws <$> getCurrentVersion (addFlaw (3, 4)%Z "seam" "f1" 7 8 sampleStore))
  = Some [ {| Flaw.id := "f1"; Flaw.point := (3, 4)%Z; Flaw.description := "seam";
              Flaw.resolved := false; Flaw.createdAt := 7 |} ].
Proof.
  rewrite (proj1 (addFlaw_current sampleStore
    (fst (addVersion "img-a" "make it blue" None "r" "a" 2 rootStore))
    (3, 4)%Z "seam" "f1" 7%Z 8%Z eq_refl)).
  reflexivity.
Defined.

(** X7. When the current pointer names no version, [addFlaw] stores the
    flaw nowhere (every version keeps its flaws) and still selects the new
    flaw identifier. *)
Theorem addFlaw_without_current
    (st : ProjectState) (p : Project.t) (point : Z * Z)
    (description flawId : string) (createdAt now : Z) :
  project st = Some p ->
  getCurrentVersion st = None ->
  let st' := addFlaw point description flawId createdAt now st in
  project st' = Some (withVersions p (Project.versions p) now) /\
  selectedFlawId st' = Some flawId.
Proof.
  intros Hp Hc. cbv zeta. unfold addFlaw. rewrite Hp. simpl. split; [|done].
  do 2 f_equal. unfold getCurrentVersion in Hc. rewrite Hp in Hc.
  unfold findVersion in Hc.
  rewrite <- (List.map_id (Project.versions p)) at 2.
  apply List.map_ext_in. intros v Hv.
  pose proof (find_none _ _ Hc v Hv) as Hf. simpl in Hf. by rewrite Hf.
Qed.

Lemma addFlaw_without_current_witness :
  Project.versions <$>
    project (addFlaw (3, 4)%Z "seam" "f1" 7 8 (setCurrentVersion "zzz" 5 sampleStore))
  = Project.versions <$> project sampleStore /\
  selectedFlawId (addFlaw (3, 4)%Z "seam" "f1" 7 8 (setCurrentVersion "zzz" 5 sampleStore))
  = Some "f1".
Proof.
  destruct (addFlaw_without_current (setCurrentVersion "zzz" 5 sampleStore)
    {| Project.id := "p"; Project.name := "demo";
       Project.versions :=
         [rootVersion; fst (addVersion "img-a" "make it blue" None "r" "a" 2 rootStore)];
       Project.currentVersionId := "zzz";
       Project.createdAt := 1; Project.updatedAt := 5 |}
    (3, 4)%Z "seam" "f1" 7%Z 8%Z eq_refl eq_refl) as [Hv Hs].
  split; [by rewrite Hv|exact Hs].
Defined.

Lemma unresolved_after_resolve flawId (flaws : list Flaw.t) :
  length (List.filter (fun f => negb (Flaw.resolved f))
            (List.map (fun f => if String.eqb (Flaw.id f) flawId then resolved f else f)
                      flaws))
  = length (List.filter (fun f => negb (Flaw.resolved f) && negb (String.eqb (Flaw.id f) flawId))
              flaws).
Proof.
  induction flaws as [|f l IH]; simpl; [done|].
  destruct (String.eqb (Flaw.id f) flawId); simpl.
  - by rewrite andb_false_r.
  - rewrite andb_true_r. destruct (Flaw.resolved f); simpl; by rewrite IH.
Qed.

Lemma filter_length_le {A} (f g : A -> bool) (l : list A) :
  (forall a, f a = true -> g a = true) ->
  (length (List.filter f l) <= length (List.filter g l))%nat.
Proof.
  intros Hfg. induction l as [|a l IH]; simpl; [lia|].
  destruct (f a) eqn:Ef.
  - rewrite (Hfg a Ef). simpl. lia.
  - destruct (g a); simpl; lia.
Qed.

(** X8. [resolveFlaw] marks as resolved every flaw of the current version
    that carries the identifier, and nothing else: the flaws stay recorded
    in the same order, no flaw becomes unresolved, the flaw badge does not
    go up, versions with another identifier are found unchanged, and
    resolving the same flaw again changes nothing. *)
Theorem resolveFlaw_current
    (st : ProjectState) (c : Version.t) (flawId : string) (now now' : Z) :
  getCurrentVersion st = Some c ->
  let st' := resolveFlaw flawId now st in
  (exists c', getCurrentVersion st' = Some c' /\
     List.map Flaw.id (Version.flaws c') = List.map Flaw.id (Version.flaws c) /\
     (forall f, In f (Version.flaws c') -> Flaw.id f = flawId -> Flaw.resolved f = true) /\
     (forall (i : nat) f, Version.flaws c !! i = Some f ->
        exists f', Version.flaws c' !! i = Some f' /\
          (Flaw.id f <> flawId -> f' = f) /\
          (Flaw.resolved f = true -> Flaw.resolved f' = true)) /\
     (unresolvedFlaws c' <= unresolvedFlaws c)%nat) /\
  (forall id, id <> Version.id c -> getVersionById id st' = getVersionById id st) /\
  resolveFlaw flawId now (resolveFlaw flawId now' st) = st'.
Proof.
  intros Hc. cbv zeta.
  destruct (getCurrentVersion_id _ _ Hc) as (p & Hp & Hid).
  set (r := fun f : Flaw.t => if String.eqb (Flaw.id f) flawId then resolved f else f).
  set (g := fun v : Version.t =>
              if String.eqb (Version.id v) (Project.currentVersionId p)
              then withFlaws v (List.map r (Version.flaws v)) else v).
  assert (forall v, Version.id (g v) = Version.id v) as Hg.
  { intros v. unfold g. by destruct (String.eqb _ _). }
  destruct (getCurrentVersion_map g st (resolveFlaw flawId now st) p now Hg Hp)
    as [Hcur Hby].
  { unfold resolveFlaw. rewrite Hp. reflexivity. }
  split; [|split].
  - exists (withFlaws c (List.map r (Version.flaws c))). split.
    { rewrite Hcur, Hc. simpl. unfold g. by rewrite Hid, String.eqb_refl. }
    simpl. split; [|split; [|split]].
    + rewrite List.map_map. apply List.map_ext. intros f. unfold r.
      by destruct (String.eqb (Flaw.id f) flawId).
    + intros f Hf Hfid. apply List.in_map_iff in Hf as (f0 & <- & _).
      unfold r in *. destruct (String.eqb (Flaw.id f0) flawId) eqn:E; [done|].
      apply String.eqb_neq in E. done.
    + intros i f Hf. exists (r f). split.
      { by rewrite list_lookup_fmap, Hf. }
      unfold r. destruct (String.eqb (Flaw.id f) flawId) eqn:E; split; try done.
      intros Hne. apply String.eqb_eq in E. done.
    + unfold unresolvedFlaws. simpl. unfold r. rewrite unresolved_after_resolve.
      apply filter_length_le. intros f Hf. by apply andb_true_iff in Hf as [-> _].
  - intros id Hne. rewrite Hby.
    destruct (getVersionById id st) as [v|] eqn:Hv; [|done]. simpl. f_equal.
    unfold getVersionById in Hv. rewrite Hp in Hv.
    apply findVersion_Some in Hv as [Hv _]. unfold g.
    destruct (String.eqb (Version.id v) (Project.currentVersionId p)) eqn:E; [|done].
    apply String.eqb_eq in E. congruence.
  - unfold resolveFlaw. rewrite Hp. simpl. do 2 f_equal. unfold withVersions. simpl.
    f_equal. rewrite List.map_map. apply List.map_ext. intros v.
    destruct (String.eqb (Version.id v) (Project.currentVersionId p)) eqn:E; simpl;
      rewrite E; [|done].
    unfold withFlaws. simpl. f_equal. rewrite List.map_map. apply List.map_ext.
    intros f. destruct (String.eqb (Flaw.id f) flawId) eqn:Ef; simpl; by rewrite Ef.
Qed.

Lemma resolveFlaw_current_witness :
  (unresolvedFlaws <$>
     getCurrentVersion (resolveFlaw "f1" 9 (addFlaw (3, 4)%Z "seam" "f1" 7 8 sampleStore)))
  = Some 0%nat.
Proof.
  destruct (resolveFlaw_current (addFlaw (3, 4)%Z "seam" "f1" 7 8 sampleStore)
    {| Version.id := "a"; Version.imageUrl := "img-a"; Version.parentId := Some "r";
       Version.prompt := "make it blue"; Version.mask := None;
       Version.flaws := [ {| Flaw.id := "f1"; Flaw.point := (3, 4)%Z;
                             Flaw.description := "seam"; Flaw.resolved := false;
                             Flaw.createdAt := 7 |} ];
       Version.createdAt := 2 |}
    "f1" 9%Z 9%Z eq_refl) as [(c' & Hc' & _) _].
  rewrite Hc'. revert Hc'. vm_compute. intros [= <-]. reflexivity.
Defined.

(** X9. Marking a flaw and then resolving it, when its identifier is new
    among the flaws of the current version, leaves the flaw badge of the
    current version where it was, while the flaw stays recorded. *)
Theorem addFlaw_resolveFlaw
    (st : ProjectState) (c : Version.t) (point : Z * Z)
    (description flawId : string) (createdAt now now' : Z) :
  getCurrentVersion st = Some c ->
  (forall f, In f (Version.flaws c) -> Flaw.id f <> flawId) ->
  exists c',
    getCurrentVersion
      (resolveFlaw flawId now' (addFlaw point description flawId createdAt now st))
      = Some c' /\
    unresolvedFlaws c' = unresolvedFlaws c /\
    length (Version.flaws c') = S (length (Version.flaws c)).
Proof.
  intros Hc Hfresh.
  destruct (getCurrentVersion_id _ _ Hc) as (p & Hp & Hid).
  set (newFlaw := {| Flaw.id := flawId; Flaw.point := point;
                     Flaw.description := description;
                     Flaw.resolved := false; Flaw.createdAt := createdAt |}).
  set (r := fun f : Flaw.t => if String.eqb (Flaw.id f) flawId then resolved f else f).
  exists (withFlaws c (List.map r (Version.flaws c ++ [newFlaw]))). split; [|split].
  - unfold getCurrentVersion, resolveFlaw, addFlaw. rewrite Hp. simpl.
    unfold getCurrentVersion in Hc. rewrite Hp in Hc.
    unfold findVersion in *. rewrite List.map_map.
    induction (Project.versions p) as [|v l IH]; simpl in *; [done|].
    destruct (String.eqb (Version.id v) (Project.currentVersionId p)) eqn:E; simpl.
    + rewrite E. simpl. rewrite E. by injection Hc as ->.
    + rewrite E. simpl. rewrite E. by apply IH.
  - unfold unresolvedFlaws. simpl. unfold r. rewrite unresolved_after_resolve.
    rewrite List.filter_app, length_app. simpl. rewrite String.eqb_refl. simpl.
    rewrite Nat.add_0_r. f_equal. apply List.filter_ext_in. intros f Hf.
    apply Hfresh, String.eqb_neq in Hf. rewrite Hf. by rewrite andb_true_r.
  - simpl. rewrite length_map, length_app. simpl. lia.
Qed.

Lemma addFlaw_resolveFlaw_witness :
  exists c',
    getCurrentVersion (resolveFlaw "f1" 9 (addFlaw (3, 4)%Z "seam" "f1" 7 8 sampleStore))
      = Some c' /\
    unresolvedFlaws c' = 0%nat /\ length (Version.flaws c') = 1%nat.
Proof.
  exact (addFlaw_resolveFlaw sampleStore
    (fst (addVersion "img-a" "make it blue" None "r" "a" 2 rootStore))
    (3, 4)%Z "seam" "f1" 7%Z 8%Z 9%Z eq_refl (fun f (H : In f []) => match H with end)).
Defined.

(** * Properties of the data URL handling *)

Lemma append_assoc (a b c : string) :
  ((a ++ b) ++ c = a ++ (b ++ c))%string.
Proof.
  induction a as [|x a IH]; [done|].
  change (String x ((a ++ b) ++ c) = String x (a ++ (b ++ c)))%string.
  by rewrite IH.
Qed.

Lemma includes_app sep (a b : string) :
  includes sep (a ++ b) = includes sep a || includes sep b.
Proof.
  induction a as [|c a IH]; simpl; [done|]. by destruct (Ascii.eqb c sep).
Qed.

Lemma includes_tail sep c (s : string) :
  includes sep (String c s) = false -> includes sep s = false.
Proof. simpl. by destruct (Ascii.eqb c sep). Qed.

Lemma split_no_separator sep (s : string) :
  includes sep s = false -> split sep s = [s].
Proof.
  induction s as [|c s IH]; simpl; [done|].
  destruct (Ascii.eqb c sep); [done|]. intros Hs. by rewrite IH.
Qed.

Lemma split_at_separator sep (a b : string) :
  includes sep a = false ->
  split sep (a ++ String sep b) = a :: split sep b.
Proof.
  induction a as [|c a IH]; simpl.
  - by rewrite Ascii.eqb_refl.
  - destruct (Ascii.eqb c sep); [done|]. intros Ha. by rewrite IH.
Qed.

Lemma split_head sep (s : string) :
  exists piece pieces, split sep s = piece :: pieces /\
    (includes sep s = true -> pieces <> []).
Proof.
  induction s as [|c s (piece & pieces & IH & Hne)]; simpl.
  - by exists EmptyString, [].
  - destruct (Ascii.eqb c sep).
    + exists EmptyString, (split sep s). split; [done|]. intros _. by rewrite IH.
    + rewrite IH. exists (String c piece), pieces. done.
Qed.

(** X10. The payload [handleGenerate] sends is the payload uploaded: from
    the data URL built at upload, [extractBase64] recovers the base64 text,
    provided neither the MIME type nor the text contains a comma. A URL
    without comma is passed on whole, the result is never [undefined], and
    what follows a second comma is cut off. *)
Theorem extractBase64_dataUrl (fileType base64 : string) :
  includes "," fileType = false ->
  includes "," base64 = false ->
  extractBase64 (dataUrl fileType base64) = Some base64 /\
  (forall rest, extractBase64 (dataUrl fileType (base64 ++ String "," rest))
                = Some base64) /\
  extractBase64 base64 = Some base64 /\
  (forall url, is_Some (extractBase64 url)).
Proof.
  intros Hft Hb.
  assert (forall tail, dataUrl fileType tail
            = (("data:" ++ fileType ++ ";base64") ++ String "," tail)%string) as Hurl.
  { intros tail. unfold dataUrl. by rewrite !append_assoc. }
  assert (includes "," ("data:" ++ fileType ++ ";base64")%string = false) as Hprefix.
  { rewrite !includes_app, Hft. reflexivity. }
  assert (forall tail, includes "," (dataUrl fileType tail) = true) as Hinc.
  { intros tail. rewrite Hurl, includes_app, Hprefix. reflexivity. }
  split; [|split; [|split]].
  - unfold extractBase64. rewrite Hinc, Hurl, split_at_separator by done.
    by rewrite split_no_separator.
  - intros rest. unfold extractBase64. rewrite Hinc, Hurl, split_at_separator by done.
    by rewrite split_at_separator.
  - unfold extractBase64. by rewrite Hb.
  - intros url. unfold extractBase64.
    destruct (includes "," url) eqn:E; [|by eexists].
    destruct (split_head "," url) as (piece & pieces & -> & Hne).
    destruct pieces as [|second pieces]; [by destruct (Hne E)|]. by eexists.
Qed.

Lemma extractBase64_dataUrl_witness :
  extractBase64 (dataUrl "image/png" "iVBORw0KGgo=") = Some "iVBORw0KGgo=".
Proof.
  exact (proj1 (extractBase64_dataUrl "image/png" "iVBORw0KGgo=" eq_refl eq_refl)).
Defined.

(** * Properties of the compositing *)

Lemma toUint8Clamped_bytes data j v :
  isBytes data -> readAt data j = Some v -> toUint8Clamped (readAt data j) = v.
Proof.
  intros Hb Hr. rewrite Hr. simpl. unfold readAt in Hr.
  destruct (j <? 0)%Z; [done|].
  apply list_elem_of_lookup_2 in Hr.
  unfold isBytes in Hb. rewrite Forall_forall in Hb. specialize (Hb v Hr). lia.
Qed.

Lemma length_compositeStep maskData genData originalData key :
  length (compositeStep maskData genData originalData key) = length originalData.
Proof.
  unfold compositeStep. destruct (isWhite maskData key); [|done].
  by rewrite !length_writeAt.
Qed.

(** Channel [j] after the iteration for pixel [key]. *)
Lemma readAt_compositeStep maskData genData originalData key j :
  (0 <= key)%Z -> (key * 4 + 3 < Z.of_nat (length originalData))%Z ->
  readAt (compositeStep maskData genData originalData key) j =
    if isWhite maskData key && bool_decide (key * 4 <= j < key * 4 + 3)%Z
    then Some (toUint8Clamped (readAt genData j))
    else readAt originalData j.
Proof.
  intros Hk Hlen. unfold compositeStep.
  destruct (isWhite maskData key); simpl; [|done].
  case_bool_decide as Hj.
  - assert (j = key * 4 \/ j = key * 4 + 1 \/ j = key * 4 + 2)%Z as Hcs by lia.
    destruct Hcs as [-> | [-> | ->]].
    + rewrite !readAt_writeAt_ne by lia. apply readAt_writeAt_eq. lia.
    + rewrite !readAt_writeAt_ne by lia.
      apply readAt_writeAt_eq. rewrite !length_writeAt. lia.
    + apply readAt_writeAt_eq. rewrite !length_writeAt. lia.
  - rewrite !readAt_writeAt_ne by lia. done.
Qed.

(** The buffer after the iterations for the pixels [0 .. m - 1]. *)
Lemma readAt_composite_prefix maskData genData originalData (n m : nat) j :
  length originalData = (n * 4)%nat -> (m <= n)%nat ->
  let result :=
    foldl (compositeStep maskData genData) originalData (seqZ 0 (Z.of_nat m)) in
  length result = (n * 4)%nat /\
  readAt result j =
    if isWhite maskData (j / 4) && bool_decide (0 <= j < Z.of_nat m * 4)%Z
       && bool_decide (j mod 4 < 3)%Z
    then Some (toUint8Clamped (readAt genData j))
    else readAt originalData j.
Proof.
  intros Hlen. induction m as [|m IH]; intros Hm result.
  - subst result. simpl. split; [done|].
    rewrite bool_decide_eq_false_2 by lia. by rewrite andb_false_r.
  - subst result. rewrite seqZ_S, foldl_snoc. simpl in IH.
    destruct IH as [IHlen IHread]; [lia|].
    split; [by rewrite length_compositeStep|].
    rewrite readAt_compositeStep by lia. rewrite IHread. clear IHread.
    pose proof (Z.div_mod j 4 ltac:(lia)) as Hdm.
    pose proof (Z.mod_pos_bound j 4 ltac:(lia)) as Hmod.
    rewrite Z.add_0_l.
    assert (j < 0 \/ 0 <= j < Z.of_nat m * 4 \/
            Z.of_nat m * 4 <= j < Z.of_nat m * 4 + 3 \/
            j = Z.of_nat m * 4 + 3 \/ Z.of_nat (S m) * 4 <= j)%Z as Hcs by lia.
    destruct Hcs as [Hj | [Hj | [Hj | [Hj | Hj]]]].
    + rewrite (bool_decide_eq_false_2 (Z.of_nat m * 4 <= j < _)%Z) by lia.
      rewrite (bool_decide_eq_false_2 (0 <= j < Z.of_nat m * 4)%Z) by lia.
      rewrite (bool_decide_eq_false_2 (0 <= j < Z.of_nat (S m) * 4)%Z) by lia.
      by destruct (isWhite maskData (j / 4)), (isWhite maskData (Z.of_nat m)).
    + rewrite (bool_decide_eq_false_2 (Z.of_nat m * 4 <= j < _)%Z) by lia.
      rewrite (bool_decide_eq_true_2 (0 <= j < Z.of_nat m * 4)%Z) by lia.
      rewrite (bool_decide_eq_true_2 (0 <= j < Z.of_nat (S m) * 4)%Z) by lia.
      by destruct (isWhite maskData (j / 4)), (isWhite maskData (Z.of_nat m)).
    + assert (j / 4 = Z.of_nat m)%Z as -> by lia.
      rewrite (bool_decide_eq_true_2 (Z.of_nat m * 4 <= j < _)%Z) by lia.
      rewrite (bool_decide_eq_false_2 (0 <= j < Z.of_nat m * 4)%Z) by lia.
      rewrite (bool_decide_eq_true_2 (0 <= j < Z.of_nat (S m) * 4)%Z) by lia.
      rewrite (bool_decide_eq_true_2 (j mod 4 < 3)%Z) by lia.
      by destruct (isWhite maskData (Z.of_nat m)).
    + rewrite (bool_decide_eq_false_2 (Z.of_nat m * 4 <= j < _)%Z) by lia.
      rewrite (bool_decide_eq_false_2 (0 <= j < Z.of_nat m * 4)%Z) by lia.
      rewrite (bool_decide_eq_false_2 (j mod 4 < 3)%Z) by lia.
      rewrite !andb_false_r. done.
    + rewrite (bool_decide_eq_false_2 (Z.of_nat m * 4 <= j < _)%Z) by lia.
      rewrite (bool_decide_eq_false_2 (0 <= j < Z.of_nat m * 4)%Z) by lia.
      rewrite (bool_decide_eq_false_2 (0 <= j < Z.of_nat (S m) * 4)%Z) by lia.
      by destruct (isWhite maskData (j / 4)), (isWhite maskData (Z.of_nat m)).
Qed.

Lemma pixel_channel (key : nat) (c : Z) :
  (0 <= c < 4)%Z ->
  ((Z.of_nat key * 4 + c) / 4 = Z.of_nat key)%Z /\
  ((Z.of_nat key * 4 + c) mod 4 = c)%Z.
Proof.
  intros Hc. split.
  - rewrite Z.add_comm, Z.div_add by lia. rewrite Z.div_small by lia. lia.
  - rewrite Z.add_comm, Z.mod_add by lia. apply Z.mod_small. lia.
Qed.

(** The loop runs once per pixel: channel [j] of the result, for buffers of
    [n] pixels each. *)
Lemma readAt_compositePixels maskData genData originalData (n : nat) j :
  length maskData = (n * 4)%nat -> length originalData = (n * 4)%nat ->
  length (compositePixels maskData genData originalData) = (n * 4)%nat /\
  readAt (compositePixels maskData genData originalData) j =
    if isWhite maskData (j / 4) && bool_decide (0 <= j < Z.of_nat n * 4)%Z
       && bool_decide (j mod 4 < 3)%Z
    then Some (toUint8Clamped (readAt genData j))
    else readAt originalData j.
Proof.
  intros Hmask Horig. unfold compositePixels.
  replace ((Z.of_nat (length maskData) + 3) / 4)%Z with (Z.of_nat n).
  2:{ rewrite Hmask. apply Z.div_unique with (r := 3%Z); lia. }
  apply (readAt_composite_prefix maskData genData originalData n n j Horig). lia.
Qed.

(** X11. [compositeImages] replaces the colour of exactly the pixels whose
    mask value (red channel) exceeds 128: for buffers of [n] pixels each,
    the result has [n] pixels, a pixel that passes the test has the red,
    green and blue of the generated image, its alpha and every channel of
    every other pixel are those of the original. *)
Theorem compositePixels_replaces_selection maskData genData originalData (n : nat) :
  length maskData = (n * 4)%nat -> length genData = (n * 4)%nat ->
  length originalData = (n * 4)%nat -> isBytes genData ->
  let result := compositePixels maskData genData originalData in
  length result = (n * 4)%nat /\
  forall (key : nat) (c : Z), (key < n)%nat -> (0 <= c < 4)%Z ->
    readAt result (Z.of_nat key * 4 + c) =
      if isWhite maskData (Z.of_nat key) && (c <? 3)%Z
      then readAt genData (Z.of_nat key * 4 + c)
      else readAt originalData (Z.of_nat key * 4 + c).
Proof.
  intros Hmask Hgen Horig Hbytes result. subst result. split.
  - apply (readAt_compositePixels maskData genData originalData n 0 Hmask Horig).
  - intros key c Hkey Hc.
    destruct (readAt_compositePixels maskData genData originalData n
                (Z.of_nat key * 4 + c) Hmask Horig) as [_ ->].
    destruct (pixel_channel key c Hc) as [-> ->].
    rewrite (bool_decide_eq_true_2 (0 <= _ < _)%Z) by lia. rewrite andb_true_r.
    destruct (Z.ltb_spec c 3).
    + rewrite bool_decide_eq_true_2 by done.
      destruct (isWhite maskData (Z.of_nat key)); simpl; [|done].
      destruct (readAt_Some genData (Z.of_nat key * 4 + c)) as [v Hv]; [lia|].
      rewrite Hv. f_equal. rewrite <- Hv. by apply toUint8Clamped_bytes.
    + rewrite bool_decide_eq_false_2 by lia. by rewrite andb_false_r.
Qed.

Lemma compositePixels_replaces_selection_witness :
  length (compositePixels [255; 255; 255; 255; 0; 0; 0; 0]%Z
            [1; 2; 3; 4; 5; 6; 7; 8]%Z [9; 9; 9; 9; 9; 9; 9; 9]%Z) = (2 * 4)%nat.
Proof.
  refine (proj1 (compositePixels_replaces_selection
    [255; 255; 255; 255; 0; 0; 0; 0]%Z [1; 2; 3; 4; 5; 6; 7; 8]%Z
    [9; 9; 9; 9; 9; 9; 9; 9]%Z 2 eq_refl eq_refl eq_refl _)).
  unfold isBytes. repeat constructor; lia.
Defined.

Lemma compositePixels_unselected maskData genData originalData :
  (forall key, isWhite maskData key = false) ->
  compositePixels maskData genData originalData = originalData.
Proof.
  intros Hnone. unfold compositePixels.
  generalize (seqZ 0 ((Z.of_nat (length maskData) + 3) / 4)). intros keys.
  induction keys as [|key keys IH]; simpl; [done|].
  unfold compositeStep at 2. by rewrite Hnone.
Qed.

Lemma length_encode (m : list bool) : length (encode m) = (length m * 4)%nat.
Proof. unfold encode. by rewrite length_encodeFrom, length_replicate. Qed.

Lemma isWhite_encode (m : list bool) (key : Z) :
  isWhite (encode m) key =
    if (key <? 0)%Z then false else default false (m !! Z.to_nat key).
Proof.
  unfold isWhite. destruct (Z.ltb_spec key 0) as [Hneg|Hpos].
  - unfold readAt. by destruct (Z.ltb_spec (key * 4) 0); [|lia].
  - destruct (m !! Z.to_nat key) as [selected|] eqn:Hk.
    + pose proof (readAt_encode m (Z.to_nat key) 0 selected Hk ltac:(lia)) as Hr.
      rewrite Z.add_0_r, Z2Nat.id in Hr by lia. rewrite Hr. by destruct selected.
    + apply lookup_ge_None_1 in Hk. unfold readAt.
      destruct (Z.ltb_spec (key * 4) 0); [done|].
      rewrite lookup_ge_None_2; [done|]. rewrite length_encode. lia.
Qed.

(** X12. Compositing under the mask buffer of a selection [m]
    ([encode m], as [segmentAtPoint] builds it) gives every selected pixel
    the colour of the generated image and leaves its alpha, and all four
    channels of every unselected pixel, as in the original; under the
    buffer of the empty selection the original comes back unchanged. *)
Theorem compositePixels_encode (m : list bool) genData originalData :
  length genData = (length m * 4)%nat -> length originalData = (length m * 4)%nat ->
  isBytes genData ->
  (forall (key : nat) (c : Z) (selected : bool),
     m !! key = Some selected -> (0 <= c < 4)%Z ->
     readAt (compositePixels (encode m) genData originalData) (Z.of_nat key * 4 + c) =
       if selected && (c <? 3)%Z
       then readAt genData (Z.of_nat key * 4 + c)
       else readAt originalData (Z.of_nat key * 4 + c)) /\
  (Forall (fun selected => selected = false) m ->
     compositePixels (encode m) genData originalData = originalData).
Proof.
  intros Hgen Horig Hbytes. split.
  - intros key c selected Hk Hc.
    pose proof (lookup_lt_Some _ _ _ Hk) as Hlt.
    destruct (readAt_compositePixels (encode m) genData originalData (length m)
                (Z.of_nat key * 4 + c) (length_encode m) Horig) as [_ ->].
    destruct (pixel_channel key c Hc) as [-> ->].
    rewrite isWhite_encode. destruct (Z.ltb_spec (Z.of_nat key) 0); [lia|].
    rewrite Nat2Z.id, Hk. simpl.
    rewrite (bool_decide_eq_true_2 (0 <= _ < _)%Z) by lia. rewrite andb_true_r.
    destruct selected; simpl; [|done].
    destruct (Z.ltb_spec c 3).
    + rewrite bool_decide_eq_true_2 by done.
      destruct (readAt_Some genData (Z.of_nat key * 4 + c)) as [v Hv]; [lia|].
      rewrite Hv. f_equal. rewrite <- Hv. by apply toUint8Clamped_bytes.
    + by rewrite bool_decide_eq_false_2 by lia.
  - intros Hnone. apply compositePixels_unselected. intros key.
    rewrite isWhite_encode. destruct (key <? 0)%Z; [done|].
    destruct (m !! Z.to_nat key) as [selected|] eqn:Hk; [|done].
    rewrite Forall_forall in Hnone. apply Hnone.
    by apply list_elem_of_lookup_2 in Hk.
Qed.

Lemma compositePixels_encode_witness :
  compositePixels (encode [false; false]) [1; 2; 3; 4; 5; 6; 7; 8]%Z
      [9; 9; 9; 9; 9; 9; 9; 9]%Z
    = [9; 9; 9; 9; 9; 9; 9; 9]%Z.
Proof.
  refine (proj2 (compositePixels_encode [false; false] [1; 2; 3; 4; 5; 6; 7; 8]%Z
                   [9; 9; 9; 9; 9; 9; 9; 9]%Z eq_refl eq_refl _) _).
  - unfold isBytes. repeat constructor; lia.
  - repeat constructor.
Defined.

(** * Further properties of the mask scan *)

Lemma inBounds_scanPixels maskCanvas p :
  inBounds maskCanvas p -> p ∈ scanPixels maskCanvas.
Proof.
  destruct p as [x y]. unfold inBounds, scanPixels. simpl. intros [Hx Hy].
  apply list_elem_of_bind. exists y. split; [|apply elem_of_seqZ; lia].
  apply list_elem_of_bind. exists x. split; [|apply elem_of_seqZ; lia].
  by apply list_elem_of_singleton.
Qed.


Lemma lowestOf_add init (P P' : Z -> Prop) m a :
  lowestOf init P m -> (forall v, P' v <-> v = a \/ P v) ->
  lowestOf init P' (Z.min m a).
Proof.
  intros (Hle & Hinit & Hat) HP. split; [|split].
  - intros v Hv. apply HP in Hv as [->|Hv]; [lia|]. specialize (Hle v Hv). lia.
  - lia.
  - destruct (Z.min_spec m a) as [[Hlt ->]|[Hge ->]].
    + destruct Hat as [?|Hat]; [by left|]. right. apply HP. by right.
    + right. apply HP. by left.
Qed.

Lemma highestOf_add init (P P' : Z -> Prop) m a :
  highestOf init P m -> (forall v, P' v <-> v = a \/ P v) ->
  highestOf init P' (Z.max m a).
Proof.
  intros (Hle & Hinit & Hat) HP. split; [|split].
  - intros v Hv. apply HP in Hv as [->|Hv]; [lia|]. specialize (Hle v Hv). lia.
  - lia.
  - destruct (Z.max_spec m a) as [[Hlt ->]|[Hge ->]].
    + right. apply HP. by left.
    + destruct Hat as [?|Hat]; [by left|]. right. apply HP. by right.
Qed.

Lemma lowestOf_same init (P P' : Z -> Prop) m :
  lowestOf init P m -> (forall v, P' v <-> P v) -> lowestOf init P' m.
Proof.
  intros (Hle & Hinit & Hat) HP. split; [|split]; [|done|].
  - intros v Hv. apply Hle. by apply HP.
  - destruct Hat as [?|Hat]; [by left|]. right. by apply HP.
Qed.

Lemma highestOf_same init (P P' : Z -> Prop) m :
  highestOf init P m -> (forall v, P' v <-> P v) -> highestOf init P' m.
Proof.
  intros (Hle & Hinit & Hat) HP. split; [|split]; [|done|].
  - intros v Hv. apply Hle. by apply HP.
  - destruct Hat as [?|Hat]; [by left|]. right. by apply HP.
Qed.

Lemma whiteCoord_snoc maskCanvas seen p proj v :
  whiteCoord maskCanvas (seen ++ [p]) proj v <->
  (isWhite (ImageData.data maskCanvas) (keyOf maskCanvas p) = true /\ v = proj p) \/
  whiteCoord maskCanvas seen proj v.
Proof.
  unfold whiteCoord. split.
  - intros (q & Hq & Hw & Hv). apply elem_of_app in Hq as [Hq|Hq].
    + right. eauto.
    + apply list_elem_of_singleton in Hq. subst q. by left.
  - intros [[Hw ->]|(q & Hq & Hw & Hv)].
    + exists p. split; [|done]. apply elem_of_app. right. by apply list_elem_of_singleton.
    + exists q. split; [|done]. apply elem_of_app. by left.
Qed.

Lemma scanStep_scanned maskCanvas seen s p :
  scanned maskCanvas seen s -> scanned maskCanvas (seen ++ [p]) (scanStep maskCanvas s p).
Proof.
  intros (Hhas & HminX & HminY & HmaxX & HmaxY). unfold scanStep.
  destruct (isWhite (ImageData.data maskCanvas) (keyOf maskCanvas p)) eqn:Hw.
  - split; [|split; [|split; [|split]]]; simpl.
    + split; [|done]. intros _. exists p. split; [|done].
      apply elem_of_app. right. by apply list_elem_of_singleton.
    + eapply lowestOf_add; [done|]. intros v. rewrite whiteCoord_snoc. tauto.
    + eapply lowestOf_add; [done|]. intros v. rewrite whiteCoord_snoc. tauto.
    + eapply highestOf_add; [done|]. intros v. rewrite whiteCoord_snoc. tauto.
    + eapply highestOf_add; [done|]. intros v. rewrite whiteCoord_snoc. tauto.
  - assert (forall proj v, whiteCoord maskCanvas (seen ++ [p]) proj v <->
                           whiteCoord maskCanvas seen proj v) as Hsame.
    { intros proj v. rewrite whiteCoord_snoc. split; [|by right].
      intros [[Hw' _]|?]; [congruence|done]. }
    split; [|split; [|split; [|split]]].
    + rewrite Hhas. split.
      * intros (q & Hq & Hwq). exists q. split; [|done]. apply elem_of_app. by left.
      * intros (q & Hq & Hwq). apply elem_of_app in Hq as [Hq|Hq]; [eauto|].
        apply list_elem_of_singleton in Hq. subst q. congruence.
    + eapply lowestOf_same; [done|]. intros v. apply Hsame.
    + eapply lowestOf_same; [done|]. intros v. apply Hsame.
    + eapply highestOf_same; [done|]. intros v. apply Hsame.
    + eapply highestOf_same; [done|]. intros v. apply Hsame.
Qed.

Lemma foldl_scanned maskCanvas l : forall seen s,
  scanned maskCanvas seen s ->
  scanned maskCanvas (seen ++ l) (foldl (scanStep maskCanvas) s l).
Proof.
  induction l as [|p l IH]; intros seen s Hs; simpl.
  - by rewrite app_nil_r.
  - replace (seen ++ p :: l) with ((seen ++ [p]) ++ l) by (by rewrite <- app_assoc).
    apply IH. by apply scanStep_scanned.
Qed.

Lemma scanMask_scanned maskCanvas :
  scanned maskCanvas (scanPixels maskCanvas) (scanMask maskCanvas).
Proof.
  unfold scanMask. apply (foldl_scanned maskCanvas (scanPixels maskCanvas) []).
  split; [|split; [|split; [|split]]]; simpl.
  - split; [done|]. intros (p & Hp & _). by apply elem_of_nil in Hp.
  - split; [|split; [lia|by left]]. intros v (p & Hp & _). by apply elem_of_nil in Hp.
  - split; [|split; [lia|by left]]. intros v (p & Hp & _). by apply elem_of_nil in Hp.
  - split; [|split; [lia|by left]]. intros v (p & Hp & _). by apply elem_of_nil in Hp.
  - split; [|split; [lia|by left]]. intros v (p & Hp & _). by apply elem_of_nil in Hp.
Qed.

Lemma whiteCoord_scanPixels maskCanvas proj v :
  whiteCoord maskCanvas (scanPixels maskCanvas) proj v <->
  exists p, whitePixel maskCanvas p /\ proj p = v.
Proof.
  unfold whiteCoord, whitePixel. split.
  - intros (p & Hp & Hw & Hv). exists p. by apply scanPixels_inBounds in Hp.
  - intros (p & [Hp Hw] & Hv). exists p. by apply inBounds_scanPixels in Hp.
Qed.

(** X13. The scan at the end of a brush stroke ([handleMouseUp],
    [updateMaskFromCanvas]) finds a white pixel exactly when the mask canvas
    has one, and then its running extremes are the tight bounding box of
    the white pixels: every white pixel lies within them and each extreme is
    attained by a white pixel. The bounds handed to the store, which
    measure [maxX - minX] by [maxY - minY], have no negative component, and
    [x + width] and [y + height] are less than the width and the height of
    the canvas. *)
Theorem scanMask_bounding_box maskCanvas :
  let s := scanMask maskCanvas in
  let b := scanBounds s in
  (Scan.hasWhite s = true <-> exists p, whitePixel maskCanvas p) /\
  ((exists p, whitePixel maskCanvas p) ->
   (forall p, whitePixel maskCanvas p ->
      (Scan.minX s <= p.1 <= Scan.maxX s)%Z /\ (Scan.minY s <= p.2 <= Scan.maxY s)%Z) /\
   (exists p, whitePixel maskCanvas p /\ p.1 = Scan.minX s) /\
   (exists p, whitePixel maskCanvas p /\ p.1 = Scan.maxX s) /\
   (exists p, whitePixel maskCanvas p /\ p.2 = Scan.minY s) /\
   (exists p, whitePixel maskCanvas p /\ p.2 = Scan.maxY s) /\
   (0 <= Bounds.x b)%Z /\ (0 <= Bounds.y b)%Z /\
   (0 <= Bounds.width b)%Z /\ (0 <= Bounds.height b)%Z /\
   (Bounds.x b + Bounds.width b < ImageData.width maskCanvas)%Z /\
   (Bounds.y b + Bounds.height b < ImageData.height maskCanvas)%Z).
Proof.
  intros s b.
  destruct (scanMask_scanned maskCanvas) as (Hhas & HminX & HminY & HmaxX & HmaxY).
  fold s in Hhas, HminX, HminY, HmaxX, HmaxY.
  apply (lowestOf_same _ _ (fun v => exists p, whitePixel maskCanvas p /\ p.1 = v)) in HminX;
    [|intros v; symmetry; apply whiteCoord_scanPixels].
  apply (lowestOf_same _ _ (fun v => exists p, whitePixel maskCanvas p /\ p.2 = v)) in HminY;
    [|intros v; symmetry; apply whiteCoord_scanPixels].
  apply (highestOf_same _ _ (fun v => exists p, whitePixel maskCanvas p /\ p.1 = v)) in HmaxX;
    [|intros v; symmetry; apply whiteCoord_scanPixels].
  apply (highestOf_same _ _ (fun v => exists p, whitePixel maskCanvas p /\ p.2 = v)) in HmaxY;
    [|intros v; symmetry; apply whiteCoord_scanPixels].
  split.
  - rewrite Hhas. split.
    + intros (p & Hp & Hw). exists p. split; [by apply scanPixels_inBounds|done].
    + intros (p & Hp & Hw). exists p. split; [by apply inBounds_scanPixels|done].
  - intros (q & Hq).
    destruct HminX as (LminX & _ & AminX), HminY as (LminY & _ & AminY).
    destruct HmaxX as (LmaxX & ImaxX & AmaxX), HmaxY as (LmaxY & ImaxY & AmaxY).
    assert (forall p, whitePixel maskCanvas p ->
      (Scan.minX s <= p.1 <= Scan.maxX s)%Z /\ (Scan.minY s <= p.2 <= Scan.maxY s)%Z)
      as Hbox.
    { intros p Hp. split; split.
      - apply LminX. eauto.
      - apply LmaxX. eauto.
      - apply LminY. eauto.
      - apply LmaxY. eauto. }
    pose proof (Hbox q Hq) as [Hqx Hqy].
    pose proof Hq as [[Hq1 Hq2] _].
    assert (exists p, whitePixel maskCanvas p /\ p.1 = Scan.minX s) as EminX.
    { destruct AminX as [E|?]; [lia|done]. }
    assert (exists p, whitePixel maskCanvas p /\ p.2 = Scan.minY s) as EminY.
    { destruct AminY as [E|?]; [lia|done]. }
    assert (exists p, whitePixel maskCanvas p /\ p.1 = Scan.maxX s) as EmaxX.
    { destruct AmaxX as [E|?]; [|done]. exists q. split; [done|lia]. }
    assert (exists p, whitePixel maskCanvas p /\ p.2 = Scan.maxY s) as EmaxY.
    { destruct AmaxY as [E|?]; [|done]. exists q. split; [done|lia]. }
    assert (0 <= Scan.minX s /\ Scan.maxX s < ImageData.width maskCanvas /\
            0 <= Scan.minY s /\ Scan.maxY s < ImageData.height maskCanvas)%Z as Hin.
    { destruct EminX as (a & [[Ha _] _] & Ea), EminY as (c & [[_ Hc] _] & Ec).
      destruct EmaxX as (d & [[Hd _] _] & Ed), EmaxY as (e & [[_ He] _] & Ee). lia. }
    subst b. unfold scanBounds. simpl.
    split; [exact Hbox|]. split; [exact EminX|]. split; [exact EmaxX|].
    split; [exact EminY|]. split; [exact EmaxY|]. lia.
Qed.

(** * Further properties of the region growing *)

(** The clicked pixel is within any tolerance [>= 0] of itself. *)
Lemma seed_withinTolerance img seed tolerance :
  wellFormed img -> inBounds img seed -> (0 <= tolerance)%Z ->
  withinTolerance img seed tolerance seed.
Proof.
  intros Hwf Hseed Htol.
  destruct (rgbAt_inBounds img seed Hwf Hseed) as (r & g & b & E).
  exists r, g, b, r, g, b. split; [done|]. split; [done|]. lia.
Qed.

(** A finished run from an in-bounds click, with the pixels of its mask:
    they are the visited ones, the clicked pixel is among them, and the
    running extremes enclose them. *)
Lemma segment_selection img (x y : Z) tolerance fuel :
  wellFormed img -> inBounds img (x, y) -> (0 <= tolerance)%Z ->
  (fillFuel img <= fuel)%nat ->
  exists s evaluated,
    segment pop fuel tolerance img x y = Some (s, evaluated) /\
    isWhite (maskData s) (keyOf img (x, y)) = true /\
    (forall p, inBounds img p ->
       isWhite (maskData s) (keyOf img p) = true <-> component img (x, y) tolerance p) /\
    (forall p, inBounds img p -> isWhite (maskData s) (keyOf img p) = true ->
       (minX s <= p.1 <= maxX s)%Z /\ (minY s <= p.2 <= maxY s)%Z) /\
    (0 <= minX s <= x)%Z /\ (0 <= minY s <= y)%Z.
Proof.
  intros Hwf Hseed Htol Hfuel.
  destruct (segment_terminates pop pop_fair img Hwf (x, y) Hseed tolerance fuel Hfuel)
    as (s & ev & Hrun & HI & Hs).
  simpl in Hrun. exists s, ev. split; [exact Hrun|].
  assert (forall p, inBounds img p ->
    isWhite (maskData s) (keyOf img p) = true <-> component img (x, y) tolerance p) as Hsel.
  { intros p Hp. rewrite (mask_white img (x, y) tolerance s ev p HI Hp).
    by apply (finished_visited img (x, y) tolerance s ev). }
  assert (isWhite (maskData s) (keyOf img (x, y)) = true) as Hwhite.
  { apply Hsel; [done|]. apply component_seed; [done|].
    by apply seed_withinTolerance. }
  assert (forall p, inBounds img p -> isWhite (maskData s) (keyOf img p) = true ->
    (minX s <= p.1 <= maxX s)%Z /\ (minY s <= p.2 <= maxY s)%Z) as Hbox.
  { intros p Hp Hw.
    apply (mask_white img (x, y) tolerance s ev p HI Hp) in Hw.
    destruct (inv_minX _ _ _ _ _ HI) as (LminX & _ & _).
    destruct (inv_minY _ _ _ _ _ HI) as (LminY & _ & _).
    destruct (inv_maxX _ _ _ _ _ HI) as (LmaxX & _ & _).
    destruct (inv_maxY _ _ _ _ _ HI) as (LmaxY & _ & _).
    split; split.
    - apply LminX. by exists p.
    - apply LmaxX. by exists p.
    - apply LminY. by exists p.
    - apply LmaxY. by exists p. }
  split; [exact Hwhite|]. split; [exact Hsel|]. split; [exact Hbox|].
  destruct (Hbox (x, y) Hseed Hwhite) as [Hx Hy]. simpl in Hx, Hy.
  destruct (inv_minX _ _ _ _ _ HI) as (_ & _ & AminX).
  destruct (inv_minY _ _ _ _ _ HI) as (_ & _ & AminY).
  destruct Hseed as [Hsx Hsy]. simpl in Hsx, Hsy.
  split; split; try lia.
  - destruct AminX as [E|(p & [Hp _] & _ & Ep)]; lia.
  - destruct AminY as [E|(p & [_ Hp] & _ & Ep)]; lia.
Qed.

(** X14. A click inside the image always selects the clicked pixel, in
    [SegmentationCanvas.tsx] and in [ImageCanvas.tsx] alike: the mask buffer
    is 255 in its four channels, so the mask is never empty, and in
    [ImageCanvas.tsx] it becomes the current mask under the new
    identifier. *)
Theorem segmentAtPoint_selects_seed img (x y : Z) fuel maskId st :
  wellFormed img -> inBounds img (x, y) -> (fillFuel img <= fuel)%nat ->
  (exists maskData bounds,
     segmentAtPoint fuel img x y = Some (maskData, bounds) /\
     isWhite maskData (keyOf img (x, y)) = true /\
     forall c, (0 <= c < 4)%Z ->
       readAt maskData (keyOf img (x, y) * 4 + c) = Some 255%Z) /\
  (exists st' mask,
     segmentAtPointImageCanvas fuel img x y maskId st = Some st' /\
     currentMask st' = Some mask /\ Mask.id mask = maskId /\
     isWhite (Mask.imageData mask) (keyOf img (x, y)) = true /\
     project st' = project st).
Proof.
  intros Hwf Hseed Hfuel. split.
  - destruct (segment_terminates pop pop_fair img Hwf (x, y) Hseed 32 fuel Hfuel)
      as (s & ev & Hrun & HI & Hs).
    simpl in Hrun. unfold segmentAtPoint. rewrite Hrun.
    exists (maskData s), (paddedBounds img 10 s). split; [done|].
    assert (keyOf img (x, y) ∈ visited s) as Hv.
    { apply (finished_visited img (x, y) 32 s ev (x, y) HI Hs Hseed).
      apply component_seed; [done|]. apply seed_withinTolerance; [done..|lia]. }
    split; [by apply (mask_white img (x, y) 32 s ev (x, y) HI Hseed)|].
    intros c Hc.
    rewrite (inv_mask _ _ _ _ _ HI (keyOf img (x, y)) c (keyOf_range img _ Hseed) Hc).
    by rewrite decide_True.
  - destruct (segment_selection img x y 40 fuel Hwf Hseed ltac:(lia) Hfuel)
      as (s & ev & Hrun & Hwhite & _).
    unfold segmentAtPointImageCanvas. rewrite Hrun.
    eexists _, _. split; [reflexivity|]. simpl. done.
Qed.

Lemma segmentAtPoint_selects_seed_witness :
  exists maskData bounds,
    segmentAtPoint 17 tiny 0 0 = Some (maskData, bounds) /\
    isWhite maskData (keyOf tiny (0, 0)%Z) = true.
Proof.
  destruct (segmentAtPoint_selects_seed tiny 0 0 17 "m" initialState)
    as [(maskData & bounds & Hrun & Hwhite & _) _].
  - reflexivity.
  - unfold inBounds. simpl. lia.
  - unfold fillFuel. simpl. lia.
  - exists maskData, bounds. split; assumption.
Defined.

Lemma paddedBounds_enclose img padding s (p : Z * Z) :
  (0 < padding)%Z -> inBounds img p -> (0 <= minX s)%Z -> (0 <= minY s)%Z ->
  (minX s <= p.1 <= maxX s)%Z -> (minY s <= p.2 <= maxY s)%Z ->
  let b := paddedBounds img padding s in
  (0 <= Bounds.x b)%Z /\ (0 <= Bounds.y b)%Z /\
  (Bounds.x b <= p.1 < Bounds.x b + Bounds.width b)%Z /\
  (Bounds.y b <= p.2 < Bounds.y b + Bounds.height b)%Z /\
  (Bounds.x b + Bounds.width b <= ImageData.width img + padding)%Z /\
  (Bounds.y b + Bounds.height b <= ImageData.height img + padding)%Z.
Proof.
  intros Hpad [Hx Hy] HminX HminY Hpx Hpy. unfold paddedBounds. simpl. lia.
Qed.

(** X15. After a click inside the image the padded bounds start at
    non-negative coordinates and enclose every selected pixel, the clicked
    one included; and they reach beyond the right and the bottom edge of the
    image by at most the padding of 10. In [SegmentationCanvas.tsx] and in
    [ImageCanvas.tsx] alike. *)
Theorem paddedBounds_enclose_selection img (x y : Z) fuel maskId st :
  wellFormed img -> inBounds img (x, y) -> (fillFuel img <= fuel)%nat ->
  let encloses (maskData : list Z) (b : Bounds.t) :=
    (0 <= Bounds.x b <= x)%Z /\ (0 <= Bounds.y b <= y)%Z /\
    (Bounds.x b + Bounds.width b <= ImageData.width img + 10)%Z /\
    (Bounds.y b + Bounds.height b <= ImageData.height img + 10)%Z /\
    forall p, inBounds img p -> isWhite maskData (keyOf img p) = true ->
      (Bounds.x b <= p.1 < Bounds.x b + Bounds.width b)%Z /\
      (Bounds.y b <= p.2 < Bounds.y b + Bounds.height b)%Z in
  (exists maskData bounds,
     segmentAtPoint fuel img x y = Some (maskData, bounds) /\
     encloses maskData bounds) /\
  (exists st' mask,
     segmentAtPointImageCanvas fuel img x y maskId st = Some st' /\
     currentMask st' = Some mask /\
     encloses (Mask.imageData mask) (Mask.bounds mask)).
Proof.
  intros Hwf Hseed Hfuel encloses.
  assert (forall tolerance, (0 <= tolerance)%Z ->
    exists s evaluated,
      segment pop fuel tolerance img x y = Some (s, evaluated) /\
      encloses (maskData s) (paddedBounds img 10 s)) as Hany.
  { intros tolerance Htol.
    destruct (segment_selection img x y tolerance fuel Hwf Hseed Htol Hfuel)
      as (s & ev & Hrun & Hwhite & _ & Hbox & HminX & HminY).
    exists s, ev. split; [exact Hrun|].
    destruct (Hbox (x, y) Hseed Hwhite) as [Hsx Hsy].
    destruct (paddedBounds_enclose img 10 s (x, y) ltac:(lia) Hseed
                ltac:(lia) ltac:(lia) Hsx Hsy) as (Bx & By & Ex & Ey & Rx & Ry).
    cbn [fst snd] in Ex, Ey. cbv zeta in Bx, By, Ex, Ey, Rx, Ry. unfold encloses.
    split; [lia|]. split; [lia|]. split; [exact Rx|]. split; [exact Ry|].
    intros p Hp Hw. destruct (Hbox p Hp Hw) as [Hpx Hpy].
    destruct (paddedBounds_enclose img 10 s p ltac:(lia) Hp
                ltac:(lia) ltac:(lia) Hpx Hpy) as (_ & _ & Px & Py & _ & _).
    by split. }
  split.
  - destruct (Hany 32%Z ltac:(lia)) as (s & ev & Hrun & Henc).
    unfold segmentAtPoint. rewrite Hrun. by eexists _, _.
  - destruct (Hany 40%Z ltac:(lia)) as (s & ev & Hrun & Henc).
    unfold segmentAtPointImageCanvas. rewrite Hrun. eexists _, _.
    split; [reflexivity|]. split; [reflexivity|]. exact Henc.
Qed.

Lemma paddedBounds_enclose_selection_witness :
  exists maskData bounds,
    segmentAtPoint 401 dot10 5 5 = Some (maskData, bounds) /\
    (Bounds.x bounds <= 5 < Bounds.x bounds + Bounds.width bounds)%Z.
Proof.
  destruct (paddedBounds_enclose_selection dot10 5 5 401 "m" initialState)
    as [(maskData & bounds & Hrun & _ & _ & _ & _ & Hbox) _].
  - reflexivity.
  - unfold inBounds. simpl. lia.
  - unfold fillFuel. simpl. lia.
  - exists maskData, bounds. split; [exact Hrun|].
    assert (isWhite maskData (keyOf dot10 (5, 5)%Z) = true) as Hw.
    { revert Hrun. vm_compute. intros [= <- _]. reflexivity. }
    apply (Hbox (5, 5)%Z); [|exact Hw]. unfold inBounds. simpl. lia.
Defined.

Lemma withinTolerance_mono img seed t1 t2 p :
  (t1 <= t2)%Z -> withinTolerance img seed t1 p -> withinTolerance img seed t2 p.
Proof.
  intros Hle (r & g & b & sr & sg & sb & E1 & E2 & Hd).
  exists r, g, b, sr, sg, sb. split; [done|]. split; [done|]. lia.
Qed.

Lemma component_mono img seed t1 t2 p :
  (t1 <= t2)%Z -> component img seed t1 p -> component img seed t2 p.
Proof.
  intros Hle Hc. induction Hc as [Hin Hw|a q Ha IH Hadj Hq Hw].
  - apply component_seed; [done|]. by apply (withinTolerance_mono img seed t1).
  - apply (component_step img seed t2 a q); [done..|].
    by apply (withinTolerance_mono img seed t1).
Qed.

(** X16. A larger tolerance never selects less: for the same image and
    click, every pixel selected at tolerance [t1] is selected at any
    [t2 >= t1], and the running extremes only move outwards. So what
    [SegmentationCanvas.tsx] (tolerance 32) selects, [ImageCanvas.tsx]
    (tolerance 40) selects too. *)
Theorem segment_tolerance_monotone img (x y : Z) (t1 t2 : Z) fuel :
  wellFormed img -> inBounds img (x, y) -> (fillFuel img <= fuel)%nat ->
  (0 <= t1 <= t2)%Z ->
  exists s1 evaluated1 s2 evaluated2,
    segment pop fuel t1 img x y = Some (s1, evaluated1) /\
    segment pop fuel t2 img x y = Some (s2, evaluated2) /\
    (forall p, inBounds img p ->
       isWhite (maskData s1) (keyOf img p) = true ->
       isWhite (maskData s2) (keyOf img p) = true) /\
    (minX s2 <= minX s1)%Z /\ (maxX s1 <= maxX s2)%Z /\
    (minY s2 <= minY s1)%Z /\ (maxY s1 <= maxY s2)%Z.
Proof.
  intros Hwf Hseed Hfuel [Ht1 Hle].
  destruct (segment_terminates pop pop_fair img Hwf (x, y) Hseed t1 fuel Hfuel)
    as (s1 & ev1 & Hrun1 & HI1 & Hs1).
  destruct (segment_terminates pop pop_fair img Hwf (x, y) Hseed t2 fuel Hfuel)
    as (s2 & ev2 & Hrun2 & HI2 & Hs2).
  simpl in Hrun1, Hrun2. exists s1, ev1, s2, ev2.
  split; [exact Hrun1|]. split; [exact Hrun2|].
  assert (forall k, k ∈ visited s1 -> k ∈ visited s2) as Hsub.
  { intros k Hk. destruct (inv_visited _ _ _ _ _ HI1 k Hk) as (p & Hp & <- & Hc).
    apply (finished_visited img (x, y) t2 s2 ev2 p HI2 Hs2 Hp).
    by apply (component_mono img (x, y) t1). }
  assert (forall proj v, coordOf img proj (visited s1) v -> coordOf img proj (visited s2) v)
    as Hco.
  { intros proj v (p & Hp & Hk & Hv). exists p. auto. }
  assert (keyOf img (x, y) ∈ visited s1) as Hseed1.
  { apply (finished_visited img (x, y) t1 s1 ev1 (x, y) HI1 Hs1 Hseed).
    apply component_seed; [done|]. by apply seed_withinTolerance. }
  split.
  { intros p Hp Hw.
    apply (mask_white img (x, y) t2 s2 ev2 p HI2 Hp).
    apply Hsub. by apply (mask_white img (x, y) t1 s1 ev1 p HI1 Hp). }
  destruct (inv_minX _ _ _ _ _ HI1) as (L1x & _ & A1x).
  destruct (inv_minY _ _ _ _ _ HI1) as (L1y & _ & A1y).
  destruct (inv_maxX _ _ _ _ _ HI1) as (H1x & _ & B1x).
  destruct (inv_maxY _ _ _ _ _ HI1) as (H1y & _ & B1y).
  destruct (inv_minX _ _ _ _ _ HI2) as (L2x & I2x & _).
  destruct (inv_minY _ _ _ _ _ HI2) as (L2y & I2y & _).
  destruct (inv_maxX _ _ _ _ _ HI2) as (H2x & J2x & _).
  destruct (inv_maxY _ _ _ _ _ HI2) as (H2y & J2y & _).
  split; [|split; [|split]].
  - destruct A1x as [->|Hat]; [done|]. by apply L2x, Hco.
  - destruct B1x as [->|Hat]; [done|]. by apply H2x, Hco.
  - destruct A1y as [->|Hat]; [done|]. by apply L2y, Hco.
  - destruct B1y as [->|Hat]; [done|]. by apply H2y, Hco.
Qed.

Lemma segment_tolerance_monotone_witness :
  exists s1 evaluated1 s2 evaluated2,
    segment pop 17 32 tiny 0 0 = Some (s1, evaluated1) /\
    segment pop 17 40 tiny 0 0 = Some (s2, evaluated2) /\
    (minX s2 <= minX s1)%Z.
Proof.
  destruct (segment_tolerance_monotone tiny 0 0 32 40 17)
    as (s1 & ev1 & s2 & ev2 & Hrun1 & Hrun2 & _ & Hmin & _).
  - reflexivity.
  - unfold inBounds. simpl. lia.
  - unfold fillFuel. simpl. lia.
  - lia.
  - exists s1, ev1, s2, ev2. split; [assumption|]. split; assumption.
Defined.

Lemma isWhite_replicate_zero (n : nat) (key : Z) :
  isWhite (replicate n 0%Z) key = false.
Proof.
  unfold isWhite, readAt. destruct (key * 4 <? 0)%Z; [done|].
  destruct (replicate n 0%Z !! Z.to_nat (key * 4)) as [v|] eqn:E; [|done].
  apply lookup_replicate in E as [-> _]. done.
Qed.

(** X17. A click outside the image selects nothing: the loop ends after
    one iteration with an all-zero mask buffer, and the bounds are computed
    from the initial extremes ([minX = width], [maxX = 0]), which gives the
    width [min 10 (20 - width)], negative for images wider than 20.
    [ImageCanvas.tsx] still makes this empty mask the current mask. *)
Theorem segmentAtPoint_outside img (x y : Z) fuel maskId st :
  outside img (x, y) = true ->
  let blank :=
    replicate (Z.to_nat (ImageData.width img * ImageData.height img * 4)) 0%Z in
  let bounds :=
    {| Bounds.x := Z.max 0 (ImageData.width img - 10);
       Bounds.y := Z.max 0 (ImageData.height img - 10);
       Bounds.width := Z.min 10 (20 - ImageData.width img);
       Bounds.height := Z.min 10 (20 - ImageData.height img) |} in
  segmentAtPoint (S fuel) img x y = Some (blank, bounds) /\
  segmentAtPointImageCanvas (S fuel) img x y maskId st =
    Some (setCurrentMask
            (Some {| Mask.id := maskId; Mask.imageData := blank;
                     Mask.bounds := bounds |}) st) /\
  (forall key, isWhite blank key = false).
Proof.
  intros Hout blank bounds.
  assert (segment pop (S fuel) 32 img x y =
            Some ({| stack := []; visited := ∅; maskData := blank;
                     minX := ImageData.width img; minY := ImageData.height img;
                     maxX := 0; maxY := 0 |}, []) /\
          segment pop (S fuel) 40 img x y =
            Some ({| stack := []; visited := ∅; maskData := blank;
                     minX := ImageData.width img; minY := ImageData.height img;
                     maxX := 0; maxY := 0 |}, [])) as [Hrun32 Hrun40].
  { split; unfold segment; cbn [fillLoop]; unfold fillStep at 1;
      cbn [stack fillStart pop rev app visited];
      (rewrite decide_False by apply not_elem_of_empty);
      rewrite Hout; by destruct fuel. }
  assert (paddedBounds img 10
            {| stack := []; visited := ∅; maskData := blank;
               minX := ImageData.width img; minY := ImageData.height img;
               maxX := 0; maxY := 0 |} = bounds) as Hb.
  { unfold paddedBounds, bounds. simpl. f_equal; lia. }
  split; [|split].
  - unfold segmentAtPoint. rewrite Hrun32. cbn [maskData]. by rewrite Hb.
  - unfold segmentAtPointImageCanvas. rewrite Hrun40. cbn [maskData]. by rewrite Hb.
  - intros key. apply isWhite_replicate_zero.
Qed.

Lemma segmentAtPoint_outside_witness :
  segmentAtPoint 1 tiny 2 0
    = Some (replicate 16 0%Z,
            {| Bounds.x := 0; Bounds.y := 0; Bounds.width := 10; Bounds.height := 10 |}).
Proof. exact (proj1 (segmentAtPoint_outside tiny 2 0 0 "m" initialState eq_refl)). Defined.

(** * Properties of the project page *)

Lemma slice_prefix {A} (l : list A) (stop : Z) :
  (0 <= stop)%Z -> slice l 0 stop = take (Z.to_nat stop) l.
Proof.
  intros Hstop. unfold slice, relativeIndex.
  destruct (Z.ltb_spec 0 0); [lia|]. destruct (Z.ltb_spec stop 0); [lia|].
  replace (Z.min 0 (Z.of_nat (length l))) with 0%Z by lia.
  change (Z.to_nat 0) with O. rewrite drop_0, Z.sub_0_r.
  destruct (Z.min_spec stop (Z.of_nat (length l))) as [[Hlt ->]|[Hge ->]]; [done|].
  rewrite Nat2Z.id. rewrite !take_ge by lia. done.
Qed.

(** The list and index after a render made from a state whose index is in
    range. *)
Lemma appendRender_kept versions currentVersionIndex newVersion :
  (-1 <= currentVersionIndex < Z.of_nat (length versions))%Z ->
  appendRender versions currentVersionIndex newVersion =
    (take (Z.to_nat (currentVersionIndex + 1)) versions ++ [newVersion],
     currentVersionIndex + 1)%Z.
Proof.
  intros Hidx. unfold appendRender.
  destruct (Z.eqb_spec (Z.of_nat (length versions)) 0) as [Hlen|Hlen].
  - assert (currentVersionIndex = -1)%Z as -> by lia.
    destruct versions; [done|simpl in Hlen; lia].
  - rewrite slice_prefix by lia. f_equal.
    rewrite length_app, length_take. simpl. lia.
Qed.

(** The version list and the index after a successful render. *)
Lemma handleChatGenerate_first_render
    (captured st : Page.t) (dbUser : User.t) (prompt imageUrl : string) (now : Z) :
  indexInRange captured ->
  Page.versions (snd (handleChatGenerateSettle captured dbUser prompt (inl imageUrl) now st))
    = take (Z.to_nat (Page.currentVersionIndex captured + 1)) (Page.versions captured)
      ++ [ {| PageVersion.id := Z.of_nat (length (Page.versions captured)) + 1;
              PageVersion.imageUrl := imageUrl; PageVersion.prompt := prompt;
              PageVersion.timestamp := now; PageVersion.dbId := None |} ] /\
  Page.currentVersionIndex
    (snd (handleChatGenerateSettle captured dbUser prompt (inl imageUrl) now st))
    = (Page.currentVersionIndex captured + 1)%Z.
Proof.
  intros Hidx. unfold handleChatGenerateSettle. cbn [snd].
  rewrite appendRender_kept by done. done.
Qed.

(** X18. The history of the project page is linear. A render made while
    version [k] is shown (or the original, [k = -1]) keeps the versions up
    to [k], drops every later one and appends the new render, which becomes
    the version shown; the index stays in range. The store, by contrast,
    keeps both branches. *)
Theorem handleChatGenerate_drops_later_renders
    (captured st : Page.t) (dbUser : User.t) (prompt imageUrl : string) (now : Z) :
  indexInRange captured ->
  let r := handleChatGenerateSettle captured dbUser prompt (inl imageUrl) now st in
  let newVersion :=
    {| PageVersion.id := Z.of_nat (length (Page.versions captured)) + 1;
       PageVersion.imageUrl := imageUrl; PageVersion.prompt := prompt;
       PageVersion.timestamp := now; PageVersion.dbId := None |} in
  fst r = Some imageUrl /\
  Page.versions (snd r) =
    take (Z.to_nat (Page.currentVersionIndex captured + 1)) (Page.versions captured)
    ++ [newVersion] /\
  Page.currentVersionIndex (snd r) = (Page.currentVersionIndex captured + 1)%Z /\
  Z.of_nat (length (Page.versions (snd r))) = (Page.currentVersionIndex captured + 2)%Z /\
  currentImage (snd r) = Some imageUrl /\
  indexInRange (snd r) /\
  Page.isLoading (snd r) = false /\
  Page.referenceImages (snd r) = Page.referenceImages st.
Proof.
  intros Hidx r newVersion. unfold indexInRange in Hidx.
  subst r. unfold handleChatGenerateSettle. cbn [fst snd].
  fold newVersion. rewrite appendRender_kept by done. cbn [fst snd].
  set (kept := take (Z.to_nat (Page.currentVersionIndex captured + 1))
                 (Page.versions captured)).
  assert (length kept = Z.to_nat (Page.currentVersionIndex captured + 1)) as Hkept.
  { unfold kept. rewrite length_take. lia. }
  split; [done|]. split; [done|]. split; [done|].
  split; [cbn [Page.versions]; rewrite length_app; simpl; lia|].
  split.
  { unfold currentImage. cbn [Page.currentVersionIndex Page.versions].
    destruct (Z.leb_spec 0 (Page.currentVersionIndex captured + 1)); [|lia].
    rewrite lookup_app_r by lia. rewrite Hkept, Nat.sub_diag. done. }
  split; [|done].
  unfold indexInRange. cbn [Page.currentVersionIndex Page.versions].
  rewrite length_app. simpl. lia.
Qed.

Lemma handleChatGenerate_drops_later_renders_witness :
  List.map PageVersion.id
    (Page.versions
       (snd (handleChatGenerateSettle samplePage sampleUser "p3" (inl "u3") 3 samplePage)))
  = [1; 3]%Z.
Proof.
  refine (f_equal (List.map PageVersion.id)
            (proj1 (proj2 (handleChatGenerate_drops_later_renders
                             samplePage samplePage sampleUser "p3" "u3" 3 _)))).
  unfold indexInRange. simpl. lia.
Defined.

Lemma numbered_snoc versions (v : PageVersion.t) :
  numbered versions -> PageVersion.id v = (Z.of_nat (length versions) + 1)%Z ->
  numbered (versions ++ [v]).
Proof.
  intros Hnum Hid j w Hj.
  destruct (decide (j < length versions)%nat) as [Hlt|Hge].
  - rewrite lookup_app_l in Hj by done. by apply Hnum.
  - rewrite lookup_app_r in Hj by lia.
    destruct (j - length versions)%nat as [|k] eqn:E; simpl in Hj; [|done].
    injection Hj as <-. rewrite Hid. lia.
Qed.

(** X19. As long as every render is made while the latest version is shown,
    the versions are numbered by position: the version at position [j]
    carries the label [j + 1], before and after the render. *)
Theorem handleChatGenerate_numbers_versions
    (captured st : Page.t) (dbUser : User.t) (prompt imageUrl : string) (now : Z) :
  numbered (Page.versions captured) ->
  Page.currentVersionIndex captured = (Z.of_nat (length (Page.versions captured)) - 1)%Z ->
  let st' := snd (handleChatGenerateSettle captured dbUser prompt (inl imageUrl) now st) in
  numbered (Page.versions st') /\
  length (Page.versions st') = S (length (Page.versions captured)) /\
  Page.currentVersionIndex st' = (Z.of_nat (length (Page.versions st')) - 1)%Z.
Proof.
  intros Hnum Hidx st'. subst st'. unfold handleChatGenerateSettle. cbn [snd].
  rewrite appendRender_kept by lia. cbn [fst snd Page.versions Page.currentVersionIndex].
  rewrite Hidx.
  replace (Z.to_nat (Z.of_nat (length (Page.versions captured)) - 1 + 1))
    with (length (Page.versions captured)) by lia.
  rewrite firstn_all. split; [by apply numbered_snoc|].
  rewrite length_app. simpl. lia.
Qed.

Lemma handleChatGenerate_numbers_versions_witness :
  numbered
    (Page.versions
       (snd (handleChatGenerateSettle freshPage sampleUser "p1" (inl "u1") 1 freshPage))).
Proof.
  refine (proj1 (handleChatGenerate_numbers_versions
                   freshPage freshPage sampleUser "p1" "u1" 1 _ eq_refl)).
  intros j v Hj. destruct j; discriminate Hj.
Defined.

(** X20. The label of a new render is the number of versions before the
    render plus one, whichever version is shown. So a render made while the
    version before the latest is shown, followed by one more render, leaves
    two versions with the same label (and the same React key): the last two
    of the list. *)
Theorem handleChatGenerate_repeats_label
    (captured st st' : Page.t) (dbUser dbUser' : User.t)
    (prompt imageUrl prompt' imageUrl' : string) (now now' : Z) :
  (0 <= Page.currentVersionIndex captured)%Z ->
  (Page.currentVersionIndex captured + 2 = Z.of_nat (length (Page.versions captured)))%Z ->
  let first :=
    snd (handleChatGenerateSettle captured dbUser prompt (inl imageUrl) now st) in
  let second :=
    snd (handleChatGenerateSettle first dbUser' prompt' (inl imageUrl') now' st') in
  exists v1 v2,
    Page.versions second =
      take (Z.to_nat (Page.currentVersionIndex captured + 1)) (Page.versions captured)
      ++ [v1; v2] /\
    PageVersion.imageUrl v1 = imageUrl /\ PageVersion.imageUrl v2 = imageUrl' /\
    PageVersion.id v1 = PageVersion.id v2.
Proof.
  intros Hidx Hlen first second.
  assert (indexInRange captured) as Hrange by (unfold indexInRange; lia).
  destruct (handleChatGenerate_first_render captured st dbUser prompt imageUrl now Hrange)
    as (Hv & Hi).
  fold first in Hv, Hi.
  assert (indexInRange first) as Hrange'.
  { unfold indexInRange. rewrite Hv, Hi, length_app, length_take. simpl. lia. }
  destruct (handleChatGenerate_first_render first st' dbUser' prompt' imageUrl' now' Hrange')
    as (Hv' & _).
  fold second in Hv'. rewrite Hv'. rewrite Hi.
  assert (length (Page.versions first) = Z.to_nat (Page.currentVersionIndex captured + 2))
    as Hlen1.
  { rewrite Hv, length_app, length_take. simpl. lia. }
  replace (Z.to_nat (Page.currentVersionIndex captured + 1 + 1))
    with (length (Page.versions first)) by lia.
  rewrite firstn_all, Hv, <- app_assoc. simpl.
  eexists _, _. split; [reflexivity|]. simpl.
  split; [done|]. split; [done|].
  rewrite length_app, length_take. simpl. lia.
Qed.

Lemma handleChatGenerate_repeats_label_witness :
  exists v1 v2,
    Page.versions
      (snd (handleChatGenerateSettle
              (snd (handleChatGenerateSettle samplePage sampleUser "p3" (inl "u3") 3
                      samplePage))
              sampleUser "p4" (inl "u4") 4 samplePage))
    = take 1 (Page.versions samplePage) ++ [v1; v2] /\
    PageVersion.id v1 = PageVersion.id v2.
Proof.
  destruct (handleChatGenerate_repeats_label samplePage samplePage samplePage
              sampleUser sampleUser "p3" "u3" "p4" "u4" 3 4)
    as (v1 & v2 & Hv & _ & _ & Hid).
  - simpl. lia.
  - reflexivity.
  - exists v1, v2. split; assumption.
Defined.

(** X21. Credits on the project page. With no credit left no request is
    sent: the call returns [null], sets the out-of-credits error and leaves
    the versions alone. A request is only sent with a credit left, and
    whatever its outcome the credits shown afterwards are not negative: a
    render that succeeds with a project loaded costs exactly one credit, a
    failed request costs nothing. *)
Theorem handleChatGenerate_credits (prompt : string) (st : Page.t) (dbUser : User.t) :
  Page.dbUser st = Some dbUser -> (0 <= User.credits dbUser)%Z ->
  (User.credits dbUser = 0%Z ->
     fst (handleChatGenerateStart prompt st) = None /\
     Page.versions (snd (handleChatGenerateStart prompt st)) = Page.versions st /\
     Page.isLoading (snd (handleChatGenerateStart prompt st)) = Page.isLoading st) /\
  (forall request user st1,
     handleChatGenerateStart prompt st = (Some (request, user), st1) ->
     user = dbUser /\ (0 < User.credits dbUser)%Z /\
     Page.isLoading st1 = true /\ Page.error st1 = None /\
     forall outcome now,
       exists user',
         Page.dbUser (snd (handleChatGenerateSettle st user prompt outcome now st1))
           = Some user' /\
         (0 <= User.credits user')%Z /\
         User.credits user' =
           (User.credits dbUser -
            match outcome with
            | inl _ => if Page.projectLoaded st then 1 else 0
            | inr _ => 0
            end)%Z).
Proof.
  intros Huser Hcredits. split.
  - intros Hzero. unfold handleChatGenerateStart. rewrite Huser.
    destruct (orElse (currentImage st) (Page.originalImage st)) as [sourceImage|];
      [|done].
    destruct (truthy sourceImage); simpl; [|done].
    destruct (Z.leb_spec (User.credits dbUser) 0); [done|lia].
  - intros request user st1 Hstart. unfold handleChatGenerateStart in Hstart.
    rewrite Huser in Hstart.
    destruct (orElse (currentImage st) (Page.originalImage st)) as [sourceImage|];
      [|done].
    destruct (truthy sourceImage); simpl in Hstart; [|done].
    destruct (Z.leb_spec (User.credits dbUser) 0) as [Hle|Hlt]; [done|].
    injection Hstart as <- <- <-.
    split; [done|]. split; [done|]. split; [done|]. split; [done|].
    intros outcome now. destruct outcome as [imageUrl|message].
    + unfold handleChatGenerateSettle. cbn [snd Page.dbUser].
      destruct (Page.projectLoaded st).
      * exists (deductCredit dbUser). split; [done|]. simpl. lia.
      * exists dbUser. simpl. split; [done|]. lia.
    + exists dbUser. simpl. split; [done|]. lia.
Qed.

Lemma handleChatGenerate_credits_witness :
  exists user',
    Page.dbUser (snd (handleChatGenerateSettle samplePage sampleUser "p3" (inl "u3") 3
                        (snd (handleChatGenerateStart "p3" samplePage))))
      = Some user' /\
    (0 <= User.credits user')%Z.
Proof.
  destruct (proj2 (handleChatGenerate_credits "p3" samplePage sampleUser eq_refl
                     ltac:(simpl; lia))
              _ _ _ eq_refl)
    as (_ & _ & _ & _ & Hsettle).
  destruct (Hsettle (inl "u3") 3%Z) as (user' & Hu & Hc & _).
  exists user'. split; assumption.
Defined.

(** The list after some reference images have been read, in the order
    [arrivals] in which their readers finished. *)
Lemma referenceUploads_length (arrivals prev : list ReferenceImage.t) :
  (length prev <= 5)%nat ->
  foldl addReference prev arrivals = take 5 (prev ++ arrivals).
Proof.
  revert prev. induction arrivals as [|newRef arrivals IH]; intros prev Hprev; simpl.
  - rewrite app_nil_r. by rewrite take_ge by lia.
  - unfold addReference at 2. rewrite slice_prefix by lia.
    change (Z.to_nat 5) with 5%nat.
    rewrite IH by (rewrite length_take; lia).
    destruct (decide (length prev < 5)%nat) as [Hlt|Hge].
    + rewrite (take_ge (prev ++ [newRef])) by (rewrite length_app; simpl; lia).
      by rewrite <- app_assoc.
    + assert (length prev = 5%nat) as Hfull by lia.
      assert (forall k, take 5 (prev ++ k) = prev) as Hk.
      { intros k. rewrite take_app_le by lia. apply take_ge. lia. }
      by rewrite !Hk.
Qed.

Lemma removeReferenceImage_length id (prev : list ReferenceImage.t) :
  (length (removeReferenceImage id prev) <= length prev)%nat.
Proof.
  unfold removeReferenceImage. induction prev as [|img prev IH]; simpl; [lia|].
  destruct (negb _); simpl; lia.
Qed.

(** X22. The page never holds more than five reference images. Starting
    from at most five, after any number of uploads, whatever the order in
    which the files are read, the list is the old list followed by the new
    images, cut after the fifth: the images already there keep their place
    and a full list stays as it is. The files the handler picks in the
    first place all fit. Removing an image by identifier leaves no image with
    that identifier and keeps the others in order. *)
Theorem referenceImages_at_most_five
    (prev arrivals : list ReferenceImage.t) (id : string) :
  (length prev <= 5)%nat ->
  let result := foldl addReference prev arrivals in
  result = take 5 (prev ++ arrivals) /\
  length result = Nat.min 5 (length prev + length arrivals) /\
  prev `prefix_of` result /\
  (length prev = 5%nat -> result = prev) /\
  (forall files : list ReferenceImage.t,
     arrivals ≡ₚ filesToProcess files prev -> result = prev ++ arrivals) /\
  (length (removeReferenceImage id result) <= 5)%nat /\
  (forall img, In img (removeReferenceImage id result) <->
     In img result /\ ReferenceImage.id img <> id).
Proof.
  intros Hprev result. subst result.
  rewrite referenceUploads_length by done.
  split; [done|]. split; [rewrite length_take, length_app; lia|].
  split.
  { exists (take (5 - length prev) arrivals).
    rewrite take_app. by rewrite (take_ge prev) by lia. }
  split.
  { intros Hfull. rewrite take_app_le by lia. by rewrite take_ge by lia. }
  split.
  { intros files Hperm. apply Permutation_length in Hperm.
    unfold filesToProcess in Hperm. rewrite slice_prefix in Hperm by lia.
    rewrite length_take in Hperm.
    apply take_ge. rewrite length_app. lia. }
  split.
  { pose proof (removeReferenceImage_length id (take 5 (prev ++ arrivals))) as Hle.
    rewrite length_take in Hle. lia. }
  intros img. unfold removeReferenceImage. rewrite filter_In.
  rewrite negb_true_iff. rewrite String.eqb_neq. done.
Qed.

Lemma referenceImages_at_most_five_witness :
  (length (foldl addReference [] (replicate 7
     {| ReferenceImage.id := "ref-1"; ReferenceImage.url := "data:image/png;base64,AAAA";
        ReferenceImage.base64 := Some "AAAA"; ReferenceImage.name := "a.png" |}))
   = Nat.min 5 (0 + 7))%nat.
Proof.
  refine (proj1 (proj2 (referenceImages_at_most_five [] _ "ref-1" _))).
  simpl. lia.
Defined.

(** * Properties of the stores produced through the user interface *)

Lemma lookup_map {A B} (g : A -> B) (l : list A) (i : nat) :
  List.map g l !! i = g <$> l !! i.
Proof.
  revert i. induction l as [|a l IH]; intros [|i]; simpl; try done.
Qed.

Lemma rooted_map (g : Version.t -> Version.t) versions currentVersionId :
  (forall v, Version.id (g v) = Version.id v) ->
  (forall v, Version.parentId (g v) = Version.parentId v) ->
  rooted versions currentVersionId -> rooted (List.map g versions) currentVersionId.
Proof.
  intros Hid Hpar (Hroot & Htruthy & Hdistinct & Hparent & Hcurrent).
  assert (forall (i : nat) v', List.map g versions !! i = Some v' ->
            exists v, versions !! i = Some v /\ v' = g v) as Hinv.
  { intros i v' Hi. rewrite lookup_map in Hi.
    destruct (versions !! i) as [v|]; [|done]. injection Hi as <-. eauto. }
  split; [|split; [|split; [|split]]].
  - destruct Hroot as (root & H0 & Hnone). exists (g root).
    rewrite lookup_map, H0. split; [done|]. by rewrite Hpar.
  - intros i v' Hi. destruct (Hinv i v' Hi) as (v & Hv & ->). rewrite Hid. eauto.
  - intros i j v' w' Hi Hj. destruct (Hinv i v' Hi) as (v & Hv & ->).
    destruct (Hinv j w' Hj) as (w & Hw & ->). rewrite !Hid. eauto.
  - intros i v' Hi. destruct (Hinv (S i) v' Hi) as (v & Hv & ->).
    destruct (Hparent i v Hv) as (j & w & Hle & Hw & Hlink).
    exists j, (g w). split; [done|]. rewrite lookup_map, Hw. split; [done|].
    by rewrite Hpar, Hid.
  - destruct Hcurrent as (i & c & Hc & Heq). exists i, (g c).
    rewrite lookup_map, Hc. split; [done|]. by rewrite Hid.
Qed.

Lemma reachableFromUI_rooted st :
  reachableFromUI st ->
  forall p, project st = Some p ->
    rooted (Project.versions p) (Project.currentVersionId p).
Proof.
  induction 1 as [|st name url projectId versionId now Hr IH Hid
                  |st q v now Hr IH Hq Hv
                  |st prompt mask c outcome versionId now Hr IH Hc Hfresh Hid
                  |st point description flawId createdAt now Hr IH
                  |st flawId now Hr IH
                  |st mask Hr IH
                  |st isGenerating Hr IH];
    intros p Hp.
  - done.
  - injection Hp as <-. simpl. split; [|split; [|split; [|split]]].
    + eexists. split; [reflexivity|done].
    + intros i v Hi. apply list_lookup_singleton_Some in Hi as [_ <-]. done.
    + intros i j v w Hi Hj _.
      apply list_lookup_singleton_Some in Hi as [-> _].
      apply list_lookup_singleton_Some in Hj as [-> _]. done.
    + intros i v Hi. done.
    + eexists 0%nat, _. split; [reflexivity|done].
  - unfold setCurrentVersion in Hp. rewrite Hq in Hp. injection Hp as <-. simpl.
    destruct (IH q Hq) as (Hroot & Htruthy & Hdistinct & Hparent & _).
    split; [done|]. split; [done|]. split; [done|]. split; [done|].
    apply list_elem_of_In, list_elem_of_lookup in Hv as [i Hi]. eauto.
  - destruct outcome as [imageUrl|message]; [|exact (IH p Hp)].
    simpl in Hp. unfold getVersionById in Hc.
    destruct (project st) as [q|] eqn:Hq; [|done].
    injection Hp as <-. simpl.
    destruct (IH q eq_refl) as (Hroot & Htruthy & Hdistinct & Hparent & _).
    destruct Hfresh as [Hne Hfresh].
    apply findVersion_Some in Hc as [_ [k Hk]].
    pose proof (lookup_lt_Some _ _ _ Hk) as Hklt.
    assert (forall (i : nat) v,
      (Project.versions q ++
         [{| Version.id := versionId; Version.imageUrl := imageUrl;
             Version.parentId := Some (Version.id c); Version.prompt := prompt;
             Version.mask := mask; Version.flaws := [];
             Version.createdAt := now |}]) !! i = Some v ->
      (i < length (Project.versions q))%nat /\ Project.versions q !! i = Some v \/
      i = length (Project.versions q) /\ Version.id v = versionId /\
        Version.parentId v = Some (Version.id c)) as Hcases.
    { intros i v Hi. apply lookup_app_Some in Hi as [Hi|[Hge Hi]].
      - left. split; [by eapply lookup_lt_Some|done].
      - right. apply list_lookup_singleton_Some in Hi as [Hz <-].
        split; [lia|done]. }
    assert (forall (i : nat) v, Project.versions q !! i = Some v ->
              Version.id v <> versionId) as Hold.
    { intros i v Hi. apply (Hfresh q v Hq).
      apply list_elem_of_In. by eapply list_elem_of_lookup_2. }
    split; [|split; [|split; [|split]]].
    + destruct Hroot as (root & H0 & Hnone). exists root.
      split; [|done]. by apply lookup_app_l_Some.
    + intros i v Hi. destruct (Hcases i v Hi) as [[_ Hv]|(_ & -> & _)]; eauto.
    + intros i j v w Hi Hj Heq.
      destruct (Hcases i v Hi) as [[Hilt Hv]|(-> & Ev & _)];
        destruct (Hcases j w Hj) as [[Hjlt Hw]|(-> & Ew & _)].
      * eauto.
      * exfalso. apply (Hold i v Hv). congruence.
      * exfalso. apply (Hold j w Hw). congruence.
      * done.
    + intros i v Hi. destruct (Hcases (S i) v Hi) as [[Hilt Hv]|(Ei & _ & Epar)].
      * destruct (Hparent i v Hv) as (j & w & Hle & Hw & Hlink).
        exists j, w. split; [done|]. split; [by apply lookup_app_l_Some|done].
      * exists k, c. split; [lia|]. split; [by apply lookup_app_l_Some|done].
    + eexists (length (Project.versions q)), _. split.
      * rewrite lookup_app_r by lia. rewrite Nat.sub_diag. reflexivity.
      * reflexivity.
  - unfold addFlaw in Hp. destruct (project st) as [q|] eqn:Hq; [|by rewrite Hq in Hp].
    injection Hp as <-. simpl. apply rooted_map; [| |by apply IH].
    + intros v. by destruct (String.eqb _ _).
    + intros v. by destruct (String.eqb _ _).
  - unfold resolveFlaw in Hp. destruct (project st) as [q|] eqn:Hq; [|by rewrite Hq in Hp].
    injection Hp as <-. simpl. apply rooted_map; [| |by apply IH].
    + intros v. by destruct (String.eqb _ _).
    + intros v. by destruct (String.eqb _ _).
  - by apply IH.
  - by apply IH.
Qed.

Lemma findVersion_In versions (w : Version.t) :
  In w versions -> findVersion versions (Version.id w) <> None.
Proof.
  intros Hin Hnone. unfold findVersion in Hnone.
  pose proof (find_none _ _ Hnone w Hin) as Hf. simpl in Hf.
  by rewrite String.eqb_refl in Hf.
Qed.

Lemma rooted_parentsFirst versions currentVersionId :
  rooted versions currentVersionId -> parentsFirst versions.
Proof.
  intros ((root & H0 & Hnone) & _ & Hdistinct & Hparent & _) i j v w Hi Hj Hlink.
  destruct i as [|i].
  - rewrite H0 in Hi. injection Hi as <-. congruence.
  - destruct (Hparent i v Hi) as (j' & w' & Hle & Hw' & Hlink').
    rewrite Hlink in Hlink'. injection Hlink' as Heq.
    assert (j = j') by eauto. lia.
Qed.

Lemma ancestry_unique versions v h h' :
  ancestry versions v h -> ancestry versions v h' -> h' = h.
Proof.
  intros Ha. revert h'. induction Ha as [v H0|v u h H0 Hu IH]; intros h' Ha'.
  - inversion Ha' as [? H1|? u' ? H1 ?]; subst; [done|congruence].
  - inversion Ha' as [? H1|? u' h2 H1 Hu']; subst; [congruence|].
    rewrite H0 in H1. injection H1 as <-. by rewrite (IH _ Hu').
Qed.

(** X23. In every store that the user interface can produce, a loaded
    project has a current version, and its history runs from the uploaded
    original, the first version of the project, which has no parent, to
    the current version; the loop of [getVersionHistory] needs at most one
    iteration per version. *)
Theorem reachableFromUI_history st p :
  reachableFromUI st -> project st = Some p ->
  exists root rest current,
    Project.versions p !! 0%nat = Some root /\ Version.parentId root = None /\
    getCurrentVersion st = Some current /\
    Version.id current = Project.currentVersionId p /\
    (forall fuel, (historyFuel st <= fuel)%nat ->
       getVersionHistory fuel st = Some (root :: rest)) /\
    last (root :: rest) = Some current.
Proof.
  intros Hr Hp.
  pose proof (reachableFromUI_rooted st Hr p Hp) as Hrooted.
  pose proof (rooted_parentsFirst _ _ Hrooted) as Hpf.
  destruct Hrooted as ((root & H0 & Hnone) & Htruthy & Hdistinct & Hparent & Hcurrent).
  destruct Hcurrent as (i0 & c0 & Hc0 & Hid0).
  assert (In c0 (Project.versions p)) as Hin0.
  { apply list_elem_of_In. by eapply list_elem_of_lookup_2. }
  destruct (findVersion (Project.versions p) (Project.currentVersionId p))
    as [current|] eqn:Hcur.
  2:{ rewrite <- Hid0 in Hcur. by apply findVersion_In in Hcur. }
  destruct (findVersion_Some _ _ _ Hcur) as [Hidc [i Hi]].
  pose proof (lookup_lt_Some _ _ _ Hi) as Hlt.
  assert (In current (Project.versions p)) as Hin.
  { apply list_elem_of_In. by eapply list_elem_of_lookup_2. }
  destruct (walkHistory_parentsFirst _ Hpf i current [] (length (Project.versions p))
              Hi Hlt) as [h [Ha _]].
  destruct (ancestry_ends _ _ _ Ha Hin) as (top & rest & -> & Htop & Hnoparent & Hlast).
  assert (top = root) as ->.
  { apply list_elem_of_In, list_elem_of_lookup in Htop as [k Hk].
    destruct k as [|k]; [congruence|].
    destruct (Hparent k top Hk) as (j & w & _ & Hw & Hlink).
    exfalso. unfold parentOf in Hnoparent. rewrite Hlink in Hnoparent.
    rewrite (Htruthy j w Hw) in Hnoparent.
    apply findVersion_In in Hnoparent; [done|].
    apply list_elem_of_In. by eapply list_elem_of_lookup_2. }
  exists root, rest, current.
  split; [done|]. split; [done|].
  split; [unfold getCurrentVersion; by rewrite Hp|].
  split; [done|]. split; [|done].
  intros fuel Hfuel. unfold historyFuel in Hfuel. rewrite Hp in Hfuel.
  unfold getVersionHistory, getCurrentVersion. rewrite Hp, Hcur.
  destruct (walkHistory_parentsFirst _ Hpf i current [] fuel Hi ltac:(lia))
    as [h' [Ha' Hw]].
  rewrite app_nil_r in Hw. rewrite Hw. f_equal.
  eapply ancestry_unique; eauto.
Qed.

Lemma sampleStore_reachableFromUI : reachableFromUI sampleStore.
Proof.
  apply (ui_handleGenerate rootStore "make it blue" None rootVersion (inl "img-a") "a" 2).
  - apply ui_createProject; [apply ui_initial|reflexivity].
  - reflexivity.
  - split; [done|]. intros p v [= <-] [<-|[]]. done.
  - reflexivity.
Qed.

Lemma reachableFromUI_history_witness :
  exists root rest current,
    getCurrentVersion sampleStore = Some current /\
    getVersionHistory 2 sampleStore = Some (root :: rest) /\
    last (root :: rest) = Some current.
Proof.
  destruct (reachableFromUI_history sampleStore _ sampleStore_reachableFromUI eq_refl)
    as (root & rest & current & _ & _ & Hc & _ & Hh & Hl).
  exists root, rest, current. split; [exact Hc|]. split; [|exact Hl].
  apply Hh. vm_compute. lia.
Defined.

(** * Properties of clearing the mask *)

Lemma lookup_black (n j : nat) :
  mjoin (replicate n [0; 0; 0; 255]%Z) !! (4 * j)%nat = None \/
  mjoin (replicate n [0; 0; 0; 255]%Z) !! (4 * j)%nat = Some 0%Z.
Proof.
  revert j. induction n as [|n IH]; intros j; [by left|].
  destruct j as [|j]; [by right|].
  change (mjoin (replicate (S n) [0; 0; 0; 255]%Z))
    with ([0; 0; 0; 255]%Z ++ mjoin (replicate n [0; 0; 0; 255]%Z)).
  rewrite lookup_app_r by (simpl; lia).
  replace (4 * S j - length [0; 0; 0; 255]%Z)%nat with (4 * j)%nat by (simpl; lia).
  apply IH.
Qed.

Lemma fillBlack_allUnselected maskCanvas (key : Z) :
  isWhite (ImageData.data (fillBlack maskCanvas)) key = false.
Proof.
  unfold isWhite, readAt. destruct (Z.ltb_spec (key * 4) 0); [done|].
  replace (Z.to_nat (key * 4)) with (4 * Z.to_nat key)%nat by lia.
  unfold fillBlack. cbn [ImageData.data].
  by destruct (lookup_black
       (Z.to_nat (ImageData.width maskCanvas * ImageData.height maskCanvas))
       (Z.to_nat key)) as [-> | ->].
Qed.

(** X24. Clearing the mask deselects everything, in [BrushMaskCanvas.tsx]
    and in [ImageCanvas.tsx]: afterwards no pixel of the mask canvas passes
    the red-channel test and the store has no current mask, the project is
    untouched, and a stroke that ends before anything is painted leaves the
    store without mask in both components. *)
Theorem clearMask_deselects maskCanvas st (isDrawing : bool) (maskId : string) :
  let cleared := clearMask maskCanvas st in
  allUnselected (fst cleared) /\
  ImageData.width (fst cleared) = ImageData.width maskCanvas /\
  ImageData.height (fst cleared) = ImageData.height maskCanvas /\
  currentMask (snd cleared) = None /\
  project (snd cleared) = project st /\
  Scan.hasWhite (scanMask (fst cleared)) = false /\
  currentMask (updateMaskFromCanvas (fst cleared) maskId (snd cleared)) = None /\
  currentMask (snd (handleMouseUp isDrawing (fst cleared) maskId (snd cleared))) = None.
Proof.
  intros cleared.
  assert (allUnselected (fst cleared)) as Hall.
  { intros p _. apply fillBlack_allUnselected. }
  split; [exact Hall|]. split; [done|]. split; [done|]. split; [done|].
  split; [done|]. split; [by apply scanMask_allUnselected|].
  split; [by apply updateMaskFromCanvas_allUnselected|].
  by rewrite handleMouseUp_allUnselected.
Qed.

(** * The scan and the region growing together *)

(** X25. The two computations of a bounding box agree: scanning the mask
    buffer that the flood fill produced, as the brush components scan their
    mask canvas, finds the running extremes [minX], [minY], [maxX], [maxY]
    that the flood fill kept, and it finds a white pixel exactly when the
    clicked pixel was selected. *)
Theorem scanMask_agrees_with_fill img (x y : Z) tolerance fuel :
  wellFormed img -> inBounds img (x, y) -> (fillFuel img <= fuel)%nat ->
  exists s evaluated,
    segment pop fuel tolerance img x y = Some (s, evaluated) /\
    let scan :=
      scanMask {| ImageData.width := ImageData.width img;
                  ImageData.height := ImageData.height img;
                  ImageData.data := maskData s |} in
    Scan.minX scan = minX s /\ Scan.minY scan = minY s /\
    Scan.maxX scan = maxX s /\ Scan.maxY scan = maxY s /\
    (Scan.hasWhite scan = true <-> isWhite (maskData s) (keyOf img (x, y)) = true).
Proof.
  intros Hwf Hseed Hfuel.
  destruct (segment_terminates pop pop_fair img Hwf (x, y) Hseed tolerance fuel Hfuel)
    as (s & ev & Hrun & HI & Hs).
  simpl in Hrun. exists s, ev. split; [exact Hrun|].
  set (canvas := {| ImageData.width := ImageData.width img;
                    ImageData.height := ImageData.height img;
                    ImageData.data := maskData s |}).
  intros scan.
  assert (forall p, whitePixel canvas p <-> inBounds img p /\ keyOf img p ∈ visited s)
    as Hwhite.
  { intros p. unfold whitePixel. split.
    - intros [Hp Hw]. split; [exact Hp|].
      by apply (mask_white img (x, y) tolerance s ev p HI Hp).
    - intros [Hp Hv]. split; [exact Hp|].
      by apply (mask_white img (x, y) tolerance s ev p HI Hp). }
  assert (forall proj v, whiteCoord canvas (scanPixels canvas) proj v <->
                         coordOf img proj (visited s) v) as Hcoord.
  { intros proj v. rewrite whiteCoord_scanPixels. unfold coordOf. split.
    - intros (p & Hp & Hv). apply Hwhite in Hp as [Hp Hk]. by exists p.
    - intros (p & Hp & Hk & Hv). exists p. split; [|done]. by apply Hwhite. }
  destruct (scanMask_scanned canvas) as (Hhas & HminX & HminY & HmaxX & HmaxY).
  fold scan in Hhas, HminX, HminY, HmaxX, HmaxY.
  split; [|split; [|split; [|split]]].
  - eapply lowestOf_unique; [|apply (inv_minX _ _ _ _ _ HI)].
    eapply lowestOf_same; [exact HminX|]. intros v. symmetry. apply Hcoord.
  - eapply lowestOf_unique; [|apply (inv_minY _ _ _ _ _ HI)].
    eapply lowestOf_same; [exact HminY|]. intros v. symmetry. apply Hcoord.
  - eapply highestOf_unique; [|apply (inv_maxX _ _ _ _ _ HI)].
    eapply highestOf_same; [exact HmaxX|]. intros v. symmetry. apply Hcoord.
  - eapply highestOf_unique; [|apply (inv_maxY _ _ _ _ _ HI)].
    eapply highestOf_same; [exact HmaxY|]. intros v. symmetry. apply Hcoord.
  - rewrite Hhas. rewrite (mask_white img (x, y) tolerance s ev (x, y) HI Hseed).
    split.
    + intros (p & Hp & Hw).
      assert (whitePixel canvas p) as Hwp.
      { split; [by apply scanPixels_inBounds in Hp|done]. }
      apply Hwhite in Hwp as [Hin Hk].
      apply (finished_visited img (x, y) tolerance s ev p HI Hs Hin) in Hk.
      apply (finished_visited img (x, y) tolerance s ev (x, y) HI Hs Hseed).
      apply component_seed; [done|]. by apply component_seed_within in Hk.
    + intros Hk. exists (x, y).
      destruct (proj2 (Hwhite (x, y)) (conj Hseed Hk)) as [Hp Hw].
      split; [by apply inBounds_scanPixels|done].
Qed.

Lemma scanMask_agrees_with_fill_witness :
  exists s evaluated,
    segment pop 17 32 tiny 0 0 = Some (s, evaluated) /\
    Scan.minX (scanMask {| ImageData.width := ImageData.width tiny;
                           ImageData.height := ImageData.height tiny;
                           ImageData.data := maskData s |}) = minX s.
Proof.
  destruct (scanMask_agrees_with_fill tiny 0 0 32 17)
    as (s & ev & Hrun & Hmin & _).
  - reflexivity.
  - unfold inBounds. simpl. lia.
  - unfold fillFuel. simpl. lia.
  - exists s, ev. split; assumption.
Defined.

(** * Identifiers in the stores produced through the user interface *)

(** X26. In every store that the user interface can produce, identifiers
    are distinct: every version of the project is found by its own
    identifier, and exactly one position of the version list carries the
    current identifier, the one the history panel marks as current. *)
Theorem reachableFromUI_lookup st p :
  reachableFromUI st -> project st = Some p ->
  NoDup (List.map Version.id (Project.versions p)) /\
  (forall v, In v (Project.versions p) -> getVersionById (Version.id v) st = Some v) /\
  (exists (i : nat) c,
     Project.versions p !! i = Some c /\ getCurrentVersion st = Some c /\
     forall (j : nat) w, Project.versions p !! j = Some w ->
       Version.id w = Project.currentVersionId p -> j = i).
Proof.
  intros Hr Hp.
  destruct (reachableFromUI_rooted st Hr p Hp)
    as (_ & _ & Hdistinct & _ & (i & c & Hc & Hid)).
  assert (forall v, In v (Project.versions p) ->
            findVersion (Project.versions p) (Version.id v) = Some v) as Hfind.
  { intros v Hv.
    destruct (findVersion (Project.versions p) (Version.id v)) as [w|] eqn:Hw.
    - destruct (findVersion_Some _ _ _ Hw) as [Heq [j Hj]].
      apply list_elem_of_In, list_elem_of_lookup in Hv as [k Hk].
      assert (j = k) as -> by eauto. congruence.
    - by apply findVersion_In in Hw. }
  split; [|split].
  - apply NoDup_alt. intros j k id Hj Hk. rewrite lookup_map in Hj, Hk.
    destruct (Project.versions p !! j) as [v|] eqn:Ev; [|done].
    destruct (Project.versions p !! k) as [w|] eqn:Ew; [|done].
    injection Hj as Hj. injection Hk as Hk. eapply Hdistinct; eauto. congruence.
  - intros v Hv. unfold getVersionById. rewrite Hp. by apply Hfind.
  - exists i, c. split; [exact Hc|]. split.
    + unfold getCurrentVersion. rewrite Hp, <- Hid. apply Hfind.
      apply list_elem_of_In. by eapply list_elem_of_lookup_2.
    + intros j w Hj Hw. eapply Hdistinct; eauto. congruence.
Qed.

Lemma reachableFromUI_lookup_witness :
  NoDup (List.map Version.id [rootVersion; fst (addVersion "img-a" "make it blue" None
                                                  "r" "a" 2 rootStore)]).
Proof.
  exact (proj1 (reachableFromUI_lookup sampleStore _ sampleStore_reachableFromUI eq_refl)).
Defined.

(** * The request of the project page *)

(** X27. What the project page sends for a render: the prompt, the base64
    texts of the reference images, and the part of the shown image after
    its first comma. For a data URL whose MIME type and payload contain no
    comma this is the payload; for an image address without comma nothing
    is sent as [imageBase64] ([undefined]), where the toolbar would send the
    whole address. *)
Theorem handleChatGenerate_payload
    (prompt : string) (st : Page.t) (dbUser : User.t) (v : PageVersion.t) :
  Page.dbUser st = Some dbUser -> (0 < User.credits dbUser)%Z ->
  (0 <= Page.currentVersionIndex st)%Z ->
  Page.versions st !! Z.to_nat (Page.currentVersionIndex st) = Some v ->
  truthy (PageVersion.imageUrl v) = true ->
  exists request st1,
    handleChatGenerateStart prompt st = (Some (request, dbUser), st1) /\
    EditRequest.prompt request = prompt /\
    EditRequest.referenceImages request
      = List.map ReferenceImage.base64 (Page.referenceImages st) /\
    Page.versions st1 = Page.versions st /\
    (forall fileType base64,
       includes "," fileType = false -> includes "," base64 = false ->
       PageVersion.imageUrl v = dataUrl fileType base64 ->
       EditRequest.imageBase64 request = Some base64) /\
    (includes "," (PageVersion.imageUrl v) = false ->
       EditRequest.imageBase64 request = None /\
       extractBase64 (PageVersion.imageUrl v) = Some (PageVersion.imageUrl v)).
Proof.
  intros Huser Hcredits Hidx Hv Htruthy.
  assert (orElse (currentImage st) (Page.originalImage st)
          = Some (PageVersion.imageUrl v)) as Hsrc.
  { unfold currentImage. destruct (Z.leb_spec 0 (Page.currentVersionIndex st)); [|lia].
    rewrite Hv. simpl. by rewrite Htruthy. }
  unfold handleChatGenerateStart. rewrite Hsrc, Huser, Htruthy. simpl.
  destruct (Z.leb_spec (User.credits dbUser) 0); [lia|].
  eexists _, _. split; [reflexivity|]. simpl.
  split; [done|]. split; [done|]. split; [done|]. split.
  - intros fileType base64 Hft Hb ->.
    assert (dataUrl fileType base64
            = (("data:" ++ fileType ++ ";base64") ++ String "," base64)%string) as ->.
    { unfold dataUrl. by rewrite !append_assoc. }
    rewrite split_at_separator by (rewrite !includes_app, Hft; reflexivity).
    by rewrite split_no_separator.
  - intros Hnone. split.
    + by rewrite split_no_separator.
    + unfold extractBase64. by rewrite Hnone.
Qed.

Lemma handleChatGenerate_payload_witness :
  exists request st1,
    handleChatGenerateStart "p3" samplePage = (Some (request, sampleUser), st1) /\
    EditRequest.imageBase64 request = Some "BBBB"%string.
Proof.
  destruct (handleChatGenerate_payload "p3" samplePage sampleUser
              {| PageVersion.id := 1; PageVersion.imageUrl := "data:image/png;base64,BBBB";
                 PageVersion.prompt := "p1"; PageVersion.timestamp := 1;
                 PageVersion.dbId := None |}
              eq_refl ltac:(simpl; lia) ltac:(simpl; lia) eq_refl eq_refl)
    as (request & st1 & Hstart & _ & _ & _ & Hdata & _).
  exists request, st1. split; [exact Hstart|].
  exact (Hdata "image/png"%string "BBBB"%string eq_refl eq_refl eq_refl).
Defined.
